(** * opaque-union: a shallow embedding of [src/index.ts]

    The library generates, from a two-level schema (names crossed with
    variations), a family of constructors, guards and optics over one
    runtime representation of "opaque" entities.  This development embeds
    the generator [ofVariations] and the schema algebra ([omit], [pick],
    [merge], [omitVariations]) and proves or refutes the properties the
    specification states about them.

    Modelling conventions.
    - JavaScript values are the inductive type [value]; plain objects are
      finite maps from property names to values, so Leibniz equality of
      [value] is structural equality.  Numbers are carried around and
      never computed with: integers stand for them.  A function value is
      opaque, known by its [name] and [length] only.
    - An object value is a plain object: own enumerable data properties,
      [Object.prototype] above it.  An array has its index properties and
      [length] only.  Strings are ASCII.
    - A property read [v[k]] and a test [k in v] are modelled on the own
      properties of [v]: this is exact unless [k] names a member that [v]
      inherits from a built-in prototype.  The keys the guards and the
      isomorphisms test and read are none of those, and the statements
      about a lens take a property that the payload has.  Where the
      source reads a schema table under a key taken from another table
      ([omitVariations]), the members of [Object.prototype] are
      modelled; where a statement speaks of calling a property of a
      generated function, it names the members a function inherits.
    - The source is an ES module, so it runs in strict mode: assigning a
      read-only property throws.
    - A computation that can throw returns an [outcome].
    - Property names are identifier-like, so the property order of an
      object is its insertion order.  Assigning the key [__proto__]
      replaces a prototype instead of adding a property: this is modelled
      where the source assigns schema keys to a plain object and
      enumerates the result ([of]); the generator only reads back what it
      assigned under a key, which works for [__proto__] as for any key.
      No property of a payload is called [__proto__].
    - The functions the generator creates are modelled by what they
      compute, the function objects it decorates by that together with
      the properties attached to them.  The objects of the schema algebra,
      whose identity matters, live in an explicit store.
    - [Iso] and [Lens] come from monocle-ts and [createFoldObject] from
      foldable-helpers; the first two are modelled by their defining
      equations, the results of the third are left abstract. *)

From Stdlib Require Import ZArith Ascii String List.
From stdpp Require Import base option list gmap strings pretty.

Set Warnings "-register-all".
Open Scope string_scope.

(** ** Values *)

Inductive value : Type :=
  | VUndefined
  | VNull
  | VBool (b : bool)
  | VNum (z : Z)
  | VStr (s : string)
  | VFun (name : string) (arity : nat)
  | VArr (items : list value)
  | VObj (fields : gmap string value).

(** The result of the [typeof] operator. *)
Definition typeof (v : value) : string :=
  match v with
  | VUndefined => "undefined"
  | VNull => "object"
  | VBool _ => "boolean"
  | VNum _ => "number"
  | VStr _ => "string"
  | VFun _ _ => "function"
  | VArr _ => "object"
  | VObj _ => "object"
  end.

(** ** Abrupt completion *)

(** [TypeError] is the exception of that name; [Unmodelled] marks a run
    that reads the store at a place that does not hold the kind of object
    the typed source expects there. *)
Inductive error : Type := TypeError | Unmodelled.

Inductive outcome (A : Type) : Type :=
  | Ret (a : A)
  | Throw (e : error).
Arguments Ret {A} a.
Arguments Throw {A} e.

#[global] Instance outcome_ret : MRet outcome := fun A a => Ret a.
#[global] Instance outcome_bind : MBind outcome := fun A B k c =>
  match c with
  | Ret a => k a
  | Throw e => Throw e
  end.

(** [forEach f l s] runs [f] on the elements of [l] from left to right,
    threading the object under construction; it is both [Array.forEach]
    with a mutated target and [Array.reduce] with an accumulator. *)
Fixpoint forEach {K S : Type} (f : K -> S -> outcome S) (l : list K) (s : S)
  : outcome S :=
  match l with
  | [] => Ret s
  | k :: l' => match f k s with
               | Ret s' => forEach f l' s'
               | Throw e => Throw e
               end
  end.

(** A computation that completes normally. *)
Definition returns {A : Type} (c : outcome A) : Prop := exists a, c = Ret a.

(** ** Property access *)

(** The index properties of an array or of a string: ["0"], ["1"], ... *)
Definition index_fields (l : list value) : gmap string value :=
  list_to_map (imap (fun (i : nat) x => (pretty i, x)) l).

Definition chars (s : string) : list value :=
  (fun c => VStr (String c EmptyString)) <$> list_ascii_of_string s.

(** The own enumerable string-keyed properties of a value, as the object
    spread [{...v}] and a rest pattern copy them.  Primitives other than
    strings contribute nothing. *)
Definition own_enumerable (v : value) : gmap string value :=
  match v with
  | VObj m => m
  | VArr l => index_fields l
  | VStr s => index_fields (chars s)
  | _ => ∅
  end.

(** [v.k] or [v[k]], read among the own properties of [v]: throws on
    [null] and [undefined]. *)
Definition get_prop (v : value) (k : string) : outcome value :=
  match v with
  | VUndefined | VNull => Throw TypeError
  | VObj m => Ret (default VUndefined (m !! k))
  | VArr l =>
      if bool_decide (k = "length") then Ret (VNum (Z.of_nat (length l)))
      else Ret (default VUndefined (index_fields l !! k))
  | VStr s =>
      if bool_decide (k = "length") then Ret (VNum (Z.of_nat (String.length s)))
      else Ret (default VUndefined (index_fields (chars s) !! k))
  | VFun name arity =>
      if bool_decide (k = "name") then Ret (VStr name)
      else if bool_decide (k = "length") then Ret (VNum (Z.of_nat arity))
      else Ret VUndefined
  | VBool _ | VNum _ => Ret VUndefined
  end.

(** [k in v], tested among the own properties of [v]: throws unless [v]
    is an object. *)
Definition has_prop (k : string) (v : value) : outcome bool :=
  match v with
  | VObj m => Ret (bool_decide (is_Some (m !! k)))
  | VArr l =>
      Ret (bool_decide (k = "length") || bool_decide (is_Some (index_fields l !! k)))
  | VFun _ _ => Ret (bool_decide (k = "name") || bool_decide (k = "length"))
  | VUndefined | VNull | VBool _ | VNum _ | VStr _ => Throw TypeError
  end.

(** [v === s] for a string [s]. *)
Definition strict_eq_str (v : value) (s : string) : bool :=
  match v with
  | VStr s' => bool_decide (s' = s)
  | _ => false
  end.

(** [l.includes(v)] and [l.indexOf(v) !== -1] for an array [l] of strings. *)
Definition includes (l : list string) (v : value) : bool :=
  match v with
  | VStr s => bool_decide (s ∈ l)
  | _ => false
  end.

(** The [i]-th actual argument of a call, [undefined] when it is missing. *)
Definition arg (i : nat) (args : list value) : value := nth i args VUndefined.

(** ** Function objects

    The generator attaches properties to the functions it creates.  A
    function object is its call behaviour together with the properties
    attached to it. *)

Record fobj (C P : Type) : Type := FObj { fcall : C; fprops : gmap string P }.
Arguments FObj {C P} fcall fprops.
Arguments fcall {C P} f.
Arguments fprops {C P} f.

(** Keys that cannot be assigned on a function in strict mode: [name] and
    [length] are own read-only properties, [caller] and [arguments] are
    accessors of [Function.prototype] whose setter throws. *)
Definition function_readonly : list string :=
  ["name"; "length"; "caller"; "arguments"].

(** The keys under which every function finds a member that it inherits
    from [Function.prototype] or, through it, from [Object.prototype],
    and that can be called. *)
Definition function_inherited : list string :=
  ["apply"; "bind"; "call"; "constructor"; "toString"; "toLocaleString";
   "valueOf"; "hasOwnProperty"; "isPrototypeOf"; "propertyIsEnumerable";
   "__defineGetter__"; "__defineSetter__"; "__lookupGetter__";
   "__lookupSetter__"; "__proto__"].

(** [f[k] = x], where [x] is the result of a property read ([None] when
    the read gave [undefined]). *)
Definition fobj_assign {C P : Type} (k : string) (x : option P) (f : fobj C P)
  : outcome (fobj C P) :=
  if bool_decide (k ∈ function_readonly) then Throw TypeError
  else Ret (FObj (fcall f) (partial_alter (fun _ => x) k (fprops f))).

(** The keys every attaching loop accepts. *)
Definition assignable (keys : list string) : Prop :=
  forall k, k ∈ keys -> k ∉ function_readonly.

#[global] Instance assignable_dec keys : Decision (assignable keys).
Proof.
  refine (cast_if (decide (Forall (fun k => k ∉ function_readonly) keys)));
    unfold assignable; rewrite Forall_forall in *; assumption.
Defined.

(** ** The opaque representation *)

Definition opaque (name variation payload : value) : value :=
  VObj (<["__OPAQUE__" := VStr "__OPAQUE__"]>
       (<["__OPAQUE_KEY__" := name]>
       (<["__OPAQUE_VARIATION__" := variation]>
       (<["value" := payload]> ∅)))).

(** ** Schemas *)

(** A variation table maps variation keys to payload-type placeholders;
    a schema maps names to variation tables.  Both are objects whose key
    order matters to [Object.keys]. *)
Definition table : Type := list (string * value).
Definition schema : Type := list (string * table).

Definition object_keys {A : Type} (o : list (string * A)) : list string := o.*1.

Fixpoint field {A : Type} (o : list (string * A)) (k : string) : option A :=
  match o with
  | [] => None
  | (k', a) :: o' => if bool_decide (k' = k) then Some a else field o' k
  end.

(** ** Constructors *)

Definition jsfun : Type := list value -> value.
Definition constructor : Type := fobj jsfun jsfun.

Definition ofsTypes (names variations : list string)
  : outcome (gmap string constructor) :=
  forEach (fun name localOfTypes =>
    let defaultOf : constructor :=
      FObj (fun args =>
              if (length args <=? 1)%nat
              then opaque (VStr name) (VStr "default") (arg 0 args)
              else opaque (VStr name) (arg 0 args) (arg 1 args)) ∅ in
    defaultOf' ← forEach (fun variation d =>
        fobj_assign variation
          (Some (fun args => opaque (VStr name) (VStr variation) (arg 0 args))) d)
      variations defaultOf;
    Ret (<[name := defaultOf']> localOfTypes)) names ∅.

Definition ofsVariations (names variations : list string)
  : outcome (gmap string constructor) :=
  forEach (fun variation localOfVariations =>
    let defaultOf : constructor :=
      FObj (fun args => opaque (arg 0 args) (VStr variation) (arg 1 args)) ∅ in
    defaultOf' ← forEach (fun name d =>
        fobj_assign name
          (Some (fun args => opaque (VStr name) (VStr variation) (arg 0 args))) d)
      names defaultOf;
    Ret (<[variation := defaultOf']> localOfVariations)) variations ∅.

Definition ofAll (names variations : list string)
    (ofsT ofsV : gmap string constructor) : outcome (fobj jsfun constructor) :=
  let ofAll0 : fobj jsfun constructor :=
    FObj (fun args => opaque (arg 0 args) (arg 1 args) (arg 2 args)) ∅ in
  ofAll1 ← forEach (fun name o => fobj_assign name (ofsT !! name) o) names ofAll0;
  forEach (fun variation o => fobj_assign variation (ofsV !! variation) o)
    variations ofAll1.

(** ** Guards *)

Definition guard : Type := value -> outcome bool.
Definition checker : Type := fobj guard guard.

(** The two tests every guard starts with: [typeof thing !== 'object'],
    then the conjunction on the marker and the two tag properties, whose
    [&&] evaluates left to right and stops at the first falsy operand.
    [Ret true] means that neither test returned [false]. *)
Definition opaque_shaped (thing : value) : outcome bool :=
  if negb (bool_decide (typeof thing = "object")) then Ret false
  else
    a ← has_prop "__OPAQUE__" thing;
    if negb a then Ret false
    else
      m ← get_prop thing "__OPAQUE__";
      if negb (strict_eq_str m "__OPAQUE__") then Ret false
      else
        b ← has_prop "__OPAQUE_KEY__" thing;
        if negb b then Ret false
        else has_prop "__OPAQUE_VARIATION__" thing.

(** The guard scoped to a name: [defaultIs] of [isTypes]. *)
Definition is_name (variations : list string) (name : string) : guard :=
  fun thing =>
    ok ← opaque_shaped thing;
    if negb ok then Ret false
    else
      key ← get_prop thing "__OPAQUE_KEY__";
      if negb (strict_eq_str key name) then Ret false
      else
        var ← get_prop thing "__OPAQUE_VARIATION__";
        if includes variations var then Ret true else Ret false.

(** The guard scoped to a name and a variation; the source writes it twice,
    as [defaultIs[variation]] in [isTypes] and as [defaultIs[name]] in
    [isVariations]. *)
Definition is_name_variation (name variation : string) : guard :=
  fun thing =>
    ok ← opaque_shaped thing;
    if negb ok then Ret false
    else
      key ← get_prop thing "__OPAQUE_KEY__";
      if negb (strict_eq_str key name) then Ret false
      else
        var ← get_prop thing "__OPAQUE_VARIATION__";
        if strict_eq_str var variation then Ret true else Ret false.

(** The guard scoped to a variation: [defaultIs] of [isVariations]. *)
Definition is_variation (names : list string) (variation : string) : guard :=
  fun thing =>
    ok ← opaque_shaped thing;
    if negb ok then Ret false
    else
      var ← get_prop thing "__OPAQUE_VARIATION__";
      if negb (strict_eq_str var variation) then Ret false
      else
        key ← get_prop thing "__OPAQUE_KEY__";
        if includes names key then Ret true else Ret false.

Definition isTypes (names variations : list string)
  : outcome (gmap string checker) :=
  forEach (fun name localIsTypes =>
    let defaultIs : checker := FObj (is_name variations name) ∅ in
    defaultIs' ← forEach (fun variation d =>
        fobj_assign variation (Some (is_name_variation name variation)) d)
      variations defaultIs;
    Ret (<[name := defaultIs']> localIsTypes)) names ∅.

Definition isVariations (names variations : list string)
  : outcome (gmap string checker) :=
  forEach (fun variation localIsVariations =>
    let defaultIs : checker := FObj (is_variation names variation) ∅ in
    defaultIs' ← forEach (fun name d =>
        fobj_assign name (Some (is_name_variation name variation)) d)
      names defaultIs;
    Ret (<[variation := defaultIs']> localIsVariations)) variations ∅.

(** The call behaviour of the global guard. *)
Definition is_any (names variations : list string) : guard :=
  fun thing =>
    ok ← opaque_shaped thing;
    if negb ok then Ret false
    else
      key ← get_prop thing "__OPAQUE_KEY__";
      if negb (includes names key) then Ret false
      else
        var ← get_prop thing "__OPAQUE_VARIATION__";
        if includes variations var then Ret true else Ret false.

Definition isAll (names variations : list string)
    (isT isV : gmap string checker) : outcome (fobj guard checker) :=
  let isAll0 : fobj guard checker := FObj (is_any names variations) ∅ in
  isAll1 ← forEach (fun name o => fobj_assign name (isT !! name) o) names isAll0;
  forEach (fun variation o => fobj_assign variation (isV !! variation) o)
    variations isAll1.

(** ** Optics

    [Iso] and [Lens] are the classes of monocle-ts, an external dependency;
    they are modelled by the two functions each of them stores, and
    [fromProp] and [composeLens] by what monocle-ts defines them to be. *)

Record Iso : Type := MkIso {
  get : value -> outcome value;
  reverseGet : value -> outcome value
}.

Record Lens : Type := MkLens {
  lget : value -> outcome value;
  lset : value -> value -> outcome value
}.

(** [a === b] as far as a structural value can tell: two primitives are
    identical when they are equal; an object, an array or a function is
    identical to itself alone, and the answer for them is [false]. *)
Definition identical (a b : value) : bool :=
  match a, b with
  | VUndefined, VUndefined => true
  | VNull, VNull => true
  | VBool x, VBool y => bool_decide (x = y)
  | VNum x, VNum y => bool_decide (x = y)
  | VStr x, VStr y => bool_decide (x = y)
  | _, _ => false
  end.

(** [Lens.fromProp()(prop)]: the setter reads [s[prop]] and returns [s]
    itself when the new value is identical to what it read, else
    [Object.assign({}, s, {[prop]: a})].  On a plain object that has the
    property both answers are structurally equal, so nothing is lost
    there by taking a stored object for another one than the new value;
    only on an array that holds the very object written does the code
    return the array where this setter rebuilds. *)
Definition fromProp (prop : string) : Lens :=
  MkLens (fun s => get_prop s prop)
         (fun a s => ov ← get_prop s prop;
                     if identical a ov then Ret s
                     else Ret (VObj (<[prop := a]> (own_enumerable s)))).

(** [iso.composeLens(lens)]. *)
Definition composeLens (i : Iso) (l : Lens) : Lens :=
  MkLens (fun s => a ← get i s; lget l a)
         (fun b s => a ← get i s; a' ← lset l b a; reverseGet i a').

(** Calling, with one argument, the result of a property read that found
    an attached function or nothing: calling [undefined] throws. *)
Definition call1 (f : option jsfun) : value -> outcome value :=
  fun a => match f with
           | Some g => Ret (g [a])
           | None => Throw TypeError
           end.

(** The destructuring [{_tag, _variation, ...value}] of a parameter: it
    throws on [null] and [undefined]; the rest object takes the remaining
    own enumerable properties. *)
Definition untag (tagged : value) : outcome (value * value * value) :=
  _tag ← get_prop tagged "_tag";
  _variation ← get_prop tagged "_variation";
  Ret (_tag, _variation,
       VObj (delete "_variation" (delete "_tag" (own_enumerable tagged)))).

(** The object literal [{_tag: t, _variation: v, ...payload}]: properties
    of the payload come last and win. *)
Definition tag (t v payload : value) : value :=
  VObj (own_enumerable payload ∪ <["_tag" := t]> (<["_variation" := v]> ∅)).

(** The members of the generated sub-objects. [OLensFromProp i] stands for
    the closure [prop => i.composeLens(Lens.fromProp()(prop))], [OFold] for
    a result of [createFoldObject], which is not modelled. *)
Inductive optic : Type :=
  | OIso (i : Iso)
  | OLensFromProp (i : Iso)
  | OFold.

Inductive member : Type :=
  | MOptic (o : optic)
  | MLenses (l : gmap string optic).

Definition scope : Type := gmap string member.

(** [{ iso, lensFromProp }], the value of [variationLenses] and of
    [nameLenses]. *)
Definition lenses (i : Iso) : gmap string optic :=
  <["iso" := OIso i]> (<["lensFromProp" := OLensFromProp i]> ∅).

(** What applying a [lensFromProp] closure to [prop] returns. *)
Definition lensFromProp (i : Iso) (prop : string) : Lens :=
  composeLens i (fromProp prop).

Definition forTypes (names variations : list string)
    (ofsT : gmap string constructor) : outcome (gmap string scope) :=
  forEach (fun name localForTypes =>
    let get := fun opaque => get_prop opaque "value" in
    defaultOf ← match ofsT !! name with
                | Some f => Ret f
                | None => Throw TypeError
                end;
    let defaultFor : gmap string scope :=
      let reverseGet := call1 (fprops defaultOf !! "default") in
      let iso := MkIso get reverseGet in
      <[name := <["iso" := MOptic (OIso iso)]>
                (<["lensFromProp" := MOptic (OLensFromProp iso)]>
                (<["fold" := MOptic OFold]> ∅))]> localForTypes in
    forEach (fun variation defaultFor =>
        let reverseGet := call1 (fprops defaultOf !! variation) in
        let iso := MkIso get reverseGet in
        let variationLenses := lenses iso in
        Ret (alter (insert variation (MLenses variationLenses)) name defaultFor))
      variations defaultFor) names ∅.

Definition forVariations (names variations : list string)
    (ofsV : gmap string constructor) : outcome (gmap string scope) :=
  forEach (fun variation localForVariations =>
    let get := fun opaque => get_prop opaque "value" in
    let iso :=
      MkIso (fun opaque =>
               _tag ← get_prop opaque "__OPAQUE_KEY__";
               payload ← get_prop opaque "value";
               Ret (tag _tag (VStr variation) payload))
            (fun tagged =>
               '(_tag, _, value) ← untag tagged;
               Ret (opaque _tag (VStr variation) value)) in
    let newForVariations : gmap string scope :=
      <[variation := <["iso" := MOptic (OIso iso)]>
                     (<["lensFromProp" := MOptic (OLensFromProp iso)]>
                     (<["fold" := MOptic OFold]> ∅))]> localForVariations in
    forEach (fun name newForVariations =>
        defaultOf ← match ofsV !! variation with
                    | Some f => Ret f
                    | None => Throw TypeError
                    end;
        let reverseGet := call1 (fprops defaultOf !! name) in
        let localIso := MkIso get reverseGet in
        let nameLenses := lenses localIso in
        Ret (alter (insert name (MLenses nameLenses)) variation newForVariations))
      names newForVariations) variations ∅.

(** The global isomorphism. *)
Definition iso : Iso :=
  MkIso (fun opaque =>
           _tag ← get_prop opaque "__OPAQUE_KEY__";
           _variation ← get_prop opaque "__OPAQUE_VARIATION__";
           payload ← get_prop opaque "value";
           Ret (tag _tag _variation payload))
        (fun tagged =>
           '(_tag, _variation, value) ← untag tagged;
           Ret (opaque _tag _variation value)).

(** ** The generated bundle *)

(** The members of the object [ofVariations] returns.  [T] is the type of
    the reference to the schema the bundle keeps under [types]. *)
Inductive api_member (T : Type) : Type :=
  | ATypes (types : T)
  | AOf (o : fobj jsfun constructor)
  | AIs (i : fobj guard checker)
  | AFold
  | AIso (i : Iso)
  | ALensFromProp (i : Iso)
  | AScope (s : scope).
Arguments ATypes {T} types.
Arguments AOf {T} o.
Arguments AIs {T} i.
Arguments AFold {T}.
Arguments AIso {T} i.
Arguments ALensFromProp {T} i.
Arguments AScope {T} s.

Definition UnionAPI (T : Type) : Type := gmap string (api_member T).

(** The constants of the closure of [ofVariations], in the order the
    source defines them. *)
Record generated : Type := Generated {
  c_ofsTypes : gmap string constructor;
  c_ofsVariations : gmap string constructor;
  c_ofAll : fobj jsfun constructor;
  c_isTypes : gmap string checker;
  c_isVariations : gmap string checker;
  c_isAll : fobj guard checker;
  c_forTypes : gmap string scope;
  c_forVariations : gmap string scope
}.

Definition constants (names variations : list string) : outcome generated :=
  ofsT ← ofsTypes names variations;
  ofsV ← ofsVariations names variations;
  ofAll ← ofAll names variations ofsT ofsV;
  isT ← isTypes names variations;
  isV ← isVariations names variations;
  isAll ← isAll names variations isT isV;
  forT ← forTypes names variations ofsT;
  forV ← forVariations names variations ofsV;
  Ret (Generated ofsT ofsV ofAll isT isV isAll forT forV).

(** The object literal [ofVariations] returns: it spreads [forTypes],
    then [forVariations], over the six fixed keys, and a later key wins. *)
Definition bundle {T : Type} (types : T) (g : generated) : UnionAPI T :=
  let spreadTypes : gmap string (api_member T) := AScope <$> c_forTypes g in
  let spreadVariations : gmap string (api_member T) :=
    AScope <$> c_forVariations g in
  spreadVariations ∪ spreadTypes ∪
    (<["types" := ATypes types]>
    (<["of" := AOf (c_ofAll g)]>
    (<["is" := AIs (c_isAll g)]>
    (<["fold" := AFold]>
    (<["iso" := AIso iso]>
    (<["lensFromProp" := ALensFromProp iso]> ∅)))))).

(** The body of [ofVariations] once [names] and [variations] are known. *)
Definition generate {T : Type} (types : T) (names variations : list string)
  : outcome (UnionAPI T) :=
  g ← constants names variations;
  Ret (bundle types g).

(** [Object.keys(types[names[0]])]: on an empty schema [names[0]] is
    [undefined], so is [types[undefined]], and [Object.keys] throws. *)
Definition first_table (types : schema) : outcome table :=
  match head (object_keys types) ≫= field types with
  | Some t => Ret t
  | None => Throw TypeError
  end.

(** The schema normalizer: the first two statements of [ofVariations]. *)
Definition normalize (types : schema) : outcome (list string * list string) :=
  let names := object_keys types in
  first ← first_table types;
  let variations := object_keys first in
  Ret (names, variations).

Definition ofVariations (types : schema) : outcome (UnionAPI schema) :=
  '(names, variations) ← normalize types;
  generate types names variations.

(** The constants [ofVariations] computes for a schema, before it packs
    them in the bundle. *)
Definition closure (types : schema) : outcome generated :=
  '(names, variations) ← normalize types;
  constants names variations.

(** The schema [of] hands to [ofVariations], built by one assignment
    [realTypes[name] = { default: types[name] }] per key of [types].  The
    keys of an object are distinct, so each assignment adds a property at
    the end, but for the key [__proto__], whose assignment replaces the
    prototype of [realTypes] and adds nothing. *)
Definition realTypes (types : list (string * value)) : schema :=
  (fun '(name, t) => (name, [("default", t)]))
    <$> filter (fun nt => nt.1 <> "__proto__") types.

(** [of] (a reserved word here, hence [of_]): every name gets the single
    variation [default]. *)
Definition of_ (types : list (string * value)) : outcome (UnionAPI schema) :=
  ofVariations (realTypes types).

(** The isomorphism [forVariations] builds for a variation, by name. *)
Definition variation_iso (variation : string) : Iso :=
  MkIso (fun opaque =>
           _tag ← get_prop opaque "__OPAQUE_KEY__";
           payload ← get_prop opaque "value";
           Ret (tag _tag (VStr variation) payload))
        (fun tagged =>
           '(_tag, _, value) ← untag tagged;
           Ret (opaque _tag (VStr variation) value)).

(** The isomorphism of a slice: [get] reads the payload, [reverseGet] is
    the fully scoped constructor the generator read from a table. *)
Definition slice_iso (reverseGet : option jsfun) : Iso :=
  MkIso (fun opaque => get_prop opaque "value") (call1 reverseGet).

(** The three members a sub-object starts with. *)
Definition scope_members (i : Iso) : scope :=
  <["iso" := MOptic (OIso i)]>
  (<["lensFromProp" := MOptic (OLensFromProp i)]>
  (<["fold" := MOptic OFold]> ∅)).

(** The six members the object literal of [ofVariations] lists before
    its two spreads. *)
Definition fixed_members {T : Type} (types : T) (g : generated) : UnionAPI T :=
  <["types" := ATypes types]>
  (<["of" := AOf (c_ofAll g)]>
  (<["is" := AIs (c_isAll g)]>
  (<["fold" := AFold]>
  (<["iso" := AIso iso]>
  (<["lensFromProp" := ALensFromProp iso]> ∅))))).

(** ** The store

    The schema algebra takes bundles that exist already and reads the
    schema objects they refer to, so object identity matters there.  The
    store holds the three kinds of objects involved; a location is an
    index in it and an allocation extends it at the end.  The functions
    and sub-objects a generation creates cannot be reached from its
    inputs, so they stay values, inside the cell of the bundle. *)

Definition loc : Type := nat.

Inductive cell : Type :=
  | CTable (variations : table)
  | CTypes (names : list (string * loc))
  | CBundle (api : UnionAPI loc).

Definition heap : Type := list cell.

(** Computations on the store that can throw. *)
Definition M (A : Type) : Type := heap -> outcome (A * heap).

Definition retM {A : Type} (a : A) : M A := fun h => Ret (a, h).

Definition bindM {A B : Type} (c : M A) (k : A -> M B) : M B :=
  fun h => match c h with
           | Ret (a, h') => k a h'
           | Throw e => Throw e
           end.

Declare Scope store_scope.
Delimit Scope store_scope with store.
Notation "'do' x <- c ; k" := (bindM c (fun x => k))
  (at level 10, x name, c at level 100, k at level 200) : store_scope.

Definition lift {A : Type} (o : outcome A) : M A :=
  fun h => match o with
           | Ret a => Ret (a, h)
           | Throw e => Throw e
           end.

(** An object literal: a new object. *)
Definition new (c : cell) : M loc := fun h => Ret (length h, (h ++ [c])%list).

Definition read (l : loc) : M cell :=
  fun h => match h !! l with
           | Some c => Ret (c, h)
           | None => Throw Unmodelled
           end.

Definition read_table (l : loc) : M table :=
  bindM (read l) (fun c => match c with
                           | CTable t => retM t
                           | _ => lift (Throw Unmodelled)
                           end).

Definition read_types (l : loc) : M (list (string * loc)) :=
  bindM (read l) (fun c => match c with
                           | CTypes t => retM t
                           | _ => lift (Throw Unmodelled)
                           end).

(** [union.types].  In a bundle whose schema has a name or a variation
    called [types] that key holds a generated sub-object instead. *)
Definition types_of (union : loc) : M loc :=
  bindM (read union) (fun c => match c with
                               | CBundle api =>
                                   match api !! "types" with
                                   | Some (ATypes t) => retM t
                                   | _ => lift (Throw Unmodelled)
                                   end
                               | _ => lift (Throw Unmodelled)
                               end).

(** [reduce] and [forEach] over the store. *)
Fixpoint reduce {K S : Type} (f : S -> K -> M S) (l : list K) (s : S) : M S :=
  match l with
  | [] => retM s
  | k :: l' => bindM (f s k) (reduce f l')
  end.

(** The fields of [{...o, [k]: a}]: an existing key keeps its place. *)
Fixpoint set_field {A : Type} (o : list (string * A)) (k : string) (a : A)
  : list (string * A) :=
  match o with
  | [] => [(k, a)]
  | (k', a') :: o' =>
      if bool_decide (k' = k) then (k, a) :: o' else (k', a') :: set_field o' k a
  end.

(** The fields of [{...o1, ...o2}]. *)
Definition spread {A : Type} (o1 o2 : list (string * A)) : list (string * A) :=
  fold_left (fun o '(k, a) => set_field o k a) o2 o1.

(** The members every plain object inherits from [Object.prototype]: the
    functions by their [name] and [length]; [__proto__] is an accessor
    there and reads as [Object.prototype] itself, an object with no
    enumerable property. *)
Definition object_prototype : table :=
  [("constructor", VFun "Object" 1);
   ("toString", VFun "toString" 0);
   ("toLocaleString", VFun "toLocaleString" 0);
   ("valueOf", VFun "valueOf" 0);
   ("hasOwnProperty", VFun "hasOwnProperty" 1);
   ("isPrototypeOf", VFun "isPrototypeOf" 1);
   ("propertyIsEnumerable", VFun "propertyIsEnumerable" 1);
   ("__defineGetter__", VFun "__defineGetter__" 2);
   ("__defineSetter__", VFun "__defineSetter__" 2);
   ("__lookupGetter__", VFun "__lookupGetter__" 1);
   ("__lookupSetter__", VFun "__lookupSetter__" 1);
   ("__proto__", VObj ∅)].

(** [t[k]] for a variation table [t] and any key: an own property, else
    what the table inherits, else [undefined]. *)
Definition table_get (t : table) (k : string) : value :=
  match field t k with
  | Some x => x
  | None => default VUndefined (field object_prototype k)
  end.

(** [types[key]] for a key the object is known to have: a missing key
    would give [undefined], which is not a table. *)
Definition table_of (types : list (string * loc)) (key : string) : M loc :=
  match field types key with
  | Some t => retM t
  | None => lift (Throw Unmodelled)
  end.

Local Open Scope store_scope.

(** [ofVariations] on a schema held in the store. *)
Definition ofVariations_at (types : loc) : M loc :=
  do fields <- read_types types;
  let names := object_keys fields in
  do first <- match head names ≫= field fields with
              | Some t => read_table t
              | None => lift (Throw TypeError)
              end;
  let variations := object_keys first in
  do api <- lift (generate types names variations);
  new (CBundle api).

(** Every object literal of a loop body is a new object; the table of a
    name that is kept is referred to, not copied. *)
Definition omit (union : loc) (omittedKeys : list string) : M loc :=
  do types <- types_of union;
  do fields <- read_types types;
  do empty <- new (CTypes []);
  do filteredTypes <- reduce (fun localTypes key =>
      if bool_decide (key ∈ omittedKeys) then retM localTypes
      else
        do local <- read_types localTypes;
        do t <- table_of fields key;
        new (CTypes (set_field local key t)))
    (object_keys fields) empty;
  ofVariations_at filteredTypes.

Definition pick (union : loc) (onlyKeys : list string) : M loc :=
  do types <- types_of union;
  do fields <- read_types types;
  do empty <- new (CTypes []);
  do filteredTypes <- reduce (fun localTypes key =>
      if negb (bool_decide (key ∈ onlyKeys)) then retM localTypes
      else
        do local <- read_types localTypes;
        do t <- table_of fields key;
        new (CTypes (set_field local key t)))
    (object_keys fields) empty;
  ofVariations_at filteredTypes.

Definition merge (union1 union2 : loc) : M loc :=
  do types1 <- types_of union1;
  do fields1 <- read_types types1;
  do types2 <- types_of union2;
  do fields2 <- read_types types2;
  do types <- new (CTypes (spread fields1 fields2));
  ofVariations_at types.

(** [localType] is read once per name: nothing writes to it before the
    inner loop reads its properties, [localType[variation]] through the
    prototype chain. *)
Definition omitVariations (union : loc) (omittedVariations : list string)
  : M loc :=
  do types <- types_of union;
  do fields <- read_types types;
  let names := object_keys fields in
  do first <- match head names ≫= field fields with
              | Some t => read_table t
              | None => lift (Throw TypeError)
              end;
  let variations := object_keys first in
  do empty <- new (CTypes []);
  do filteredTypes <- reduce (fun localTypes name =>
      do localType <- bindM (table_of fields name) read_table;
      do emptyType <- new (CTable []);
      do filteredType <- reduce (fun localVariations variation =>
          if bool_decide (variation ∈ omittedVariations) then retM localVariations
          else
            do local <- read_table localVariations;
            new (CTable (set_field local variation
                           (table_get localType variation))))
        variations emptyType;
      do local <- read_types localTypes;
      new (CTypes (set_field local name filteredType)))
    names empty;
  ofVariations_at filteredTypes.

Local Close Scope store_scope.

(** What purity of a schema operation means for its result [(union', h')]
    on the store [h]: every object of [h] is still there, unchanged; the
    returned location holds a bundle and was not allocated in [h]; and
    the schema object that bundle refers to was not allocated in [h]
    either. *)
Definition fresh_bundle (h : heap) (r : loc * heap) : Prop :=
  (forall l c, h !! l = Some c -> r.2 !! l = Some c) /\
  h !! r.1 = None /\
  exists api,
    r.2 !! r.1 = Some (CBundle api) /\
    forall k t, api !! k = Some (ATypes t) -> h !! t = None.

(** * Properties *)

(** ** Sequencing *)

Lemma bind_Ret {A B : Type} (c : outcome A) (k : A -> outcome B) (b : B) :
  (c ≫= k) = Ret b -> exists a, c = Ret a /\ k a = Ret b.
Proof.
  destruct c as [a|e]; [|discriminate].
  intros H. exists a. split; [reflexivity|exact H].
Qed.

Lemma bind_Ret_l {A B : Type} (a : A) (k : A -> outcome B) :
  (Ret a ≫= k) = k a.
Proof. reflexivity. Qed.

Lemma Ret_inj {A : Type} (a b : A) : Ret a = Ret b -> a = b.
Proof. congruence. Qed.

Ltac inv_bind H :=
  let a := fresh "a" in
  let Ha := fresh "Ha" in
  apply bind_Ret in H as (a & Ha & H).

Lemma forEach_ext {K S : Type} (f g : K -> S -> outcome S) (l : list K) (s : S) :
  (forall k s', f k s' = g k s') -> forEach f l s = forEach g l s.
Proof.
  intros Hfg. revert s. induction l as [|k l IH]; intros s; [reflexivity|].
  simpl. rewrite Hfg. destruct (g k s); [apply IH | reflexivity].
Qed.

Lemma forEach_cons {K S : Type} (f : K -> S -> outcome S) k l s :
  forEach f (k :: l) s = (f k s ≫= forEach f l).
Proof. reflexivity. Qed.

(** ** Attaching properties to a function *)

Section attach.
Context {C P : Type}.
Implicit Types (d : fobj C P) (x : string -> option P).

Lemma fobj_assign_Ret k o d d' :
  fobj_assign k o d = Ret d' ->
  (k ∉ function_readonly) /\ fcall d' = fcall d /\
  forall k', fprops d' !! k' = if bool_decide (k' = k) then o else fprops d !! k'.
Proof.
  unfold fobj_assign. case_bool_decide as Hk; [discriminate|].
  intros [= <-]. split; [assumption|]. split; [reflexivity|].
  intros k'. simpl. case_bool_decide as Hk'.
  - subst k'. apply lookup_partial_alter_eq.
  - apply lookup_partial_alter_ne. congruence.
Qed.

Lemma forEach_assign x ks d0 d' :
  forEach (fun k d => fobj_assign k (x k) d) ks d0 = Ret d' ->
  fcall d' = fcall d0 /\
  (forall k, k ∈ ks -> k ∉ function_readonly) /\
  forall k, fprops d' !! k = if bool_decide (k ∈ ks) then x k else fprops d0 !! k.
Proof.
  revert d0. induction ks as [|k0 ks IH]; intros d0 H.
  - injection H as <-. split; [reflexivity|]. split.
    + intros k Hk. inversion Hk.
    + intros k. case_bool_decide as Hk; [inversion Hk | reflexivity].
  - rewrite forEach_cons in H. inv_bind H.
    apply fobj_assign_Ret in Ha as (Hro & Hcall & Hprops).
    apply IH in H as (Hcall' & Hro' & Hprops').
    split; [congruence|]. split.
    + intros k [->|Hk]%elem_of_cons; auto.
    + intros k. rewrite Hprops', Hprops.
      destruct (decide (k ∈ ks)) as [Hin|Hnin].
      * rewrite !(bool_decide_eq_true_2 (k ∈ ks)) by assumption.
        rewrite bool_decide_eq_true_2 by (right; assumption). reflexivity.
      * rewrite !(bool_decide_eq_false_2 (k ∈ ks)) by assumption.
        case_bool_decide as Hk.
        -- subst k. rewrite bool_decide_eq_true_2 by left. reflexivity.
        -- rewrite bool_decide_eq_false_2; [reflexivity|].
           intros [?|?]%elem_of_cons; contradiction.
Qed.

Lemma forEach_assign_total x ks d0 :
  (forall k, k ∈ ks -> k ∉ function_readonly) ->
  exists d', forEach (fun k d => fobj_assign k (x k) d) ks d0 = Ret d'.
Proof.
  revert d0. induction ks as [|k0 ks IH]; intros d0 Hro; [eexists; reflexivity|].
  rewrite forEach_cons.
  destruct (fobj_assign k0 (x k0) d0) as [d1|e] eqn:E.
  - rewrite bind_Ret_l. apply IH. intros k Hk. apply Hro. right. exact Hk.
  - unfold fobj_assign in E.
    rewrite bool_decide_eq_false_2 in E by (apply Hro; left). discriminate.
Qed.
End attach.

(** ** Building a table by insertion *)

Lemma forEach_insert {V : Type} (build : string -> outcome V) ks
    (m0 m : gmap string V) :
  forEach (fun k acc => d ← build k; Ret (<[k := d]> acc)) ks m0 = Ret m ->
  forall k, if bool_decide (k ∈ ks)
            then exists d, build k = Ret d /\ m !! k = Some d
            else m !! k = m0 !! k.
Proof.
  revert m0. induction ks as [|k0 ks IH]; intros m0 H k.
  - injection H as <-. rewrite bool_decide_eq_false_2 by (inversion 1). reflexivity.
  - rewrite forEach_cons in H. inv_bind H. inv_bind Ha. injection Ha as <-.
    specialize (IH _ H k). destruct (decide (k ∈ ks)) as [Hin|Hnin].
    + rewrite bool_decide_eq_true_2 in IH by assumption.
      rewrite bool_decide_eq_true_2 by (right; assumption). exact IH.
    + rewrite bool_decide_eq_false_2 in IH by assumption.
      destruct (decide (k = k0)) as [->|Hne].
      * rewrite bool_decide_eq_true_2 by left.
        exists a0. split; [assumption|]. rewrite IH. apply lookup_insert_eq.
      * rewrite bool_decide_eq_false_2
          by (intros [?|?]%elem_of_cons; contradiction).
        rewrite IH. apply lookup_insert_ne. congruence.
Qed.

(** ** The constructors *)

Lemma ofsTypes_lookup names variations ofsT n :
  ofsTypes names variations = Ret ofsT ->
  n ∈ names ->
  exists ctor,
    ofsT !! n = Some ctor /\
    (forall args,
        fcall ctor args =
        if (length args <=? 1)%nat
        then opaque (VStr n) (VStr "default") (arg 0 args)
        else opaque (VStr n) (arg 0 args) (arg 1 args)) /\
    (forall v,
        fprops ctor !! v =
        if bool_decide (v ∈ variations)
        then Some (fun args => opaque (VStr n) (VStr v) (arg 0 args))
        else None).
Proof.
  intros H Hn. unfold ofsTypes in H.
  eapply forEach_insert with (k := n) in H.
  rewrite bool_decide_eq_true_2 in H by assumption.
  destruct H as (ctor & Hbuild & Hlook).
  apply forEach_assign in Hbuild as (Hcall & _ & Hprops).
  exists ctor. split; [assumption|]. split.
  - intros args. exact (f_equal (fun f => f args) Hcall).
  - intros v. rewrite Hprops. case_bool_decide; [reflexivity|apply lookup_empty].
Qed.

Lemma ofsVariations_lookup names variations ofsV v :
  ofsVariations names variations = Ret ofsV ->
  v ∈ variations ->
  exists ctor,
    ofsV !! v = Some ctor /\
    (forall args,
        fcall ctor args = opaque (arg 0 args) (VStr v) (arg 1 args)) /\
    (forall n,
        fprops ctor !! n =
        if bool_decide (n ∈ names)
        then Some (fun args => opaque (VStr n) (VStr v) (arg 0 args))
        else None).
Proof.
  intros H Hv. unfold ofsVariations in H.
  eapply forEach_insert with (k := v) in H.
  rewrite bool_decide_eq_true_2 in H by assumption.
  destruct H as (ctor & Hbuild & Hlook).
  apply forEach_assign in Hbuild as (Hcall & _ & Hprops).
  exists ctor. split; [assumption|]. split.
  - intros args. exact (f_equal (fun f => f args) Hcall).
  - intros n. rewrite Hprops. case_bool_decide; [reflexivity|apply lookup_empty].
Qed.

(** What the two attaching loops leave on a global function: variations
    are attached last, so a key that is both a name and a variation
    holds the variation's entry. *)
Lemma attach_both {C P : Type} names variations (byName byVariation : gmap string P)
    (f0 f : fobj C P) :
  (forEach (fun name o => fobj_assign name (byName !! name) o) names f0
     ≫= forEach (fun variation o =>
                   fobj_assign variation (byVariation !! variation) o) variations)
  = Ret f ->
  fcall f = fcall f0 /\
  forall k, fprops f !! k =
            if bool_decide (k ∈ variations) then byVariation !! k
            else if bool_decide (k ∈ names) then byName !! k
            else fprops f0 !! k.
Proof.
  intros H. inv_bind H.
  apply forEach_assign in Ha as (Hcall1 & _ & Hprops1).
  apply forEach_assign in H as (Hcall2 & _ & Hprops2).
  split; [congruence|]. intros k. rewrite Hprops2, Hprops1. reflexivity.
Qed.

Lemma ofAll_spec names variations ofsT ofsV o :
  ofAll names variations ofsT ofsV = Ret o ->
  (forall args, fcall o args = opaque (arg 0 args) (arg 1 args) (arg 2 args)) /\
  forall k, fprops o !! k =
            if bool_decide (k ∈ variations) then ofsV !! k
            else if bool_decide (k ∈ names) then ofsT !! k
            else None.
Proof.
  intros H. apply attach_both in H as (Hcall & Hprops). split.
  - intros args. exact (f_equal (fun f => f args) Hcall).
  - intros k. rewrite Hprops. repeat case_bool_decide; reflexivity.
Qed.

(** ** The constants of a generated closure *)

Lemma constants_Ret names variations g :
  constants names variations = Ret g ->
  ofsTypes names variations = Ret (c_ofsTypes g) /\
  ofsVariations names variations = Ret (c_ofsVariations g) /\
  ofAll names variations (c_ofsTypes g) (c_ofsVariations g) = Ret (c_ofAll g) /\
  isTypes names variations = Ret (c_isTypes g) /\
  isVariations names variations = Ret (c_isVariations g) /\
  isAll names variations (c_isTypes g) (c_isVariations g) = Ret (c_isAll g) /\
  forTypes names variations (c_ofsTypes g) = Ret (c_forTypes g) /\
  forVariations names variations (c_ofsVariations g) = Ret (c_forVariations g).
Proof.
  intros H. unfold constants in H.
  do 8 inv_bind H. injection H as <-. simpl. tauto.
Qed.

Lemma ofVariations_Ret types api :
  ofVariations types = Ret api <->
  exists names variations g,
    normalize types = Ret (names, variations) /\
    constants names variations = Ret g /\
    api = bundle types g.
Proof.
  unfold ofVariations, generate. split.
  - intros H. inv_bind H. destruct a as [names variations].
    inv_bind H. injection H as <-.
    exists names, variations, a. auto.
  - intros (names & variations & g & -> & Hg & ->). simpl.
    rewrite Hg. reflexivity.
Qed.

Ltac by_computation := apply (bool_decide_unpack _); vm_compute; exact I.

Section generated_closure.
Variables (names variations : list string) (g : generated).
Hypothesis Hgen : constants names variations = Ret g.

(** The name-scoped constructor of a name, and where [of] holds it. *)
Lemma name_scoped_constructor n :
  n ∈ names ->
  exists ctor,
    c_ofsTypes g !! n = Some ctor /\
    (n ∉ variations -> fprops (c_ofAll g) !! n = Some ctor) /\
    (forall args,
        fcall ctor args =
        if (length args <=? 1)%nat
        then opaque (VStr n) (VStr "default") (arg 0 args)
        else opaque (VStr n) (arg 0 args) (arg 1 args)) /\
    (forall v, v ∈ variations ->
        fprops ctor !! v =
        Some (fun args => opaque (VStr n) (VStr v) (arg 0 args))).
Proof.
  intros Hn. destruct (constants_Ret _ _ _ Hgen) as (HT & _ & Hof & _).
  destruct (ofsTypes_lookup _ _ _ n HT Hn) as (ctor & Hlook & Hcall & Hprops).
  apply ofAll_spec in Hof as (_ & Hof).
  exists ctor. split; [assumption|]. split; [|split; [assumption|]].
  - intros Hnv. rewrite Hof.
    rewrite bool_decide_eq_false_2, bool_decide_eq_true_2 by assumption.
    assumption.
  - intros v Hv. rewrite Hprops, bool_decide_eq_true_2 by assumption.
    reflexivity.
Qed.

(** The variation-scoped constructor of a variation; [of] always holds
    it under the variation's key. *)
Lemma variation_scoped_constructor v :
  v ∈ variations ->
  exists ctor,
    c_ofsVariations g !! v = Some ctor /\
    fprops (c_ofAll g) !! v = Some ctor /\
    (forall args,
        fcall ctor args = opaque (arg 0 args) (VStr v) (arg 1 args)) /\
    (forall n, n ∈ names ->
        fprops ctor !! n =
        Some (fun args => opaque (VStr n) (VStr v) (arg 0 args))).
Proof.
  intros Hv. destruct (constants_Ret _ _ _ Hgen) as (_ & HV & Hof & _).
  destruct (ofsVariations_lookup _ _ _ v HV Hv) as (ctor & Hlook & Hcall & Hprops).
  apply ofAll_spec in Hof as (_ & Hof).
  exists ctor. split; [assumption|]. split; [|split; [assumption|]].
  - rewrite Hof, bool_decide_eq_true_2 by assumption. assumption.
  - intros n Hn. rewrite Hprops, bool_decide_eq_true_2 by assumption.
    reflexivity.
Qed.

Lemma of_call args :
  fcall (c_ofAll g) args = opaque (arg 0 args) (arg 1 args) (arg 2 args).
Proof.
  destruct (constants_Ret _ _ _ Hgen) as (_ & _ & Hof & _).
  apply ofAll_spec in Hof as (Hcall & _). apply Hcall.
Qed.
End generated_closure.

(** C3 (amended): for a Name [n] that is not also a Variation key, a
    Variation [v] and a payload [p], the five access paths [of(n, v, p)],
    [of[n](v, p)], [of[n][v](p)], [of[v](n, p)] and [of[v][n](p)] all
    exist and build the same entity. *)
Theorem of_access_paths_agree names variations g n v p :
  constants names variations = Ret g ->
  n ∈ names -> v ∈ variations -> n ∉ variations ->
  exists byName byNameVariation byVariation byVariationName,
    fprops (c_ofAll g) !! n = Some byName /\
    fprops byName !! v = Some byNameVariation /\
    fprops (c_ofAll g) !! v = Some byVariation /\
    fprops byVariation !! n = Some byVariationName /\
    fcall byName [VStr v; p] = fcall (c_ofAll g) [VStr n; VStr v; p] /\
    byNameVariation [p] = fcall (c_ofAll g) [VStr n; VStr v; p] /\
    fcall byVariation [VStr n; p] = fcall (c_ofAll g) [VStr n; VStr v; p] /\
    byVariationName [p] = fcall (c_ofAll g) [VStr n; VStr v; p].
Proof.
  intros Hgen Hn Hv Hnv.
  destruct (name_scoped_constructor _ _ _ Hgen n Hn)
    as (byName & _ & HofN & HcallN & HpropsN).
  destruct (variation_scoped_constructor _ _ _ Hgen v Hv)
    as (byVariation & _ & HofV & HcallV & HpropsV).
  exists byName, (fun args => opaque (VStr n) (VStr v) (arg 0 args)),
    byVariation, (fun args => opaque (VStr n) (VStr v) (arg 0 args)).
  rewrite (of_call _ _ _ Hgen), HcallN, HcallV. simpl.
  repeat split; auto.
Qed.


(** ** Generation returns

    The loops of [ofVariations] can only throw when a key cannot be
    assigned on a function. *)

Lemma forEach_total {K S : Type} (f : K -> S -> outcome S) (l : list K) (s : S) :
  (forall k s0, k ∈ l -> exists s', f k s0 = Ret s') ->
  exists s', forEach f l s = Ret s'.
Proof.
  revert s. induction l as [|k l IH]; intros s Hf; [eexists; reflexivity|].
  rewrite forEach_cons. destruct (Hf k s) as [s1 ->]; [left|].
  rewrite bind_Ret_l. apply IH. intros k' s0 Hk'. apply Hf. right. exact Hk'.
Qed.

Lemma scoped_table_total {C : Type} (call : string -> C)
    (leaf : string -> string -> C) outer inner :
  assignable inner ->
  exists m : gmap string (fobj C C),
    forEach (fun k acc =>
        d ← forEach (fun k' d => fobj_assign k' (Some (leaf k k')) d) inner
              (FObj (call k) ∅);
        Ret (<[k := d]> acc)) outer ∅ = Ret m.
Proof.
  intros Hin. apply forEach_total. intros k acc _.
  destruct (forEach_assign_total (fun k' => Some (leaf k k')) inner
              (FObj (call k) ∅) Hin) as [d ->].
  eexists. reflexivity.
Qed.

Lemma ofsTypes_total names variations :
  assignable variations -> exists m, ofsTypes names variations = Ret m.
Proof.
  intros H. unfold ofsTypes.
  exact (scoped_table_total
           (fun name args =>
              if (length args <=? 1)%nat
              then opaque (VStr name) (VStr "default") (arg 0 args)
              else opaque (VStr name) (arg 0 args) (arg 1 args))
           (fun name variation args =>
              opaque (VStr name) (VStr variation) (arg 0 args))
           names variations H).
Qed.

Lemma ofsVariations_total names variations :
  assignable names -> exists m, ofsVariations names variations = Ret m.
Proof.
  intros H. unfold ofsVariations.
  exact (scoped_table_total
           (fun variation args => opaque (arg 0 args) (VStr variation) (arg 1 args))
           (fun variation name args =>
              opaque (VStr name) (VStr variation) (arg 0 args))
           variations names H).
Qed.

Lemma isTypes_total names variations :
  assignable variations -> exists m, isTypes names variations = Ret m.
Proof.
  intros H. unfold isTypes.
  exact (scoped_table_total (is_name variations)
           (fun name variation => is_name_variation name variation)
           names variations H).
Qed.

Lemma isVariations_total names variations :
  assignable names -> exists m, isVariations names variations = Ret m.
Proof.
  intros H. unfold isVariations.
  exact (scoped_table_total (is_variation names)
           (fun variation name => is_name_variation name variation)
           variations names H).
Qed.

Lemma attach_both_total {C P : Type} names variations
    (byName byVariation : gmap string P) (f0 : fobj C P) :
  assignable names -> assignable variations ->
  exists f,
    (forEach (fun name o => fobj_assign name (byName !! name) o) names f0
       ≫= forEach (fun variation o =>
                     fobj_assign variation (byVariation !! variation) o) variations)
    = Ret f.
Proof.
  intros Hn Hv.
  destruct (forEach_assign_total (fun k => byName !! k) names f0 Hn) as [f1 ->].
  rewrite bind_Ret_l.
  exact (forEach_assign_total (fun k => byVariation !! k) variations f1 Hv).
Qed.

Lemma forTypes_total names variations (ofsT : gmap string constructor) :
  (forall n, n ∈ names -> is_Some (ofsT !! n)) ->
  exists m, forTypes names variations ofsT = Ret m.
Proof.
  intros Hlook. unfold forTypes. apply forEach_total. intros n acc Hn.
  cbv beta zeta. destruct (Hlook n Hn) as [ctor Hc].
  unfold constructor, jsfun in *. rewrite Hc, bind_Ret_l.
  apply forEach_total. intros v acc' _. eexists. reflexivity.
Qed.

Lemma forVariations_total names variations (ofsV : gmap string constructor) :
  (forall v, v ∈ variations -> is_Some (ofsV !! v)) ->
  exists m, forVariations names variations ofsV = Ret m.
Proof.
  intros Hlook. unfold forVariations. apply forEach_total. intros v acc Hv.
  apply forEach_total. intros n acc' _.
  cbv beta zeta. destruct (Hlook v Hv) as [ctor Hc].
  unfold constructor, jsfun in *. rewrite Hc. eexists. reflexivity.
Qed.

Lemma ofAll_total names variations ofsT ofsV :
  assignable names -> assignable variations ->
  exists o, ofAll names variations ofsT ofsV = Ret o.
Proof. intros Hn Hv. exact (attach_both_total _ _ ofsT ofsV _ Hn Hv). Qed.

Lemma isAll_total names variations isT isV :
  assignable names -> assignable variations ->
  exists i, isAll names variations isT isV = Ret i.
Proof. intros Hn Hv. exact (attach_both_total _ _ isT isV _ Hn Hv). Qed.

(** Generation returns as soon as no name and no variation is one of the
    four keys a function refuses. *)
Lemma constants_total names variations :
  assignable names -> assignable variations ->
  exists g, constants names variations = Ret g.
Proof.
  intros Hn Hv. unfold constants.
  destruct (ofsTypes_total names variations Hv) as [ofsT HT]. rewrite HT, bind_Ret_l.
  destruct (ofsVariations_total names variations Hn) as [ofsV HV].
  rewrite HV, bind_Ret_l.
  destruct (ofAll_total names variations ofsT ofsV Hn Hv) as [o Ho].
  rewrite Ho, bind_Ret_l.
  destruct (isTypes_total names variations Hv) as [isT HiT]. rewrite HiT, bind_Ret_l.
  destruct (isVariations_total names variations Hn) as [isV HiV].
  rewrite HiV, bind_Ret_l.
  destruct (isAll_total names variations isT isV Hn Hv) as [i Hi].
  rewrite Hi, bind_Ret_l.
  destruct (forTypes_total names variations ofsT) as [forT HfT].
  { intros n Hin. destruct (ofsTypes_lookup _ _ _ n HT Hin) as (c & Hc & _).
    exists c. exact Hc. }
  rewrite HfT, bind_Ret_l.
  destruct (forVariations_total names variations ofsV) as [forV HfV].
  { intros v Hin. destruct (ofsVariations_lookup _ _ _ v HV Hin) as (c & Hc & _).
    exists c. exact Hc. }
  rewrite HfV, bind_Ret_l. eexists. reflexivity.
Qed.

(** Conversely a generated closure has only assignable keys: every name
    and every variation is attached to [of]. *)
Lemma constants_assignable names variations g :
  constants names variations = Ret g ->
  assignable names /\ assignable variations.
Proof.
  intros H. destruct (constants_Ret _ _ _ H) as (_ & _ & Hof & _).
  unfold ofAll in Hof. inv_bind Hof.
  apply forEach_assign in Ha as (_ & Hn & _).
  apply forEach_assign in Hof as (_ & Hv & _).
  split; assumption.
Qed.

Lemma normalize_cons n0 t0 rest :
  normalize ((n0, t0) :: rest) = Ret (n0 :: object_keys rest, object_keys t0).
Proof.
  unfold normalize, first_table. simpl.
  rewrite bool_decide_eq_true_2 by reflexivity. reflexivity.
Qed.

Lemma normalize_nil : normalize [] = Throw TypeError.
Proof. reflexivity. Qed.

(** [ofVariations] returns on every non-empty schema whose keys are
    assignable. *)
Lemma ofVariations_total n0 t0 rest :
  assignable (n0 :: object_keys rest) -> assignable (object_keys t0) ->
  exists api, ofVariations ((n0, t0) :: rest) = Ret api.
Proof.
  intros Hn Hv. destruct (constants_total _ _ Hn Hv) as [g Hg].
  exists (bundle ((n0, t0) :: rest) g). apply ofVariations_Ret.
  exists (n0 :: object_keys rest), (object_keys t0), g.
  split; [apply normalize_cons|]. split; [assumption|reflexivity].
Qed.

(** ** Entities *)

Lemma lookup_opaque_marker n v p :
  (<["__OPAQUE__" := VStr "__OPAQUE__"]>
     (<["__OPAQUE_KEY__" := n]>
        (<["__OPAQUE_VARIATION__" := v]> (<["value" := p]> ∅))) : gmap string value)
    !! "__OPAQUE__" = Some (VStr "__OPAQUE__").
Proof. apply lookup_insert_eq. Qed.

Lemma lookup_opaque_key n v p :
  (<["__OPAQUE__" := VStr "__OPAQUE__"]>
     (<["__OPAQUE_KEY__" := n]>
        (<["__OPAQUE_VARIATION__" := v]> (<["value" := p]> ∅))) : gmap string value)
    !! "__OPAQUE_KEY__" = Some n.
Proof. rewrite lookup_insert_ne by discriminate. apply lookup_insert_eq. Qed.

Lemma lookup_opaque_variation n v p :
  (<["__OPAQUE__" := VStr "__OPAQUE__"]>
     (<["__OPAQUE_KEY__" := n]>
        (<["__OPAQUE_VARIATION__" := v]> (<["value" := p]> ∅))) : gmap string value)
    !! "__OPAQUE_VARIATION__" = Some v.
Proof. rewrite !lookup_insert_ne by discriminate. apply lookup_insert_eq. Qed.

Lemma lookup_opaque_value n v p :
  (<["__OPAQUE__" := VStr "__OPAQUE__"]>
     (<["__OPAQUE_KEY__" := n]>
        (<["__OPAQUE_VARIATION__" := v]> (<["value" := p]> ∅))) : gmap string value)
    !! "value" = Some p.
Proof. rewrite !lookup_insert_ne by discriminate. apply lookup_insert_eq. Qed.

Lemma get_prop_opaque_key n v p : get_prop (opaque n v p) "__OPAQUE_KEY__" = Ret n.
Proof. unfold get_prop, opaque. rewrite lookup_opaque_key. reflexivity. Qed.

Lemma get_prop_opaque_variation n v p :
  get_prop (opaque n v p) "__OPAQUE_VARIATION__" = Ret v.
Proof. unfold get_prop, opaque. rewrite lookup_opaque_variation. reflexivity. Qed.

Lemma get_prop_opaque_value n v p : get_prop (opaque n v p) "value" = Ret p.
Proof. unfold get_prop, opaque. rewrite lookup_opaque_value. reflexivity. Qed.

Lemma opaque_inj n v p n' v' p' :
  opaque n v p = opaque n' v' p' -> n = n' /\ v = v' /\ p = p'.
Proof.
  intros H. split; [|split].
  - apply (f_equal (fun e => get_prop e "__OPAQUE_KEY__")) in H.
    rewrite !get_prop_opaque_key in H. congruence.
  - apply (f_equal (fun e => get_prop e "__OPAQUE_VARIATION__")) in H.
    rewrite !get_prop_opaque_variation in H. congruence.
  - apply (f_equal (fun e => get_prop e "value")) in H.
    rewrite !get_prop_opaque_value in H. congruence.
Qed.

Lemma opaque_shaped_opaque n v p : opaque_shaped (opaque n v p) = Ret true.
Proof.
  unfold opaque_shaped, opaque, has_prop, get_prop, typeof.
  rewrite bool_decide_eq_true_2 by reflexivity. cbn [negb].
  rewrite lookup_opaque_marker, lookup_opaque_key, lookup_opaque_variation.
  rewrite !bool_decide_eq_true_2 by (eexists; reflexivity).
  rewrite bind_Ret_l. cbn [negb].
  rewrite bind_Ret_l. reflexivity.
Qed.

Lemma closure_cons n0 t0 rest :
  closure ((n0, t0) :: rest) = constants (n0 :: object_keys rest) (object_keys t0).
Proof. unfold closure. rewrite normalize_cons. reflexivity. Qed.

Lemma ofVariations_closure types :
  ofVariations types = (g ← closure types; Ret (bundle types g)).
Proof.
  unfold ofVariations, closure, generate.
  destruct (normalize types) as [[names variations]|e]; reflexivity.
Qed.

(** ** Evaluating the guards on entities *)

Lemma is_name_opaque variations name n v p :
  is_name variations name (opaque (VStr n) (VStr v) p)
  = Ret (bool_decide (n = name) && bool_decide (v ∈ variations)).
Proof.
  unfold is_name. rewrite opaque_shaped_opaque, bind_Ret_l. cbn [negb].
  rewrite get_prop_opaque_key, bind_Ret_l. unfold strict_eq_str.
  destruct (bool_decide (n = name)); cbn [negb andb]; [|reflexivity].
  rewrite get_prop_opaque_variation, bind_Ret_l. unfold includes.
  destruct (bool_decide (v ∈ variations)); reflexivity.
Qed.

Lemma is_name_variation_opaque name variation n v p :
  is_name_variation name variation (opaque (VStr n) (VStr v) p)
  = Ret (bool_decide (n = name) && bool_decide (v = variation)).
Proof.
  unfold is_name_variation. rewrite opaque_shaped_opaque, bind_Ret_l. cbn [negb].
  rewrite get_prop_opaque_key, bind_Ret_l. unfold strict_eq_str.
  destruct (bool_decide (n = name)); cbn [negb andb]; [|reflexivity].
  rewrite get_prop_opaque_variation, bind_Ret_l.
  destruct (bool_decide (v = variation)); reflexivity.
Qed.

Lemma is_variation_opaque names variation n v p :
  is_variation names variation (opaque (VStr n) (VStr v) p)
  = Ret (bool_decide (v = variation) && bool_decide (n ∈ names)).
Proof.
  unfold is_variation. rewrite opaque_shaped_opaque, bind_Ret_l. cbn [negb].
  rewrite get_prop_opaque_variation, bind_Ret_l. unfold strict_eq_str.
  destruct (bool_decide (v = variation)); cbn [negb andb]; [|reflexivity].
  rewrite get_prop_opaque_key, bind_Ret_l. unfold includes.
  destruct (bool_decide (n ∈ names)); reflexivity.
Qed.

Lemma is_any_opaque names variations n v p :
  is_any names variations (opaque (VStr n) (VStr v) p)
  = Ret (bool_decide (n ∈ names) && bool_decide (v ∈ variations)).
Proof.
  unfold is_any. rewrite opaque_shaped_opaque, bind_Ret_l. cbn [negb].
  rewrite get_prop_opaque_key, bind_Ret_l. unfold includes.
  destruct (bool_decide (n ∈ names)); cbn [negb andb]; [|reflexivity].
  rewrite get_prop_opaque_variation, bind_Ret_l.
  destruct (bool_decide (v ∈ variations)); reflexivity.
Qed.

Lemma isTypes_lookup names variations isT n :
  isTypes names variations = Ret isT ->
  n ∈ names ->
  exists chk,
    isT !! n = Some chk /\
    (forall thing, fcall chk thing = is_name variations n thing) /\
    (forall v, fprops chk !! v =
               if bool_decide (v ∈ variations)
               then Some (is_name_variation n v) else None).
Proof.
  intros H Hn. unfold isTypes in H.
  eapply forEach_insert with (k := n) in H.
  rewrite bool_decide_eq_true_2 in H by assumption.
  destruct H as (chk & Hbuild & Hlook).
  apply forEach_assign in Hbuild as (Hcall & _ & Hprops).
  exists chk. split; [assumption|]. split.
  - intros thing. exact (f_equal (fun f => f thing) Hcall).
  - intros v. rewrite Hprops. case_bool_decide; [reflexivity|apply lookup_empty].
Qed.

Lemma isVariations_lookup names variations isV v :
  isVariations names variations = Ret isV ->
  v ∈ variations ->
  exists chk,
    isV !! v = Some chk /\
    (forall thing, fcall chk thing = is_variation names v thing) /\
    (forall n, fprops chk !! n =
               if bool_decide (n ∈ names)
               then Some (is_name_variation n v) else None).
Proof.
  intros H Hv. unfold isVariations in H.
  eapply forEach_insert with (k := v) in H.
  rewrite bool_decide_eq_true_2 in H by assumption.
  destruct H as (chk & Hbuild & Hlook).
  apply forEach_assign in Hbuild as (Hcall & _ & Hprops).
  exists chk. split; [assumption|]. split.
  - intros thing. exact (f_equal (fun f => f thing) Hcall).
  - intros n. rewrite Hprops. case_bool_decide; [reflexivity|apply lookup_empty].
Qed.

Lemma isAll_spec names variations isT isV i :
  isAll names variations isT isV = Ret i ->
  (forall thing, fcall i thing = is_any names variations thing) /\
  forall k, fprops i !! k =
            if bool_decide (k ∈ variations) then isV !! k
            else if bool_decide (k ∈ names) then isT !! k
            else None.
Proof.
  intros H. apply attach_both in H as (Hcall & Hprops). split.
  - intros thing. exact (f_equal (fun f => f thing) Hcall).
  - intros k. rewrite Hprops. repeat case_bool_decide; reflexivity.
Qed.

(** ** The global guard on arbitrary values *)

Lemma is_any_null names variations : is_any names variations VNull = Throw TypeError.
Proof. reflexivity. Qed.

Lemma returns_Ret {A : Type} (a : A) : returns (Ret a).
Proof. exists a. reflexivity. Qed.

Lemma returns_bind {A B : Type} (c : outcome A) (k : A -> outcome B) :
  returns c -> (forall a, returns (k a)) -> returns (c ≫= k).
Proof. intros [a ->] Hk. rewrite bind_Ret_l. apply Hk. Qed.

Lemma returns_if {A : Type} (b : bool) (x y : outcome A) :
  returns x -> returns y -> returns (if b then x else y).
Proof. destruct b; auto. Qed.

Lemma has_prop_returns k thing :
  typeof thing = "object" -> thing <> VNull -> returns (has_prop k thing).
Proof.
  destruct thing; try discriminate; intros _ Hnull;
    [contradiction|apply returns_Ret..].
Qed.

Lemma get_prop_returns thing k :
  typeof thing = "object" -> thing <> VNull -> returns (get_prop thing k).
Proof.
  destruct thing; try discriminate; intros _ Hnull; [contradiction| |].
  - unfold get_prop. apply returns_if; apply returns_Ret.
  - apply returns_Ret.
Qed.

Ltac returns_steps Hobj Hnull :=
  repeat first
    [ apply returns_Ret
    | apply (has_prop_returns _ _ Hobj Hnull)
    | apply (get_prop_returns _ _ Hobj Hnull)
    | apply returns_if
    | apply returns_bind; [|intros ?] ].

Lemma opaque_shaped_returns thing :
  thing <> VNull -> returns (opaque_shaped thing).
Proof.
  intros Hnull. unfold opaque_shaped. case_bool_decide as Hobj; cbn [negb].
  - returns_steps Hobj Hnull.
  - apply returns_Ret.
Qed.

Lemma opaque_shaped_object thing :
  opaque_shaped thing = Ret true -> typeof thing = "object".
Proof.
  unfold opaque_shaped. case_bool_decide as Hobj; cbn [negb];
    [intros _; exact Hobj | discriminate].
Qed.

Lemma is_any_returns names variations thing :
  thing <> VNull -> returns (is_any names variations thing).
Proof.
  intros Hnull. unfold is_any.
  destruct (opaque_shaped_returns thing Hnull) as [ok Hok]. rewrite Hok, bind_Ret_l.
  destruct ok; cbn [negb]; [|apply returns_Ret].
  apply opaque_shaped_object in Hok. returns_steps Hok Hnull.
Qed.

(** ** Constructors and guards of a generated closure *)

Section generated_guards.
Variables (names variations : list string) (g : generated).
Hypothesis Hgen : constants names variations = Ret g.

Lemma is_call thing : fcall (c_isAll g) thing = is_any names variations thing.
Proof.
  destruct (constants_Ret _ _ _ Hgen) as (_ & _ & _ & _ & _ & His & _).
  apply isAll_spec in His as (Hcall & _). apply Hcall.
Qed.

(** The guard scoped to a name, and where [is] holds it. *)
Lemma name_scoped_guard n :
  n ∈ names ->
  exists chk,
    c_isTypes g !! n = Some chk /\
    (n ∉ variations -> fprops (c_isAll g) !! n = Some chk) /\
    (forall thing, fcall chk thing = is_name variations n thing) /\
    (forall v, v ∈ variations ->
        fprops chk !! v = Some (is_name_variation n v)).
Proof.
  intros Hn.
  destruct (constants_Ret _ _ _ Hgen) as (_ & _ & _ & HT & _ & His & _).
  destruct (isTypes_lookup _ _ _ n HT Hn) as (chk & Hlook & Hcall & Hprops).
  apply isAll_spec in His as (_ & His).
  exists chk. split; [assumption|]. split; [|split; [assumption|]].
  - intros Hnv. rewrite His.
    rewrite bool_decide_eq_false_2, bool_decide_eq_true_2 by assumption.
    assumption.
  - intros v Hv. rewrite Hprops, bool_decide_eq_true_2 by assumption.
    reflexivity.
Qed.

(** The guard scoped to a variation; [is] always holds it under the
    variation's key. *)
Lemma variation_scoped_guard v :
  v ∈ variations ->
  exists chk,
    c_isVariations g !! v = Some chk /\
    fprops (c_isAll g) !! v = Some chk /\
    (forall thing, fcall chk thing = is_variation names v thing) /\
    (forall n, n ∈ names ->
        fprops chk !! n = Some (is_name_variation n v)).
Proof.
  intros Hv.
  destruct (constants_Ret _ _ _ Hgen) as (_ & _ & _ & _ & HV & His & _).
  destruct (isVariations_lookup _ _ _ v HV Hv) as (chk & Hlook & Hcall & Hprops).
  apply isAll_spec in His as (_ & His).
  exists chk. split; [assumption|]. split; [|split; [assumption|]].
  - rewrite His, bool_decide_eq_true_2 by assumption. assumption.
  - intros n Hn. rewrite Hprops, bool_decide_eq_true_2 by assumption.
    reflexivity.
Qed.

(** On every other value the global guard returns a boolean. *)
Lemma is_returns_off_null thing :
  thing <> VNull -> returns (fcall (c_isAll g) thing).
Proof. intros Hnull. rewrite is_call. apply is_any_returns, Hnull. Qed.
End generated_guards.

(** C1, the failing input: on [null] the global guard [is] throws a
    [TypeError] instead of returning [false], because [typeof null] is
    ['object'] and the [in] operator then rejects [null]. *)
Theorem is_throws_on_null names variations g :
  constants names variations = Ret g ->
  fcall (c_isAll g) VNull = Throw TypeError.
Proof. intros Hgen. rewrite (is_call _ _ _ Hgen). apply is_any_null. Qed.

(** C4 (amended): in a schema where no Name is also a Variation key, for
    the entity [e = of(n, v, p)] of a Name [n] and a Variation [v], the
    guards [is(e)], [is[n](e)], [is[v](e)] and [is[n][v](e)] all return
    [true], and [is[n2](e)] returns [false] for every other Name [n2]. *)
Theorem guards_sound_and_complete names variations g n v p :
  constants names variations = Ret g ->
  n ∈ names -> v ∈ variations ->
  (forall x, x ∈ names -> x ∉ variations) ->
  let e := fcall (c_ofAll g) [VStr n; VStr v; p] in
  fcall (c_isAll g) e = Ret true /\
  (exists isName isVariation isNameVariation,
      fprops (c_isAll g) !! n = Some isName /\
      fcall isName e = Ret true /\
      fprops (c_isAll g) !! v = Some isVariation /\
      fcall isVariation e = Ret true /\
      fprops isName !! v = Some isNameVariation /\
      isNameVariation e = Ret true) /\
  (forall n2, n2 ∈ names -> n2 <> n ->
      exists isOther,
        fprops (c_isAll g) !! n2 = Some isOther /\
        fcall isOther e = Ret false).
Proof.
  intros Hgen Hn Hv Hdisj e. unfold e. rewrite (of_call _ _ _ Hgen). cbn [arg nth].
  split; [|split].
  - rewrite (is_call _ _ _ Hgen), is_any_opaque.
    rewrite !bool_decide_eq_true_2 by assumption. reflexivity.
  - destruct (name_scoped_guard _ _ _ Hgen n Hn) as (isName & _ & HisN & HcallN & HpropsN).
    destruct (variation_scoped_guard _ _ _ Hgen v Hv) as (isVar & _ & HisV & HcallV & _).
    exists isName, isVar, (is_name_variation n v).
    rewrite HcallN, HcallV, is_name_opaque, is_variation_opaque,
      is_name_variation_opaque.
    rewrite !bool_decide_eq_true_2 by (assumption || reflexivity).
    repeat split; auto.
  - intros n2 Hn2 Hne.
    destruct (name_scoped_guard _ _ _ Hgen n2 Hn2) as (isOther & _ & His & Hcall & _).
    exists isOther. split; [auto|].
    rewrite Hcall, is_name_opaque.
    rewrite (bool_decide_eq_false_2 (n = n2)) by congruence. reflexivity.
Qed.

(** C6 (amended): for a Name [n] that is not also a Variation key, the
    name-scoped constructor [of[n]] is overloaded by arity: called with
    exactly one argument it takes it as the payload and tags the entity
    with the literal variation ['default']; called with two arguments it
    takes the first as the variation and the second as the payload. *)
Theorem name_scoped_constructor_arity names variations g n :
  constants names variations = Ret g ->
  n ∈ names -> n ∉ variations ->
  exists ctor,
    fprops (c_ofAll g) !! n = Some ctor /\
    (forall p,
        fcall ctor [p]
        = VObj (<["__OPAQUE__" := VStr "__OPAQUE__"]>
               (<["__OPAQUE_KEY__" := VStr n]>
               (<["__OPAQUE_VARIATION__" := VStr "default"]>
               (<["value" := p]> ∅))))) /\
    (forall v p,
        fcall ctor [v; p]
        = VObj (<["__OPAQUE__" := VStr "__OPAQUE__"]>
               (<["__OPAQUE_KEY__" := VStr n]>
               (<["__OPAQUE_VARIATION__" := v]>
               (<["value" := p]> ∅))))).
Proof.
  intros Hgen Hn Hnv.
  destruct (name_scoped_constructor _ _ _ Hgen n Hn)
    as (ctor & _ & Hof & Hcall & _).
  exists ctor. split; [exact (Hof Hnv)|]. split.
  - intros p. rewrite Hcall. reflexivity.
  - intros v p. rewrite Hcall. reflexivity.
Qed.

(** C10 (amended): when ['default'] is not a Variation of the schema, for
    a Name [n] that is not also a Variation key, the name-scoped
    constructor [of[n]] called with the single argument [p] still returns
    an entity whose variation tag is ['default'], and the global guard
    [is] returns [false] on that entity. *)
Theorem default_applied_unconditionally names variations g n p :
  constants names variations = Ret g ->
  "default" ∉ variations ->
  n ∈ names -> n ∉ variations ->
  exists ctor,
    fprops (c_ofAll g) !! n = Some ctor /\
    get_prop (fcall ctor [p]) "__OPAQUE_VARIATION__" = Ret (VStr "default") /\
    fcall (c_isAll g) (fcall ctor [p]) = Ret false.
Proof.
  intros Hgen Hdefault Hn Hnv.
  destruct (name_scoped_constructor _ _ _ Hgen n Hn)
    as (ctor & _ & Hof & Hcall & _).
  exists ctor. split; [exact (Hof Hnv)|].
  rewrite Hcall. cbn [length Nat.leb arg nth]. split.
  - apply get_prop_opaque_variation.
  - rewrite (is_call _ _ _ Hgen), is_any_opaque.
    rewrite (bool_decide_eq_false_2 ("default" ∈ variations)) by assumption.
    apply f_equal, andb_false_r.
Qed.

(** ** Concrete schemas *)

(** C3, a schema on which the claim as stated fails: with the schema
    [{A: {A, B}}] the key [A] of [of] holds the constructor scoped to the
    variation [A], so [of.A('B', 1)] is tagged with name [B] and variation
    [A] while [of('A', 'B', 1)] is tagged with name [A] and variation [B]. *)
Lemma of_access_paths_collide :
  exists g byName,
    closure [("A", [("A", VUndefined); ("B", VUndefined)])] = Ret g /\
    fprops (c_ofAll g) !! "A" = Some byName /\
    fcall byName [VStr "B"; VNum 1] = opaque (VStr "B") (VStr "A") (VNum 1) /\
    fcall (c_ofAll g) [VStr "A"; VStr "B"; VNum 1]
      = opaque (VStr "A") (VStr "B") (VNum 1) /\
    fcall byName [VStr "B"; VNum 1] <> fcall (c_ofAll g) [VStr "A"; VStr "B"; VNum 1].
Proof.
  destruct (constants_total ["A"] ["A"; "B"]) as [g E]; [by_computation..|].
  destruct (variation_scoped_constructor _ _ g E "A")
    as (byName & _ & Hof & Hcall & _); [by_computation|].
  exists g, byName. split; [rewrite closure_cons; exact E|].
  split; [exact Hof|]. rewrite Hcall, (of_call _ _ g E). cbn [arg nth].
  split; [reflexivity|]. split; [reflexivity|].
  intros H. apply opaque_inj in H as (H & _). discriminate.
Qed.

Lemma of_access_paths_agree_witness :
  exists g,
    closure [("One", [("var1", VUndefined); ("var2", VUndefined)]);
             ("Two", [("var1", VUndefined); ("var2", VUndefined)])] = Ret g /\
    exists byName byNameVariation byVariation byVariationName,
      fprops (c_ofAll g) !! "One" = Some byName /\
      fprops byName !! "var2" = Some byNameVariation /\
      fprops (c_ofAll g) !! "var2" = Some byVariation /\
      fprops byVariation !! "One" = Some byVariationName /\
      fcall byName [VStr "var2"; VNum 7]
        = fcall (c_ofAll g) [VStr "One"; VStr "var2"; VNum 7] /\
      byNameVariation [VNum 7]
        = fcall (c_ofAll g) [VStr "One"; VStr "var2"; VNum 7] /\
      fcall byVariation [VStr "One"; VNum 7]
        = fcall (c_ofAll g) [VStr "One"; VStr "var2"; VNum 7] /\
      byVariationName [VNum 7]
        = fcall (c_ofAll g) [VStr "One"; VStr "var2"; VNum 7].
Proof.
  destruct (constants_total ["One"; "Two"] ["var1"; "var2"]) as [g E];
    [by_computation..|].
  exists g. split; [rewrite closure_cons; exact E|].
  apply (of_access_paths_agree _ _ g "One" "var2" (VNum 7) E); by_computation.
Defined.

Lemma is_throws_on_null_witness :
  exists g,
    closure [("One", [("default", VUndefined)])] = Ret g /\
    fcall (c_isAll g) VNull = Throw TypeError.
Proof.
  destruct (constants_total ["One"] ["default"]) as [g E]; [by_computation..|].
  exists g. split; [rewrite closure_cons; exact E|].
  exact (is_throws_on_null _ _ g E).
Defined.

(** C4, a schema on which the claim as stated fails: with the schema
    [{A: {A, B}}] the key [A] of [is] holds the guard scoped to the
    variation [A], so [is.A] rejects the entity [of('A', 'B', 1)] of name
    [A]. *)
Lemma guards_collide :
  exists g isName,
    closure [("A", [("A", VUndefined); ("B", VUndefined)])] = Ret g /\
    fprops (c_isAll g) !! "A" = Some isName /\
    fcall isName (fcall (c_ofAll g) [VStr "A"; VStr "B"; VNum 1]) = Ret false.
Proof.
  destruct (constants_total ["A"] ["A"; "B"]) as [g E]; [by_computation..|].
  destruct (variation_scoped_guard _ _ g E "A")
    as (isName & _ & His & Hcall & _); [by_computation|].
  exists g, isName. split; [rewrite closure_cons; exact E|].
  split; [exact His|]. rewrite Hcall, (of_call _ _ g E). cbn [arg nth].
  rewrite is_variation_opaque. reflexivity.
Qed.

Lemma guards_sound_and_complete_witness :
  exists g,
    closure [("One", [("var1", VUndefined); ("var2", VUndefined)]);
             ("Two", [("var1", VUndefined); ("var2", VUndefined)])] = Ret g /\
    let e := fcall (c_ofAll g) [VStr "One"; VStr "var2"; VNum 7] in
    fcall (c_isAll g) e = Ret true /\
    (exists isName isVariation isNameVariation,
        fprops (c_isAll g) !! "One" = Some isName /\
        fcall isName e = Ret true /\
        fprops (c_isAll g) !! "var2" = Some isVariation /\
        fcall isVariation e = Ret true /\
        fprops isName !! "var2" = Some isNameVariation /\
        isNameVariation e = Ret true) /\
    (forall n2, n2 ∈ ["One"; "Two"] -> n2 <> "One" ->
        exists isOther,
          fprops (c_isAll g) !! n2 = Some isOther /\
          fcall isOther e = Ret false).
Proof.
  destruct (constants_total ["One"; "Two"] ["var1"; "var2"]) as [g E];
    [by_computation..|].
  exists g. split; [rewrite closure_cons; exact E|].
  apply (guards_sound_and_complete _ _ g "One" "var2" (VNum 7) E);
    [by_computation | by_computation |].
  apply (proj1 (Forall_forall _ _)). by_computation.
Defined.

Lemma name_scoped_constructor_arity_witness :
  exists g,
    closure [("One", [("default", VUndefined)]);
             ("Two", [("default", VUndefined)])] = Ret g /\
    exists ctor,
      fprops (c_ofAll g) !! "One" = Some ctor /\
      (forall p,
          fcall ctor [p]
          = VObj (<["__OPAQUE__" := VStr "__OPAQUE__"]>
                 (<["__OPAQUE_KEY__" := VStr "One"]>
                 (<["__OPAQUE_VARIATION__" := VStr "default"]>
                 (<["value" := p]> ∅))))) /\
      (forall v p,
          fcall ctor [v; p]
          = VObj (<["__OPAQUE__" := VStr "__OPAQUE__"]>
                 (<["__OPAQUE_KEY__" := VStr "One"]>
                 (<["__OPAQUE_VARIATION__" := v]>
                 (<["value" := p]> ∅))))).
Proof.
  destruct (constants_total ["One"; "Two"] ["default"]) as [g E];
    [by_computation..|].
  exists g. split; [rewrite closure_cons; exact E|].
  apply (name_scoped_constructor_arity _ _ g "One" E); by_computation.
Defined.

(** C6, a schema on which the claim as stated fails: with the schema
    [{A: {A, B}}] the key [A] of [of] holds the constructor scoped to the
    variation [A].  Called with the single argument [1], [of.A] takes it
    as the name: the entity is tagged with the variation [A], not
    ['default'], and its payload is [undefined], not [1]. *)
Lemma name_scoped_constructor_collides :
  exists g ctor,
    closure [("A", [("A", VUndefined); ("B", VUndefined)])] = Ret g /\
    fprops (c_ofAll g) !! "A" = Some ctor /\
    get_prop (fcall ctor [VNum 1]) "__OPAQUE_KEY__" = Ret (VNum 1) /\
    get_prop (fcall ctor [VNum 1]) "__OPAQUE_VARIATION__" = Ret (VStr "A") /\
    get_prop (fcall ctor [VNum 1]) "value" = Ret VUndefined /\
    fcall ctor [VNum 1] <> opaque (VStr "A") (VStr "default") (VNum 1).
Proof.
  destruct (constants_total ["A"] ["A"; "B"]) as [g E]; [by_computation..|].
  destruct (variation_scoped_constructor _ _ g E "A")
    as (ctor & _ & Hof & Hcall & _); [by_computation|].
  exists g, ctor. split; [rewrite closure_cons; exact E|].
  split; [exact Hof|]. rewrite Hcall. cbn [arg nth].
  split; [apply get_prop_opaque_key|].
  split; [apply get_prop_opaque_variation|].
  split; [apply get_prop_opaque_value|].
  intros H. apply opaque_inj in H as (H & _). discriminate.
Qed.

Lemma default_applied_unconditionally_witness :
  exists g,
    closure [("One", [("var1", VUndefined); ("var2", VUndefined)])] = Ret g /\
    exists ctor,
      fprops (c_ofAll g) !! "One" = Some ctor /\
      get_prop (fcall ctor [VNum 7]) "__OPAQUE_VARIATION__" = Ret (VStr "default") /\
      fcall (c_isAll g) (fcall ctor [VNum 7]) = Ret false.
Proof.
  destruct (constants_total ["One"] ["var1"; "var2"]) as [g E];
    [by_computation..|].
  exists g. split; [rewrite closure_cons; exact E|].
  apply (default_applied_unconditionally _ _ g "One" (VNum 7) E); by_computation.
Defined.

(** C10, a schema on which the claim as stated fails: in the schema
    [{A: {A, B}}], where ['default'] is no Variation, the key [A] of [of]
    holds the constructor scoped to the variation [A].  [of.A('A')] is
    tagged with the variation [A], not ['default'], and the global guard
    [is] returns [true] on it. *)
Lemma default_not_applied_on_collision :
  exists g ctor,
    closure [("A", [("A", VUndefined); ("B", VUndefined)])] = Ret g /\
    ("default" ∉ ["A"; "B"]) /\
    fprops (c_ofAll g) !! "A" = Some ctor /\
    get_prop (fcall ctor [VStr "A"]) "__OPAQUE_VARIATION__" = Ret (VStr "A") /\
    fcall (c_isAll g) (fcall ctor [VStr "A"]) = Ret true.
Proof.
  destruct (constants_total ["A"] ["A"; "B"]) as [g E]; [by_computation..|].
  destruct (variation_scoped_constructor _ _ g E "A")
    as (ctor & _ & Hof & Hcall & _); [by_computation|].
  exists g, ctor. split; [rewrite closure_cons; exact E|].
  split; [by_computation|]. split; [exact Hof|].
  rewrite Hcall. cbn [arg nth].
  split; [apply get_prop_opaque_variation|].
  rewrite (is_call _ _ g E), is_any_opaque. reflexivity.
Qed.

(** ** The global isomorphism *)

(** The two discriminators the forward direction adds. *)
Lemma lookup_tags_tag t v :
  (<["_tag" := t]> (<["_variation" := v]> ∅) : gmap string value) !! "_tag" = Some t.
Proof. apply lookup_insert_eq. Qed.

Lemma lookup_tags_variation t v :
  (<["_tag" := t]> (<["_variation" := v]> ∅) : gmap string value) !! "_variation"
  = Some v.
Proof. rewrite lookup_insert_ne by discriminate. apply lookup_insert_eq. Qed.

Lemma lookup_tags_other t v k :
  k <> "_tag" -> k <> "_variation" ->
  (<["_tag" := t]> (<["_variation" := v]> ∅) : gmap string value) !! k = None.
Proof.
  intros H1 H2. rewrite !lookup_insert_ne by congruence. apply lookup_empty.
Qed.

Lemma delete_tags t v :
  delete "_variation" (delete "_tag"
    (<["_tag" := t]> (<["_variation" := v]> ∅) : gmap string value)) = ∅.
Proof.
  rewrite delete_insert_id
    by (rewrite lookup_insert_ne by discriminate; apply lookup_empty).
  apply delete_insert_id, lookup_empty.
Qed.

Lemma own_enumerable_obj fields : own_enumerable (VObj fields) = fields.
Proof. reflexivity. Qed.

Lemma iso_get_opaque n v p : get iso (opaque n v p) = Ret (tag n v p).
Proof.
  unfold iso, get.
  rewrite get_prop_opaque_key, bind_Ret_l, get_prop_opaque_variation, bind_Ret_l,
    get_prop_opaque_value, bind_Ret_l.
  reflexivity.
Qed.

(** Splitting a tagged value again: a payload property called [_tag] or
    [_variation] has taken the place of the discriminator. *)
Lemma untag_tag t v p :
  untag (tag t v p)
  = Ret (default t (own_enumerable p !! "_tag"),
         default v (own_enumerable p !! "_variation"),
         VObj (delete "_variation" (delete "_tag" (own_enumerable p)))).
Proof.
  unfold untag, tag. cbn [get_prop]. rewrite !bind_Ret_l, own_enumerable_obj.
  rewrite !lookup_union, lookup_tags_tag, lookup_tags_variation.
  rewrite !delete_union, delete_tags, (right_id_L ∅ (∪)).
  destruct (own_enumerable p !! "_tag"), (own_enumerable p !! "_variation");
    reflexivity.
Qed.

(** What a round trip through the global isomorphism returns, for every
    entity. *)
Lemma iso_round_trip_any n v p :
  (a ← get iso (opaque n v p); reverseGet iso a)
  = Ret (opaque (default n (own_enumerable p !! "_tag"))
                (default v (own_enumerable p !! "_variation"))
                (VObj (delete "_variation" (delete "_tag" (own_enumerable p))))).
Proof.
  rewrite iso_get_opaque, bind_Ret_l. unfold iso, reverseGet.
  rewrite untag_tag, bind_Ret_l. reflexivity.
Qed.

(** C2 (amended): for every Name [n], Variation [v] and payload [p] that
    is a plain object with no own property [_tag] or [_variation],
    [iso.reverseGet(iso.get(of(n, v, p)))] is structurally equal to
    [of(n, v, p)].  The tags need not even belong to the schema. *)
Theorem iso_round_trip names variations g (n v : string) (fields : gmap string value) :
  constants names variations = Ret g ->
  fields !! "_tag" = None ->
  fields !! "_variation" = None ->
  (a ← get iso (fcall (c_ofAll g) [VStr n; VStr v; VObj fields]);
   reverseGet iso a)
  = Ret (fcall (c_ofAll g) [VStr n; VStr v; VObj fields]).
Proof.
  intros Hgen Htag Hvar. rewrite (of_call _ _ _ Hgen). cbn [arg nth].
  rewrite iso_round_trip_any. cbn [own_enumerable].
  rewrite Htag, Hvar, (delete_id _ "_tag"), (delete_id _ "_variation") by assumption.
  reflexivity.
Qed.

(** C2, payloads on which the claim as stated fails: the payload
    [{_tag: 'Two', x: 1}] comes back under the name [Two] and without its
    property [_tag]; the payload [5], which is not an object, comes back
    as the empty object. *)
Lemma iso_round_trip_loses :
  exists g,
    closure [("One", [("default", VUndefined)]);
             ("Two", [("default", VUndefined)])] = Ret g /\
    let p1 := VObj (<["_tag" := VStr "Two"]> (<["x" := VNum 1]> ∅)) in
    let e1 := fcall (c_ofAll g) [VStr "One"; VStr "default"; p1] in
    let e2 := fcall (c_ofAll g) [VStr "One"; VStr "default"; VNum 5] in
    (a ← get iso e1; reverseGet iso a)
      = Ret (opaque (VStr "Two") (VStr "default") (VObj (<["x" := VNum 1]> ∅))) /\
    (a ← get iso e1; reverseGet iso a) <> Ret e1 /\
    (a ← get iso e2; reverseGet iso a)
      = Ret (opaque (VStr "One") (VStr "default") (VObj ∅)) /\
    (a ← get iso e2; reverseGet iso a) <> Ret e2.
Proof.
  destruct (constants_total ["One"; "Two"] ["default"]) as [g E];
    [by_computation..|].
  exists g. split; [rewrite closure_cons; exact E|].
  intros p1 e1 e2. unfold e1, e2, p1. rewrite !(of_call _ _ g E). cbn [arg nth].
  rewrite !iso_round_trip_any. cbn [own_enumerable].
  rewrite lookup_insert_eq, (lookup_insert_ne _ "_tag" "_variation") by discriminate.
  rewrite (lookup_insert_ne _ "x" "_variation"), !lookup_empty by discriminate.
  rewrite delete_insert_id, (delete_id _ "_variation"), !delete_empty
    by (rewrite lookup_insert_ne by discriminate; apply lookup_empty).
  cbn [default from_option id].
  split; [reflexivity|]. split.
  - intros H. apply Ret_inj, opaque_inj in H as (H & _). discriminate.
  - split; [reflexivity|].
    intros H. apply Ret_inj, opaque_inj in H as (_ & _ & H). discriminate.
Qed.

Lemma iso_round_trip_witness :
  exists g,
    closure [("One", [("default", VUndefined)]);
             ("Two", [("default", VUndefined)])] = Ret g /\
    let p := VObj (<["value" := VStr "one"]> ∅) in
    (a ← get iso (fcall (c_ofAll g) [VStr "One"; VStr "default"; p]);
     reverseGet iso a)
    = Ret (fcall (c_ofAll g) [VStr "One"; VStr "default"; p]).
Proof.
  destruct (constants_total ["One"; "Two"] ["default"]) as [g E];
    [by_computation..|].
  exists g. split; [rewrite closure_cons; exact E|].
  apply (iso_round_trip _ _ g "One" "default" _ E);
    (rewrite lookup_insert_ne by discriminate; apply lookup_empty).
Defined.

(** ** The global property lens *)

Lemma lens_get_opaque k n v p :
  lget (lensFromProp iso k) (opaque n v p) = get_prop (tag n v p) k.
Proof.
  unfold lensFromProp, composeLens, lget, fromProp.
  rewrite iso_get_opaque, bind_Ret_l. reflexivity.
Qed.

(** What the setter of the global lens returns on an entity whose payload
    is a plain object. *)
Lemma identical_true a b : identical a b = true -> a = b.
Proof.
  destruct a, b; try discriminate; cbn [identical];
    first [ reflexivity
          | intros H; apply bool_decide_eq_true in H; congruence ].
Qed.

(** On a plain object that has the property, the setter of [fromProp]
    returns the object with the property replaced, whether it went
    through [Object.assign] or not. *)
Lemma fromProp_set_present (m : gmap string value) k x y :
  m !! k = Some x ->
  lset (fromProp k) y (VObj m) = Ret (VObj (<[k := y]> m)).
Proof.
  intros Hk. unfold fromProp. cbn [lset get_prop]. rewrite Hk, bind_Ret_l.
  cbn [default from_option id].
  destruct (identical y x) eqn:E; [|reflexivity].
  apply identical_true in E as ->. rewrite (insert_id _ _ _ Hk). reflexivity.
Qed.

Lemma lens_set_object k y n v (fields : gmap string value) :
  is_Some (fields !! k) ->
  lset (lensFromProp iso k) y (opaque n v (VObj fields))
  = Ret (opaque (default n (<[k := y]> fields !! "_tag"))
                (default v (<[k := y]> fields !! "_variation"))
                (VObj (delete "_variation" (delete "_tag" (<[k := y]> fields))))).
Proof.
  intros [x Hk]. unfold lensFromProp, composeLens. cbn [lset].
  rewrite iso_get_opaque, bind_Ret_l. unfold tag at 1. rewrite own_enumerable_obj.
  rewrite (fromProp_set_present _ k x y)
    by (apply (lookup_union_Some_l (M := gmap string)); exact Hk).
  rewrite bind_Ret_l, insert_union_l.
  change (VObj (<[k := y]> fields ∪ <["_tag" := n]> (<["_variation" := v]> ∅)))
    with (tag n v (VObj (<[k := y]> fields))).
  unfold iso, reverseGet. rewrite untag_tag, bind_Ret_l. reflexivity.
Qed.

(** C8 (amended): for a property [k] present on a payload object that has
    no own property [_tag] or [_variation],
    [lensFromProp(k).get(of(n, v, { ...payload, [k]: x }))] is [x], and
    [lensFromProp(k).set(y)(of(n, v, payload))] is an entity on which
    [lensFromProp(k).get] returns [y] while the name tag, the variation
    tag and every other payload property are unchanged: it is
    [of(n, v, { ...payload, [k]: y })]. *)
Theorem lens_get_set names variations g (n v k : string) (x y : value)
    (fields : gmap string value) :
  constants names variations = Ret g ->
  is_Some (fields !! k) ->
  fields !! "_tag" = None ->
  fields !! "_variation" = None ->
  let entity p := fcall (c_ofAll g) [VStr n; VStr v; p] in
  lget (lensFromProp iso k) (entity (VObj (<[k := x]> fields))) = Ret x /\
  exists e',
    lset (lensFromProp iso k) y (entity (VObj fields)) = Ret e' /\
    e' = entity (VObj (<[k := y]> fields)) /\
    lget (lensFromProp iso k) e' = Ret y /\
    get_prop e' "__OPAQUE_KEY__" = Ret (VStr n) /\
    get_prop e' "__OPAQUE_VARIATION__" = Ret (VStr v) /\
    exists fields',
      get_prop e' "value" = Ret (VObj fields') /\
      forall k', k' <> k -> fields' !! k' = fields !! k'.
Proof.
  intros Hgen [x0 Hk] Htag Hvar entity.
  assert (Hget : forall z, lget (lensFromProp iso k)
                             (opaque (VStr n) (VStr v) (VObj (<[k := z]> fields)))
                           = Ret z).
  { intros z. rewrite lens_get_opaque. unfold tag. cbn [get_prop].
    rewrite own_enumerable_obj, lookup_union_l', lookup_insert_eq;
      [reflexivity | rewrite lookup_insert_eq; eauto]. }
  assert (Hk1 : k <> "_tag") by congruence.
  assert (Hk2 : k <> "_variation") by congruence.
  unfold entity. rewrite !(of_call _ _ _ Hgen). cbn [arg nth].
  split; [apply Hget|].
  exists (opaque (VStr n) (VStr v) (VObj (<[k := y]> fields))).
  split.
  { rewrite lens_set_object by eauto.
    rewrite !lookup_insert_ne, Htag, Hvar by assumption.
    rewrite (delete_id _ "_tag"), (delete_id _ "_variation")
      by (rewrite lookup_insert_ne by assumption; assumption).
    reflexivity. }
  split; [reflexivity|]. split; [apply Hget|].
  split; [apply get_prop_opaque_key|]. split; [apply get_prop_opaque_variation|].
  exists (<[k := y]> fields). split; [apply get_prop_opaque_value|].
  intros k' Hk'. apply lookup_insert_ne. congruence.
Qed.

(** C8, a payload on which the claim as stated fails: on the entity
    [of('One', 'default', {_tag: 'Two', a: 1})] the setter of
    [lensFromProp('a')] returns an entity whose name tag is [Two] and
    whose payload has lost the property [_tag]. *)
Lemma lens_set_retags :
  exists g e',
    closure [("One", [("default", VUndefined)]);
             ("Two", [("default", VUndefined)])] = Ret g /\
    lset (lensFromProp iso "a") (VNum 2)
      (fcall (c_ofAll g)
         [VStr "One"; VStr "default";
          VObj (<["_tag" := VStr "Two"]> (<["a" := VNum 1]> ∅))]) = Ret e' /\
    get_prop e' "__OPAQUE_KEY__" = Ret (VStr "Two") /\
    get_prop e' "value" = Ret (VObj (<["a" := VNum 2]> ∅)).
Proof.
  destruct (constants_total ["One"; "Two"] ["default"]) as [g E];
    [by_computation..|].
  exists g. eexists. split; [rewrite closure_cons; exact E|].
  rewrite (of_call _ _ g E). cbn [arg nth].
  rewrite lens_set_object
    by (rewrite lookup_insert_ne by discriminate; rewrite lookup_insert_eq; eauto).
  split; [reflexivity|].
  rewrite get_prop_opaque_key, get_prop_opaque_value.
  rewrite (lookup_insert_ne _ "a" "_tag"), lookup_insert_eq by discriminate.
  split; [reflexivity|]. apply f_equal, f_equal.
  rewrite (insert_insert_ne _ "a" "_tag") by discriminate.
  rewrite delete_insert_id.
  - rewrite insert_insert_eq. apply delete_id.
    rewrite lookup_insert_ne by discriminate. apply lookup_empty.
  - rewrite lookup_insert_ne by discriminate.
    rewrite lookup_insert_ne by discriminate. apply lookup_empty.
Qed.

Lemma lens_get_set_witness :
  exists g,
    closure [("One", [("default", VUndefined)]);
             ("Two", [("default", VUndefined)])] = Ret g /\
    let fields : gmap string value := <["value" := VStr "one"]> ∅ in
    let entity p := fcall (c_ofAll g) [VStr "One"; VStr "default"; p] in
    lget (lensFromProp iso "value")
      (entity (VObj (<["value" := VStr "uno"]> fields))) = Ret (VStr "uno") /\
    exists e',
      lset (lensFromProp iso "value") (VStr "two") (entity (VObj fields)) = Ret e' /\
      e' = entity (VObj (<["value" := VStr "two"]> fields)) /\
      lget (lensFromProp iso "value") e' = Ret (VStr "two") /\
      get_prop e' "__OPAQUE_KEY__" = Ret (VStr "One") /\
      get_prop e' "__OPAQUE_VARIATION__" = Ret (VStr "default") /\
      exists fields',
        get_prop e' "value" = Ret (VObj fields') /\
        forall k', k' <> "value" -> fields' !! k' = fields !! k'.
Proof.
  destruct (constants_total ["One"; "Two"] ["default"]) as [g E];
    [by_computation..|].
  exists g. split; [rewrite closure_cons; exact E|].
  apply (lens_get_set _ _ g "One" "default" "value" (VStr "uno") (VStr "two") _ E).
  - rewrite lookup_insert_eq. eexists. reflexivity.
  - rewrite lookup_insert_ne by discriminate. apply lookup_empty.
  - rewrite lookup_insert_ne by discriminate. apply lookup_empty.
Defined.

(** ** The scoped isomorphisms *)

(** The loop that attaches one sub-object per key to the scope stored
    under [name]. *)
Lemma forEach_attach_scope (X : string -> member) (name : string) ks
    (sc0 : scope) (m : gmap string scope) :
  forEach (fun k d => Ret (alter (insert k (X k)) name d)) ks (<[name := sc0]> m)
  = Ret (<[name := fold_left (fun sc k => <[k := X k]> sc) ks sc0]> m).
Proof.
  revert sc0. induction ks as [|k ks IH]; intros sc0; [reflexivity|].
  rewrite forEach_cons, bind_Ret_l, alter_insert_eq. apply IH.
Qed.

Lemma fold_insert_lookup (X : string -> member) ks (sc0 : scope) k :
  fold_left (fun sc k => <[k := X k]> sc) ks sc0 !! k
  = if bool_decide (k ∈ ks) then Some (X k) else sc0 !! k.
Proof.
  revert sc0. induction ks as [|k0 ks IH]; intros sc0.
  - rewrite bool_decide_eq_false_2 by (inversion 1). reflexivity.
  - cbn [fold_left]. rewrite IH. destruct (decide (k ∈ ks)) as [Hin|Hnin].
    + rewrite !bool_decide_eq_true_2; [reflexivity|right; assumption|assumption].
    + rewrite (bool_decide_eq_false_2 (k ∈ ks)) by assumption.
      destruct (decide (k = k0)) as [->|Hne].
      * rewrite bool_decide_eq_true_2 by left. apply lookup_insert_eq.
      * rewrite bool_decide_eq_false_2
          by (intros [?|?]%elem_of_cons; contradiction).
        apply lookup_insert_ne. congruence.
Qed.

Lemma forTypes_lookup names variations (ofsT : gmap string constructor) forT n :
  forTypes names variations ofsT = Ret forT ->
  n ∈ names ->
  exists ctor sc,
    ofsT !! n = Some ctor /\
    forT !! n = Some sc /\
    forall v, v ∈ variations ->
      sc !! v = Some (MLenses (lenses
                  (MkIso (fun o => get_prop o "value")
                         (call1 (fprops ctor !! v))))).
Proof.
  intros H Hn. unfold forTypes in H.
  rewrite (forEach_ext _
    (fun name acc =>
       sc ← (defaultOf ← match ofsT !! name with
                         | Some f => Ret f
                         | None => Throw TypeError
                         end;
             Ret (fold_left
                    (fun sc v =>
                       <[v := MLenses (lenses
                                (MkIso (fun o => get_prop o "value")
                                       (call1 (fprops defaultOf !! v))))]> sc)
                    variations
                    (<["iso" := MOptic (OIso
                         (MkIso (fun o => get_prop o "value")
                                (call1 (fprops defaultOf !! "default"))))]>
                     (<["lensFromProp" := MOptic (OLensFromProp
                         (MkIso (fun o => get_prop o "value")
                                (call1 (fprops defaultOf !! "default"))))]>
                     (<["fold" := MOptic OFold]> ∅)))));
       Ret (<[name := sc]> acc))) in H.
  - eapply forEach_insert with (k := n) in H.
    rewrite bool_decide_eq_true_2 in H by assumption.
    destruct H as (sc & Hbuild & Hlook).
    destruct (ofsT !! n) as [ctor|] eqn:Hctor; [|discriminate].
    rewrite bind_Ret_l in Hbuild. injection Hbuild as <-.
    exists ctor. eexists. split; [reflexivity|]. split; [exact Hlook|].
    intros v Hv.
    rewrite (fold_insert_lookup
               (fun v => MLenses (lenses
                           (MkIso (fun o => get_prop o "value")
                                  (call1 (fprops ctor !! v)))))).
    rewrite bool_decide_eq_true_2 by assumption. reflexivity.
  - intros name acc. cbv beta zeta.
    destruct (ofsT !! name) as [ctor|]; [|reflexivity].
    rewrite !bind_Ret_l.
    apply (forEach_attach_scope
             (fun v => MLenses (lenses
                         (MkIso (fun o => get_prop o "value")
                                (call1 (fprops ctor !! v)))))).
Qed.

(** ** The schema normalizer *)

Lemma ofVariations_returns_iff n0 t0 rest :
  returns (ofVariations ((n0, t0) :: rest)) <->
  assignable (n0 :: object_keys rest) /\ assignable (object_keys t0).
Proof.
  split.
  - intros [api H]. apply ofVariations_Ret in H as (names & variations & g & Hn & Hg & _).
    rewrite normalize_cons in Hn. injection Hn as <- <-.
    exact (constants_assignable _ _ _ Hg).
  - intros [Hn Hv]. exact (ofVariations_total n0 t0 rest Hn Hv).
Qed.

(** C7: the normalizer takes the Variation keys from the table of the
    first Name alone, in the order of that table's keys.  Two schemas with
    the same first entry and the same other Names, whatever the tables of
    those other Names hold, are normalized alike, give the same closure
    constants and bundles that differ in the [types] reference only, and
    one is accepted as soon as the other is: nothing checks that the
    schema is rectangular. *)
Theorem normalizer_reads_first_table n0 t0 (rest rest' : schema) :
  object_keys rest' = object_keys rest ->
  normalize ((n0, t0) :: rest') = Ret (n0 :: object_keys rest, object_keys t0) /\
  closure ((n0, t0) :: rest') = closure ((n0, t0) :: rest) /\
  (forall g, closure ((n0, t0) :: rest) = Ret g ->
     ofVariations ((n0, t0) :: rest) = Ret (bundle ((n0, t0) :: rest) g) /\
     ofVariations ((n0, t0) :: rest') = Ret (bundle ((n0, t0) :: rest') g)) /\
  (returns (ofVariations ((n0, t0) :: rest')) <->
   assignable (n0 :: object_keys rest) /\ assignable (object_keys t0)).
Proof.
  intros Hkeys. split; [rewrite normalize_cons, Hkeys; reflexivity|].
  assert (Hclosure : closure ((n0, t0) :: rest') = closure ((n0, t0) :: rest))
    by (rewrite !closure_cons, Hkeys; reflexivity).
  split; [exact Hclosure|]. split.
  - intros g Hg. rewrite !ofVariations_closure, Hclosure, Hg. split; reflexivity.
  - rewrite ofVariations_returns_iff, Hkeys. reflexivity.
Qed.

Lemma normalizer_reads_first_table_witness :
  let first := ("One", [("var1", VUndefined); ("var2", VUndefined)]) in
  let rectangular := [("Two", [("var1", VUndefined); ("var2", VUndefined)])] in
  let ragged := [("Two", [("other", VNum 0)])] in
  normalize (first :: ragged) = Ret (["One"; "Two"], ["var1"; "var2"]) /\
  closure (first :: ragged) = closure (first :: rectangular) /\
  (forall g, closure (first :: rectangular) = Ret g ->
     ofVariations (first :: rectangular) = Ret (bundle (first :: rectangular) g) /\
     ofVariations (first :: ragged) = Ret (bundle (first :: ragged) g)) /\
  (returns (ofVariations (first :: ragged)) <->
   assignable ["One"; "Two"] /\ assignable ["var1"; "var2"]).
Proof.
  exact (normalizer_reads_first_table "One"
           [("var1", VUndefined); ("var2", VUndefined)]
           [("Two", [("var1", VUndefined); ("var2", VUndefined)])]
           [("Two", [("other", VNum 0)])] eq_refl).
Defined.

(** ** The store: reads, allocations and loops *)

Lemma bindM_Ret {A B : Type} (c : M A) (k : A -> M B) h r :
  bindM c k h = Ret r -> exists a h1, c h = Ret (a, h1) /\ k a h1 = Ret r.
Proof.
  unfold bindM. destruct (c h) as [[a h1]|e]; [|discriminate].
  intros H. exists a, h1. split; [reflexivity|exact H].
Qed.

Lemma retM_Ret {A : Type} (a a' : A) h h' :
  retM a h = Ret (a', h') -> a' = a /\ h' = h.
Proof. unfold retM. intros [= <- <-]. split; reflexivity. Qed.

Lemma lift_Ret {A : Type} (o : outcome A) a h h' :
  lift o h = Ret (a, h') -> o = Ret a /\ h' = h.
Proof. unfold lift. destruct o; [|discriminate]. intros [= <- <-]. split; reflexivity. Qed.

Lemma new_Ret c h l h' :
  new c h = Ret (l, h') -> l = length h /\ h' = (h ++ [c])%list.
Proof. unfold new. intros [= <- <-]. split; reflexivity. Qed.

Lemma read_Ret l h c h' :
  read l h = Ret (c, h') -> h !! l = Some c /\ h' = h.
Proof.
  unfold read. destruct (h !! l) as [c'|]; [|discriminate].
  intros [= <- <-]. split; reflexivity.
Qed.

Lemma read_table_Ret l h t h' :
  read_table l h = Ret (t, h') -> h !! l = Some (CTable t) /\ h' = h.
Proof.
  unfold read_table. intros H. apply bindM_Ret in H as (c & h1 & Hread & H).
  apply read_Ret in Hread as (Hc & ->).
  destruct c; [|apply lift_Ret in H as ([=] & _)..].
  apply retM_Ret in H as (-> & ->). split; [exact Hc|reflexivity].
Qed.

Lemma read_types_Ret l h t h' :
  read_types l h = Ret (t, h') -> h !! l = Some (CTypes t) /\ h' = h.
Proof.
  unfold read_types. intros H. apply bindM_Ret in H as (c & h1 & Hread & H).
  apply read_Ret in Hread as (Hc & ->).
  destruct c; [apply lift_Ret in H as ([=] & _)| |apply lift_Ret in H as ([=] & _)].
  apply retM_Ret in H as (-> & ->). split; [exact Hc|reflexivity].
Qed.

Lemma types_of_Ret union h t h' :
  types_of union h = Ret (t, h') ->
  (exists api, h !! union = Some (CBundle api) /\ api !! "types" = Some (ATypes t))
  /\ h' = h.
Proof.
  unfold types_of. intros H. apply bindM_Ret in H as (c & h1 & Hread & H).
  apply read_Ret in Hread as (Hc & ->).
  destruct c as [| |api]; [apply lift_Ret in H as ([=] & _)..|].
  destruct (api !! "types") as [[t'| | | | | |]|] eqn:Ht;
    [|apply lift_Ret in H as ([=] & _)..].
  apply retM_Ret in H as (-> & ->). split; [|reflexivity].
  exists api. split; [exact Hc|exact Ht].
Qed.

Lemma table_of_Ret types key h t h' :
  table_of types key h = Ret (t, h') -> field types key = Some t /\ h' = h.
Proof.
  unfold table_of. destruct (field types key) as [t'|].
  - intros H. apply retM_Ret in H as (-> & ->). split; reflexivity.
  - intros H. apply lift_Ret in H as ([=] & _).
Qed.

(** A loop whose steps only extend the store, and return either the
    accumulator they got or a location that was not allocated before,
    extends the store and returns such a location. *)
Lemma reduce_fresh {K : Type} (f : loc -> K -> M loc) (h0 : heap) l s h s' h' :
  (forall s k h s' h', f s k h = Ret (s', h') ->
     h `prefix_of` h' /\ (s' = s \/ length h <= s')) ->
  h0 `prefix_of` h -> length h0 <= s ->
  reduce f l s h = Ret (s', h') ->
  h `prefix_of` h' /\ length h0 <= s'.
Proof.
  intros Hf. revert s h. induction l as [|k l IH]; intros s h Hpre Hs H.
  - apply retM_Ret in H as (-> & ->). split; [reflexivity|exact Hs].
  - cbn [reduce] in H. apply bindM_Ret in H as (s1 & h1 & Hstep & H).
    apply Hf in Hstep as (Hpre1 & Hs1).
    apply IH in H as (Hpre' & Hs').
    + split; [etrans; eassumption|exact Hs'].
    + etrans; eassumption.
    + destruct Hs1 as [->|Hs1]; [exact Hs|].
      apply prefix_length in Hpre. lia.
Qed.

Lemma reduce_grows {K S : Type} (f : S -> K -> M S) l s h s' h' :
  (forall s k h s' h', f s k h = Ret (s', h') -> h `prefix_of` h') ->
  reduce f l s h = Ret (s', h') -> h `prefix_of` h'.
Proof.
  intros Hf. revert s h. induction l as [|k l IH]; intros s h H.
  - apply retM_Ret in H as (-> & ->). reflexivity.
  - cbn [reduce] in H. apply bindM_Ret in H as (s1 & h1 & Hstep & H).
    apply Hf in Hstep. apply IH in H. etrans; eassumption.
Qed.

(** ** The bundle a store-level generation allocates *)

Lemma bundle_types {T : Type} (types : T) g k t :
  bundle types g !! k = Some (ATypes t) -> t = types.
Proof.
  unfold bundle, UnionAPI. cbv zeta. intros H.
  apply (lookup_union_Some_raw (M := gmap string)) in H as [H|[_ H]].
  - apply (lookup_union_Some_raw (M := gmap string)) in H as [H|[_ H]];
      apply lookup_fmap_Some in H as (sc & [=] & _).
  - repeat (apply lookup_insert_Some in H as [[_ H]|[_ H]];
            [try discriminate; congruence|]).
    rewrite lookup_empty in H. discriminate.
Qed.

Lemma ofVariations_at_Ret types h union h' :
  ofVariations_at types h = Ret (union, h') ->
  exists g, union = length h /\ h' = (h ++ [CBundle (bundle types g)])%list.
Proof.
  unfold ofVariations_at, generate. intros H.
  apply bindM_Ret in H as (fields & h1 & Hfields & H).
  apply read_types_Ret in Hfields as (_ & ->).
  apply bindM_Ret in H as (first & h1 & Hfirst & H).
  assert (h1 = h) as ->.
  { destruct (head (object_keys fields) ≫= field fields) as [t|].
    - apply read_table_Ret in Hfirst as (_ & ->). reflexivity.
    - apply lift_Ret in Hfirst as ([=] & _). }
  apply bindM_Ret in H as (api & h1 & Hapi & H).
  apply lift_Ret in Hapi as (Hapi & ->).
  apply new_Ret in H as (-> & ->).
  apply bind_Ret in Hapi as (g & Hg & [= <-]).
  exists g. split; reflexivity.
Qed.

(** ** The schema algebra leaves its inputs alone *)

Lemma fresh_bundle_intro (h h2 : heap) (types : loc) g :
  h `prefix_of` h2 ->
  length h <= types ->
  fresh_bundle h (length h2, (h2 ++ [CBundle (bundle types g)])%list).
Proof.
  intros Hpre Hfresh. unfold fresh_bundle. cbn [fst snd]. split; [|split].
  - intros l c Hl. apply (prefix_lookup_Some h); [exact Hl|].
    apply prefix_app_r, Hpre.
  - apply lookup_ge_None. apply prefix_length in Hpre. exact Hpre.
  - exists (bundle types g). split.
    + apply list_lookup_middle. reflexivity.
    + intros k t Ht. apply bundle_types in Ht as ->.
      apply lookup_ge_None. exact Hfresh.
Qed.

(** One step of the loop of [omit] and of [pick]. *)
Lemma filter_step_fresh (skip : bool) (fields : list (string * loc))
    localTypes key h s' h' :
  (if skip then retM localTypes
   else bindM (read_types localTypes) (fun local =>
        bindM (table_of fields key) (fun t =>
        new (CTypes (set_field local key t))))) h = Ret (s', h') ->
  h `prefix_of` h' /\ (s' = localTypes \/ length h <= s').
Proof.
  destruct skip.
  - intros H. apply retM_Ret in H as (-> & ->). split; [reflexivity|left; reflexivity].
  - intros H. apply bindM_Ret in H as (local & h1 & Hl & H).
    apply read_types_Ret in Hl as (_ & ->).
    apply bindM_Ret in H as (t & h1 & Ht & H).
    apply table_of_Ret in Ht as (_ & ->).
    apply new_Ret in H as (-> & ->).
    split; [apply prefix_app_r; reflexivity|right; reflexivity].
Qed.

Lemma snoc_fresh (h : heap) c : h `prefix_of` (h ++ [c])%list.
Proof. apply prefix_app_r. reflexivity. Qed.

Lemma omit_pure union omittedKeys h r :
  omit union omittedKeys h = Ret r -> fresh_bundle h r.
Proof.
  destruct r as [union' h']. unfold omit. intros H.
  apply bindM_Ret in H as (types & h1 & Ht & H). apply types_of_Ret in Ht as (_ & ->).
  apply bindM_Ret in H as (fields & h1 & Hf & H). apply read_types_Ret in Hf as (_ & ->).
  apply bindM_Ret in H as (empty & h1 & He & H). apply new_Ret in He as (-> & ->).
  apply bindM_Ret in H as (filtered & h2 & Hred & H).
  apply (reduce_fresh _ h) in Hred as (Hpre & Hfresh);
    [|intros s k h3 s' h4; apply filter_step_fresh
     |apply snoc_fresh|reflexivity].
  apply ofVariations_at_Ret in H as (g & -> & ->).
  apply fresh_bundle_intro; [|exact Hfresh].
  etrans; [apply snoc_fresh|exact Hpre].
Qed.

Lemma pick_pure union onlyKeys h r :
  pick union onlyKeys h = Ret r -> fresh_bundle h r.
Proof.
  destruct r as [union' h']. unfold pick. intros H.
  apply bindM_Ret in H as (types & h1 & Ht & H). apply types_of_Ret in Ht as (_ & ->).
  apply bindM_Ret in H as (fields & h1 & Hf & H). apply read_types_Ret in Hf as (_ & ->).
  apply bindM_Ret in H as (empty & h1 & He & H). apply new_Ret in He as (-> & ->).
  apply bindM_Ret in H as (filtered & h2 & Hred & H).
  apply (reduce_fresh _ h) in Hred as (Hpre & Hfresh);
    [|intros s k h3 s' h4; apply filter_step_fresh
     |apply snoc_fresh|reflexivity].
  apply ofVariations_at_Ret in H as (g & -> & ->).
  apply fresh_bundle_intro; [|exact Hfresh].
  etrans; [apply snoc_fresh|exact Hpre].
Qed.

Lemma merge_pure union1 union2 h r :
  merge union1 union2 h = Ret r -> fresh_bundle h r.
Proof.
  destruct r as [union' h']. unfold merge. intros H.
  apply bindM_Ret in H as (types1 & h1 & Ht & H). apply types_of_Ret in Ht as (_ & ->).
  apply bindM_Ret in H as (fields1 & h1 & Hf & H). apply read_types_Ret in Hf as (_ & ->).
  apply bindM_Ret in H as (types2 & h1 & Ht & H). apply types_of_Ret in Ht as (_ & ->).
  apply bindM_Ret in H as (fields2 & h1 & Hf & H). apply read_types_Ret in Hf as (_ & ->).
  apply bindM_Ret in H as (types & h1 & Hn & H). apply new_Ret in Hn as (-> & ->).
  apply ofVariations_at_Ret in H as (g & -> & ->).
  apply fresh_bundle_intro; [apply snoc_fresh|reflexivity].
Qed.

(** One step of the inner loop of [omitVariations]. *)
Lemma variation_step_grows (skip : bool) (localType : table)
    localVariations variation h s' h' :
  (if skip then retM localVariations
   else bindM (read_table localVariations) (fun local =>
        new (CTable (set_field local variation
                       (table_get localType variation))))) h
  = Ret (s', h') ->
  h `prefix_of` h'.
Proof.
  destruct skip.
  - intros H. apply retM_Ret in H as (-> & ->). reflexivity.
  - intros H. apply bindM_Ret in H as (local & h1 & Hl & H).
    apply read_table_Ret in Hl as (_ & ->).
    apply new_Ret in H as (-> & ->). apply snoc_fresh.
Qed.

Lemma omitVariations_pure union omittedVariations h r :
  omitVariations union omittedVariations h = Ret r -> fresh_bundle h r.
Proof.
  destruct r as [union' h']. unfold omitVariations. intros H.
  apply bindM_Ret in H as (types & h1 & Ht & H). apply types_of_Ret in Ht as (_ & ->).
  apply bindM_Ret in H as (fields & h1 & Hf & H). apply read_types_Ret in Hf as (_ & ->).
  apply bindM_Ret in H as (first & h1 & Hfirst & H).
  assert (h1 = h) as ->.
  { destruct (head (object_keys fields) ≫= field fields) as [t|].
    - apply read_table_Ret in Hfirst as (_ & ->). reflexivity.
    - apply lift_Ret in Hfirst as ([=] & _). }
  apply bindM_Ret in H as (empty & h1 & He & H). apply new_Ret in He as (-> & ->).
  apply bindM_Ret in H as (filtered & h2 & Hred & H).
  apply (reduce_fresh _ h) in Hred as (Hpre & Hfresh);
    [| |apply snoc_fresh|reflexivity].
  - apply ofVariations_at_Ret in H as (g & -> & ->).
    apply fresh_bundle_intro; [|exact Hfresh].
    etrans; [apply snoc_fresh|exact Hpre].
  - clear. intros localTypes name h s' h' H.
    apply bindM_Ret in H as (localType & h1 & Hl & H).
    apply bindM_Ret in Hl as (t & h2 & Ht & Hl).
    apply table_of_Ret in Ht as (_ & ->). apply read_table_Ret in Hl as (_ & ->).
    apply bindM_Ret in H as (emptyType & h1 & He & H). apply new_Ret in He as (-> & ->).
    apply bindM_Ret in H as (filteredType & h2 & Hred & H).
    apply reduce_grows in Hred;
      [|intros s k h3 s1 h4; apply variation_step_grows].
    apply bindM_Ret in H as (local & h3 & Hl & H).
    apply read_types_Ret in Hl as (_ & ->).
    apply new_Ret in H as (-> & ->).
    assert (Hh : h `prefix_of` h2) by (etrans; [apply snoc_fresh|exact Hred]).
    split; [etrans; [exact Hh|apply snoc_fresh]|].
    right. apply prefix_length, Hh.
Qed.

(** C9: [pick], [omit], [merge] and [omitVariations] do not mutate: when
    one of them returns, every object of the store it started from, the
    input bundles and their [types] objects among them, is unchanged, and
    the bundle it returns is a new object that refers to a new [types]
    object. *)
Theorem schema_algebra_pure (h : heap) :
  (forall union onlyKeys r, pick union onlyKeys h = Ret r -> fresh_bundle h r) /\
  (forall union omittedKeys r, omit union omittedKeys h = Ret r -> fresh_bundle h r) /\
  (forall union1 union2 r, merge union1 union2 h = Ret r -> fresh_bundle h r) /\
  (forall union omittedVariations r,
      omitVariations union omittedVariations h = Ret r -> fresh_bundle h r).
Proof.
  split; [exact (fun u ks r => pick_pure u ks h r)|].
  split; [exact (fun u ks r => omit_pure u ks h r)|].
  split; [exact (fun u1 u2 r => merge_pure u1 u2 h r)|].
  exact (fun u vs r => omitVariations_pure u vs h r).
Qed.

(** ** Running the schema algebra *)

Lemma forEach_invariant {K S : Type} (I : S -> Prop) (f : K -> S -> outcome S)
    l s s' :
  (forall k s0 s1, I s0 -> f k s0 = Ret s1 -> I s1) ->
  I s -> forEach f l s = Ret s' -> I s'.
Proof.
  intros Hf. revert s. induction l as [|k l IH]; intros s Hs H.
  - injection H as <-. exact Hs.
  - rewrite forEach_cons in H. inv_bind H. eapply IH; [|exact H].
    eapply Hf; eassumption.
Qed.

Lemma forEach_lookup_frame {V : Type}
    (f : string -> gmap string V -> outcome (gmap string V)) l
    (m0 m : gmap string V) k :
  (forall x acc acc', x <> k -> f x acc = Ret acc' -> acc' !! k = acc !! k) ->
  k ∉ l -> forEach f l m0 = Ret m -> m !! k = m0 !! k.
Proof.
  intros Hf. revert m0. induction l as [|x l IH]; intros m0 Hk H.
  - injection H as <-. reflexivity.
  - rewrite forEach_cons in H. inv_bind H.
    rewrite (IH a); [|intros Hin; apply Hk; right; exact Hin|exact H].
    apply (Hf x); [|exact Ha]. intros ->. apply Hk. left.
Qed.

(** The sub-objects of a bundle sit under names and variations only. *)
Lemma forTypes_lookup_None names variations (ofsT : gmap string constructor) forT k :
  forTypes names variations ofsT = Ret forT -> k ∉ names -> forT !! k = None.
Proof.
  intros H Hk. unfold forTypes in H.
  eapply forEach_lookup_frame in H; [rewrite H; apply lookup_empty| |exact Hk].
  intros x acc acc' Hne Hstep. cbv beta zeta in Hstep. inv_bind Hstep.
  revert Hstep. apply (forEach_invariant (fun d => d !! k = acc !! k)).
  - intros v d0 d1 Hd [= <-]. rewrite lookup_alter_ne by exact Hne. exact Hd.
  - apply lookup_insert_ne. exact Hne.
Qed.

Lemma forVariations_lookup_None names variations (ofsV : gmap string constructor)
    forV k :
  forVariations names variations ofsV = Ret forV -> k ∉ variations -> forV !! k = None.
Proof.
  intros H Hk. unfold forVariations in H.
  eapply forEach_lookup_frame in H; [rewrite H; apply lookup_empty| |exact Hk].
  intros x acc acc' Hne Hstep. cbv beta zeta in Hstep.
  revert Hstep. apply (forEach_invariant (fun d => d !! k = acc !! k)).
  - intros n d0 d1 Hd Hstep. inv_bind Hstep. injection Hstep as <-.
    rewrite lookup_alter_ne by exact Hne. exact Hd.
  - apply lookup_insert_ne. exact Hne.
Qed.

Lemma bundle_lookup_types {T : Type} (types : T) names variations g :
  constants names variations = Ret g ->
  "types" ∉ names -> "types" ∉ variations ->
  bundle types g !! "types" = Some (ATypes types).
Proof.
  intros Hgen Hn Hv.
  destruct (constants_Ret _ _ _ Hgen) as (_ & _ & _ & _ & _ & _ & HT & HV).
  unfold bundle, UnionAPI. cbv zeta.
  rewrite (lookup_union_r (M := gmap string)); [apply lookup_insert_eq|].
  apply (lookup_union_None_2 (M := gmap string)); rewrite lookup_fmap.
  - rewrite (forVariations_lookup_None _ _ _ _ _ HV Hv). reflexivity.
  - rewrite (forTypes_lookup_None _ _ _ _ _ HT Hn). reflexivity.
Qed.

Lemma bindM_eq {A B : Type} (c : M A) (k : A -> M B) h a h1 :
  c h = Ret (a, h1) -> bindM c k h = k a h1.
Proof. unfold bindM. intros ->. reflexivity. Qed.

Lemma types_of_eval union h api t :
  h !! union = Some (CBundle api) ->
  api !! "types" = Some (ATypes t) ->
  types_of union h = Ret (t, h).
Proof.
  intros Hu Ht. unfold types_of, read, bindM. rewrite Hu, Ht. reflexivity.
Qed.

Lemma read_types_eval l h fields :
  h !! l = Some (CTypes fields) -> read_types l h = Ret (fields, h).
Proof. intros Hl. unfold read_types, read, bindM. rewrite Hl. reflexivity. Qed.

Lemma read_table_eval l h t :
  h !! l = Some (CTable t) -> read_table l h = Ret (t, h).
Proof. intros Hl. unfold read_table, read, bindM. rewrite Hl. reflexivity. Qed.

Lemma first_field {A : Type} n0 (t0 : A) rest :
  head (object_keys ((n0, t0) :: rest)) ≫= field ((n0, t0) :: rest) = Some t0.
Proof.
  change (field ((n0, t0) :: rest) n0 = Some t0). cbn [field].
  rewrite bool_decide_eq_true_2 by reflexivity. reflexivity.
Qed.

Lemma ofVariations_at_total types h n0 t0 rest tbl :
  h !! types = Some (CTypes ((n0, t0) :: rest)) ->
  h !! t0 = Some (CTable tbl) ->
  assignable (n0 :: object_keys rest) -> assignable (object_keys tbl) ->
  exists g,
    constants (n0 :: object_keys rest) (object_keys tbl) = Ret g /\
    ofVariations_at types h
    = Ret (length h, (h ++ [CBundle (bundle types g)])%list).
Proof.
  intros Htypes Htable Hn Hv. destruct (constants_total _ _ Hn Hv) as [g Hg].
  exists g. split; [exact Hg|].
  unfold ofVariations_at.
  rewrite (bindM_eq _ _ _ _ _ (read_types_eval _ _ _ Htypes)).
  rewrite first_field.
  rewrite (bindM_eq _ _ _ _ _ (read_table_eval _ _ _ Htable)).
  unfold generate.
  change (object_keys ((n0, t0) :: rest)) with (n0 :: object_keys rest).
  rewrite Hg. reflexivity.
Qed.

(** Running an operation of the algebra on a concrete store: the reads,
    the allocations and the loops are evaluated, the generation at the
    end returns because the keys are assignable. *)
Ltac run_store :=
  repeat first
    [ erewrite bindM_eq by reflexivity
    | progress cbn [reduce object_keys fmap list_fmap fst] ];
  match goal with
  | |- exists r, ofVariations_at ?types ?h = Ret r =>
      let g := fresh "g" in
      let E := fresh "E" in
      edestruct (ofVariations_at_total types h) as (g & _ & E);
      [reflexivity | reflexivity | by_computation | by_computation |];
      eexists; exact E
  end.

Lemma schema_algebra_pure_witness :
  exists g,
    closure [("One", [("var1", VUndefined); ("var2", VUndefined)]);
             ("Two", [("var1", VUndefined); ("var2", VUndefined)])] = Ret g /\
    let t := [("var1", VUndefined); ("var2", VUndefined)] in
    let h0 := [CTable t; CTable t; CTypes [("One", 0); ("Two", 1)];
               CBundle (bundle 2 g)] in
    (exists r, pick 3 ["One"] h0 = Ret r /\ fresh_bundle h0 r) /\
    (exists r, omit 3 ["One"] h0 = Ret r /\ fresh_bundle h0 r) /\
    (exists r, merge 3 3 h0 = Ret r /\ fresh_bundle h0 r) /\
    (exists r, omitVariations 3 ["var1"] h0 = Ret r /\ fresh_bundle h0 r).
Proof.
  destruct (constants_total ["One"; "Two"] ["var1"; "var2"]) as [g E];
    [by_computation..|].
  exists g. split; [rewrite closure_cons; exact E|].
  intros t h0.
  assert (Htypes : types_of 3 h0 = Ret (2, h0)).
  { apply (types_of_eval 3 h0 (bundle 2 g) 2 eq_refl).
    apply (bundle_lookup_types 2 _ _ g E); by_computation. }
  destruct (schema_algebra_pure h0) as (Hpick & Homit & Hmerge & HomitV).
  assert (Rpick : exists r, pick 3 ["One"] h0 = Ret r).
  { unfold pick. rewrite (bindM_eq _ _ _ _ _ Htypes). run_store. }
  assert (Romit : exists r, omit 3 ["One"] h0 = Ret r).
  { unfold omit. rewrite (bindM_eq _ _ _ _ _ Htypes). run_store. }
  assert (Rmerge : exists r, merge 3 3 h0 = Ret r).
  { unfold merge. rewrite (bindM_eq _ _ _ _ _ Htypes).
    erewrite bindM_eq by reflexivity.
    rewrite (bindM_eq _ _ _ _ _ Htypes). run_store. }
  assert (RomitV : exists r, omitVariations 3 ["var1"] h0 = Ret r).
  { unfold omitVariations. rewrite (bindM_eq _ _ _ _ _ Htypes). run_store. }
  destruct Rpick as [r1 R1], Romit as [r2 R2], Rmerge as [r3 R3],
    RomitV as [r4 R4].
  split; [exists r1; split; [exact R1|exact (Hpick _ _ _ R1)]|].
  split; [exists r2; split; [exact R2|exact (Homit _ _ _ R2)]|].
  split; [exists r3; split; [exact R3|exact (Hmerge _ _ _ R3)]|].
  exists r4. split; [exact R4|exact (HomitV _ _ _ R4)].
Defined.

(** ** The scoped isomorphisms of a Name *)

Lemma lenses_iso i : lenses i !! "iso" = Some (OIso i).
Proof. apply lookup_insert_eq. Qed.

Lemma lenses_lensFromProp i : lenses i !! "lensFromProp" = Some (OLensFromProp i).
Proof.
  unfold lenses. rewrite lookup_insert_ne by discriminate. apply lookup_insert_eq.
Qed.

(** The key of the bundle that a Name which is no Variation key gives:
    the sub-object [forTypes] built for it. *)
Lemma bundle_lookup_name {T : Type} (types : T) names variations g n sc :
  constants names variations = Ret g ->
  n ∉ variations ->
  c_forTypes g !! n = Some sc ->
  bundle types g !! n = Some (AScope sc).
Proof.
  intros Hgen Hnv Hsc.
  destruct (constants_Ret _ _ _ Hgen) as (_ & _ & _ & _ & _ & _ & _ & HfV).
  unfold bundle, UnionAPI. cbv zeta.
  apply (lookup_union_Some_l (M := gmap string)).
  rewrite (lookup_union_r (M := gmap string)).
  - rewrite lookup_fmap, Hsc. reflexivity.
  - rewrite lookup_fmap, (forVariations_lookup_None _ _ _ _ _ HfV Hnv).
    reflexivity.
Qed.

(** C5 (amended): for a Name [n] that is not also a Variation key and a
    Variation [v], the bundle holds under [n] the sub-object of [n], that
    sub-object holds under [v] an object whose member [iso] works on the
    bare payload, with no [_tag] or [_variation] wrapping: its [get]
    returns the payload of an entity built by the fully scoped
    constructor [of[n][v]] as it is, its [reverseGet] is that
    constructor, so [get(reverseGet(p))] is [p] for every payload [p] and
    [reverseGet(get(e))] is [e] for every entity [e = of[n][v](p)]. *)
Theorem scoped_iso_round_trip names variations g n v :
  constants names variations = Ret g ->
  n ∈ names -> v ∈ variations -> n ∉ variations ->
  exists byName scoped sc slice i,
    fprops (c_ofAll g) !! n = Some byName /\
    fprops byName !! v = Some scoped /\
    c_forTypes g !! n = Some sc /\
    (forall (T : Type) (types : T), bundle types g !! n = Some (AScope sc)) /\
    sc !! v = Some (MLenses slice) /\
    slice !! "iso" = Some (OIso i) /\
    (forall p, get i (scoped [p]) = Ret p) /\
    (forall p, reverseGet i p = Ret (scoped [p])) /\
    (forall p, (e ← reverseGet i p; get i e) = Ret p) /\
    (forall p, (a ← get i (scoped [p]); reverseGet i a) = Ret (scoped [p])).
Proof.
  intros Hgen Hn Hv Hnv.
  destruct (name_scoped_constructor _ _ _ Hgen n Hn)
    as (ctor & Hlook & Hof & _ & Hprops).
  destruct (constants_Ret _ _ _ Hgen) as (_ & _ & _ & _ & _ & _ & Hfor & _).
  destruct (forTypes_lookup _ _ _ _ n Hfor Hn) as (ctor' & sc & Hctor' & Hsc & Hslice).
  pose proof (eq_trans (eq_sym Hctor') Hlook) as Heq. injection Heq as ->.
  specialize (Hprops v Hv). specialize (Hslice v Hv).
  exists ctor, (fun args => opaque (VStr n) (VStr v) (arg 0 args)), sc.
  eexists. eexists. split; [exact (Hof Hnv)|]. split; [exact Hprops|].
  split; [exact Hsc|].
  split; [intros T types; exact (bundle_lookup_name types _ _ _ _ _ Hgen Hnv Hsc)|].
  split; [exact Hslice|]. split; [apply lenses_iso|].
  cbn [get reverseGet]. unfold constructor, jsfun in *.
  rewrite Hprops. cbn [call1 arg nth].
  split; [intros p; apply get_prop_opaque_value|].
  split; [reflexivity|]. split.
  - intros p. rewrite bind_Ret_l. apply get_prop_opaque_value.
  - intros p. rewrite get_prop_opaque_value, bind_Ret_l. reflexivity.
Qed.

Lemma scoped_iso_round_trip_witness :
  exists g,
    closure [("One", [("var1", VUndefined); ("var2", VUndefined)]);
             ("Two", [("var1", VUndefined); ("var2", VUndefined)])] = Ret g /\
    exists byName scoped sc slice i,
      fprops (c_ofAll g) !! "Two" = Some byName /\
      fprops byName !! "var1" = Some scoped /\
      c_forTypes g !! "Two" = Some sc /\
      (forall (T : Type) (types : T), bundle types g !! "Two" = Some (AScope sc)) /\
      sc !! "var1" = Some (MLenses slice) /\
      slice !! "iso" = Some (OIso i) /\
      (forall p, get i (scoped [p]) = Ret p) /\
      (forall p, reverseGet i p = Ret (scoped [p])) /\
      (forall p, (e ← reverseGet i p; get i e) = Ret p) /\
      (forall p, (a ← get i (scoped [p]); reverseGet i a) = Ret (scoped [p])).
Proof.
  destruct (constants_total ["One"; "Two"] ["var1"; "var2"]) as [g E];
    [by_computation..|].
  exists g. split; [rewrite closure_cons; exact E|].
  apply (scoped_iso_round_trip _ _ g "Two" "var1" E); by_computation.
Defined.

(** C5, a schema on which the claim as stated fails: in the schema
    [{A: {A, B}, B: {A, B}}] the key [A] of [of] holds the constructor
    scoped to the variation [A], so [of.A.B(1)] is the entity of the name
    [B] and the variation [A]; the isomorphism of the name [A] and the
    variation [B] takes its payload and builds the entity of the name
    [A] and the variation [B], another entity. *)
Lemma scoped_iso_collides :
  exists g byName scoped sc slice i,
    closure [("A", [("A", VUndefined); ("B", VUndefined)]);
             ("B", [("A", VUndefined); ("B", VUndefined)])] = Ret g /\
    fprops (c_ofAll g) !! "A" = Some byName /\
    fprops byName !! "B" = Some scoped /\
    c_forTypes g !! "A" = Some sc /\
    sc !! "B" = Some (MLenses slice) /\
    slice !! "iso" = Some (OIso i) /\
    scoped [VNum 1] = opaque (VStr "B") (VStr "A") (VNum 1) /\
    (a ← get i (scoped [VNum 1]); reverseGet i a)
    = Ret (opaque (VStr "A") (VStr "B") (VNum 1)) /\
    (a ← get i (scoped [VNum 1]); reverseGet i a) <> Ret (scoped [VNum 1]).
Proof.
  destruct (constants_total ["A"; "B"] ["A"; "B"]) as [g E]; [by_computation..|].
  destruct (variation_scoped_constructor _ _ g E "A")
    as (byName & _ & Hof & _ & HpropsV); [by_computation|].
  destruct (name_scoped_constructor _ _ g E "A")
    as (ctor & Hlook & _ & _ & HpropsT); [by_computation|].
  destruct (constants_Ret _ _ _ E) as (_ & _ & _ & _ & _ & _ & Hfor & _).
  destruct (forTypes_lookup _ _ _ _ "A" Hfor) as (ctor' & sc & Hctor' & Hsc & Hslice);
    [by_computation|].
  pose proof (eq_trans (eq_sym Hctor') Hlook) as Heq. injection Heq as ->.
  specialize (HpropsV "B" ltac:(by_computation)).
  specialize (HpropsT "B" ltac:(by_computation)).
  specialize (Hslice "B" ltac:(by_computation)).
  exists g, byName, (fun args => opaque (VStr "B") (VStr "A") (arg 0 args)), sc.
  eexists. eexists. split; [rewrite closure_cons; exact E|].
  split; [exact Hof|]. split; [exact HpropsV|]. split; [exact Hsc|].
  split; [exact Hslice|]. split; [apply lenses_iso|].
  cbn [get reverseGet]. unfold constructor, jsfun in *.
  rewrite HpropsT. cbn [call1 arg nth].
  split; [reflexivity|].
  rewrite get_prop_opaque_value, bind_Ret_l.
  split; [reflexivity|].
  intros H. apply Ret_inj, opaque_inj in H as (H & _). discriminate.
Qed.

(** * Further properties of the generated code *)

(** ** What the guards look at *)

(** No index of an array or of a string starts with an underscore. *)
Lemma pretty_N_go_ne_underscore x s s' :
  s <> String "_"%char s' -> pretty_N_go x s <> String "_"%char s'.
Proof.
  revert s. induction (N.lt_wf_0 x) as [x _ IH]; intros s Hs.
  assert (x = 0 \/ 0 < x)%N as [->|Hx] by lia.
  - rewrite pretty_N_go_0. exact Hs.
  - rewrite pretty_N_go_step by exact Hx. apply IH.
    + apply N.div_lt; [exact Hx|reflexivity].
    + unfold pretty_N_char. repeat case_match; discriminate.
Qed.

Lemma pretty_nat_ne_underscore (i : nat) s' : pretty i <> String "_"%char s'.
Proof.
  unfold pretty, pretty_nat, pretty, pretty_N.
  destruct (decide (N.of_nat i = 0%N)); [discriminate|].
  apply pretty_N_go_ne_underscore. discriminate.
Qed.

Lemma index_fields_underscore l s' : index_fields l !! String "_"%char s' = None.
Proof.
  unfold index_fields. apply not_elem_of_list_to_map_1.
  intros Hin. apply list_elem_of_fmap in Hin as ([k x] & Hk & Hin).
  apply elem_of_lookup_imap in Hin as (i & y & Heq & _).
  injection Heq as -> _. cbn [fst] in Hk.
  exact (pretty_nat_ne_underscore i s' (eq_sym Hk)).
Qed.

Lemma strict_eq_str_true x s : strict_eq_str x s = true <-> x = VStr s.
Proof.
  unfold strict_eq_str. destruct x; try (split; [discriminate|intros [=]]).
  rewrite bool_decide_eq_true. split; [intros ->; reflexivity|intros [= ->]; reflexivity].
Qed.

Lemma includes_true l x : includes l x = true <-> exists s, x = VStr s /\ s ∈ l.
Proof.
  unfold includes. destruct x;
    try (split; [discriminate|intros (s0 & [=] & _)]).
  rewrite bool_decide_eq_true. split.
  - intros Hs. exists s. split; [reflexivity|exact Hs].
  - intros (s0 & [= ->] & Hs). exact Hs.
Qed.

Lemma default_undefined_str (o : option value) s :
  default VUndefined o = VStr s <-> o = Some (VStr s).
Proof.
  destruct o as [x|]; cbn [default from_option id].
  - split; [intros ->; reflexivity|intros [= ->]; reflexivity].
  - split; discriminate.
Qed.

(** The shape every guard asks for: a plain object whose marker is the
    string [__OPAQUE__] and that has the two tag properties. *)
Lemma opaque_shaped_true thing :
  opaque_shaped thing = Ret true <->
  exists fields,
    thing = VObj fields /\
    fields !! "__OPAQUE__" = Some (VStr "__OPAQUE__") /\
    is_Some (fields !! "__OPAQUE_KEY__") /\
    is_Some (fields !! "__OPAQUE_VARIATION__").
Proof.
  split.
  - destruct thing as [| |b|z|s|f a|items|fields]; try discriminate.
    + unfold opaque_shaped, has_prop.
      rewrite bool_decide_eq_true_2 by reflexivity. cbn [negb].
      rewrite (index_fields_underscore items "_OPAQUE__"), bind_Ret_l.
      rewrite (bool_decide_eq_false_2 ("__OPAQUE__" = "length")) by discriminate.
      rewrite (bool_decide_eq_false_2 (is_Some None)) by (intros [? [=]]).
      discriminate.
    + unfold opaque_shaped, has_prop, get_prop.
      rewrite bool_decide_eq_true_2 by reflexivity. cbn [negb].
      rewrite !bind_Ret_l. intros H. exists fields. split; [reflexivity|].
      destruct (bool_decide (is_Some (fields !! "__OPAQUE__"))); [|discriminate].
      cbn [negb] in H.
      destruct (strict_eq_str (default VUndefined (fields !! "__OPAQUE__"))
                  "__OPAQUE__") eqn:Hm; [|discriminate].
      apply strict_eq_str_true, default_undefined_str in Hm. cbn [negb] in H.
      destruct (bool_decide (is_Some (fields !! "__OPAQUE_KEY__"))) eqn:Hk;
        [|discriminate].
      cbn [negb] in H. injection H as Hv.
      apply bool_decide_eq_true in Hk, Hv. auto.
  - intros (fields & -> & Hm & Hk & Hv).
    unfold opaque_shaped, has_prop, get_prop.
    rewrite bool_decide_eq_true_2 by reflexivity. cbn [negb].
    rewrite Hm, bind_Ret_l. cbn [default from_option id].
    rewrite (bool_decide_eq_true_2 (is_Some (Some _))) by eauto. cbn [negb].
    rewrite bind_Ret_l. cbn [strict_eq_str].
    rewrite bool_decide_eq_true_2 by reflexivity. cbn [negb].
    rewrite bind_Ret_l, (bool_decide_eq_true_2 _ Hk). cbn [negb].
    rewrite (bool_decide_eq_true_2 _ Hv). reflexivity.
Qed.

(** All five guards read two tags after the common shape test. *)
Lemma guard_true thing (k1 k2 : string) (t1 t2 : value -> bool) :
  (ok ← opaque_shaped thing;
   if negb ok then Ret false
   else x ← get_prop thing k1;
        if negb (t1 x) then Ret false
        else y ← get_prop thing k2;
             if t2 y then Ret true else Ret false) = Ret true <->
  exists fields,
    thing = VObj fields /\
    fields !! "__OPAQUE__" = Some (VStr "__OPAQUE__") /\
    is_Some (fields !! "__OPAQUE_KEY__") /\
    is_Some (fields !! "__OPAQUE_VARIATION__") /\
    t1 (default VUndefined (fields !! k1)) = true /\
    t2 (default VUndefined (fields !! k2)) = true.
Proof.
  split.
  - intros H. inv_bind H. destruct a; cbn [negb] in H; [|discriminate].
    apply opaque_shaped_true in Ha as (fields & -> & Hm & Hk & Hv).
    exists fields. cbn [get_prop] in H. rewrite bind_Ret_l in H.
    destruct (t1 (default VUndefined (fields !! k1))); cbn [negb] in H;
      [|discriminate].
    rewrite bind_Ret_l in H.
    destruct (t2 (default VUndefined (fields !! k2))); [|discriminate].
    auto 10.
  - intros (fields & -> & Hm & Hk & Hv & H1 & H2).
    rewrite (proj2 (opaque_shaped_true (VObj fields))), bind_Ret_l by eauto 10.
    cbn [negb get_prop]. rewrite bind_Ret_l, H1. cbn [negb].
    rewrite bind_Ret_l, H2. reflexivity.
Qed.

Lemma is_name_variation_true n v thing :
  is_name_variation n v thing = Ret true <->
  exists fields,
    thing = VObj fields /\
    fields !! "__OPAQUE__" = Some (VStr "__OPAQUE__") /\
    fields !! "__OPAQUE_KEY__" = Some (VStr n) /\
    fields !! "__OPAQUE_VARIATION__" = Some (VStr v).
Proof.
  unfold is_name_variation.
  rewrite (guard_true thing "__OPAQUE_KEY__" "__OPAQUE_VARIATION__"
             (fun key => strict_eq_str key n) (fun var => strict_eq_str var v)).
  split.
  - intros (fields & -> & Hm & _ & _ & Hk & Hv).
    apply strict_eq_str_true, default_undefined_str in Hk, Hv. eauto 10.
  - intros (fields & -> & Hm & Hk & Hv). exists fields.
    rewrite Hk, Hv. cbn [default from_option id strict_eq_str].
    rewrite !bool_decide_eq_true_2 by reflexivity. eauto 10.
Qed.

Lemma is_name_true variations n thing :
  is_name variations n thing = Ret true <->
  exists fields v,
    thing = VObj fields /\
    fields !! "__OPAQUE__" = Some (VStr "__OPAQUE__") /\
    fields !! "__OPAQUE_KEY__" = Some (VStr n) /\
    fields !! "__OPAQUE_VARIATION__" = Some (VStr v) /\
    v ∈ variations.
Proof.
  unfold is_name.
  rewrite (guard_true thing "__OPAQUE_KEY__" "__OPAQUE_VARIATION__"
             (fun key => strict_eq_str key n) (includes variations)).
  split.
  - intros (fields & -> & Hm & _ & _ & Hk & Hv).
    apply strict_eq_str_true, default_undefined_str in Hk.
    apply includes_true in Hv as (v & Hv & Hin).
    apply default_undefined_str in Hv. eauto 10.
  - intros (fields & v & -> & Hm & Hk & Hv & Hin). exists fields.
    rewrite Hk, Hv. cbn [default from_option id strict_eq_str includes].
    rewrite !bool_decide_eq_true_2 by (reflexivity || assumption). eauto 10.
Qed.

Lemma is_variation_true names v thing :
  is_variation names v thing = Ret true <->
  exists fields n,
    thing = VObj fields /\
    fields !! "__OPAQUE__" = Some (VStr "__OPAQUE__") /\
    fields !! "__OPAQUE_KEY__" = Some (VStr n) /\
    fields !! "__OPAQUE_VARIATION__" = Some (VStr v) /\
    n ∈ names.
Proof.
  unfold is_variation.
  rewrite (guard_true thing "__OPAQUE_VARIATION__" "__OPAQUE_KEY__"
             (fun var => strict_eq_str var v) (includes names)).
  split.
  - intros (fields & -> & Hm & _ & _ & Hv & Hk).
    apply strict_eq_str_true, default_undefined_str in Hv.
    apply includes_true in Hk as (n & Hk & Hin).
    apply default_undefined_str in Hk. eauto 10.
  - intros (fields & n & -> & Hm & Hk & Hv & Hin). exists fields.
    rewrite Hk, Hv. cbn [default from_option id strict_eq_str includes].
    rewrite !bool_decide_eq_true_2 by (reflexivity || assumption). eauto 10.
Qed.

Lemma is_any_true names variations thing :
  is_any names variations thing = Ret true <->
  exists fields n v,
    thing = VObj fields /\
    fields !! "__OPAQUE__" = Some (VStr "__OPAQUE__") /\
    fields !! "__OPAQUE_KEY__" = Some (VStr n) /\
    fields !! "__OPAQUE_VARIATION__" = Some (VStr v) /\
    n ∈ names /\ v ∈ variations.
Proof.
  unfold is_any.
  rewrite (guard_true thing "__OPAQUE_KEY__" "__OPAQUE_VARIATION__"
             (includes names) (includes variations)).
  split.
  - intros (fields & -> & Hm & _ & _ & Hk & Hv).
    apply includes_true in Hk as (n & Hk & Hn).
    apply includes_true in Hv as (v & Hv & Hin).
    apply default_undefined_str in Hk, Hv. eauto 10.
  - intros (fields & n & v & -> & Hm & Hk & Hv & Hn & Hin). exists fields.
    rewrite Hk, Hv. cbn [default from_option id includes].
    rewrite !bool_decide_eq_true_2 by assumption. eauto 10.
Qed.

(** X3: on a plain object the global guard returns a boolean, and it
    returns [true] exactly when the object's marker is the string
    [__OPAQUE__], its name tag is a Name of the schema and its variation
    tag is a Variation: it never looks at the payload, which may even be
    missing, nor at any other property. *)
Theorem global_guard_reads_tags_only names variations g
    (fields : gmap string value) :
  constants names variations = Ret g ->
  returns (fcall (c_isAll g) (VObj fields)) /\
  (fcall (c_isAll g) (VObj fields) = Ret true <->
   fields !! "__OPAQUE__" = Some (VStr "__OPAQUE__") /\
   exists n v,
     fields !! "__OPAQUE_KEY__" = Some (VStr n) /\
     fields !! "__OPAQUE_VARIATION__" = Some (VStr v) /\
     n ∈ names /\ v ∈ variations).
Proof.
  intros Hgen. rewrite (is_call _ _ _ Hgen). split.
  - apply is_any_returns. discriminate.
  - rewrite is_any_true. split.
    + intros (fields' & n & v & [= <-] & Hm & Hk & Hv & Hn & Hin). eauto 10.
    + intros (Hm & n & v & Hk & Hv & Hn & Hin). eauto 10.
Qed.

Lemma global_guard_reads_tags_only_witness :
  exists g,
    closure [("One", [("default", VUndefined)])] = Ret g /\
    let fields : gmap string value :=
      <["__OPAQUE__" := VStr "__OPAQUE__"]>
      (<["__OPAQUE_KEY__" := VStr "One"]>
      (<["__OPAQUE_VARIATION__" := VStr "default"]>
      (<["extra" := VNum 1]> ∅))) in
    fcall (c_isAll g) (VObj fields) = Ret true.
Proof.
  destruct (constants_total ["One"] ["default"]) as [g E]; [by_computation..|].
  exists g. split; [rewrite closure_cons; exact E|].
  intros fields.
  apply (proj2 (global_guard_reads_tags_only _ _ g fields E)).
  split; [apply lookup_insert_eq|].
  exists "One", "default".
  split; [unfold fields; rewrite lookup_insert_ne by discriminate;
          apply lookup_insert_eq|].
  split; [unfold fields; rewrite !lookup_insert_ne by discriminate;
          apply lookup_insert_eq|].
  split; by_computation.
Defined.

(** X4: what a dispatch over the guards relies on.  The global guard
    accepts a value exactly when the guard of one Name and one Variation
    does; the guard of a Name, or of a Variation, accepts it exactly when
    one of the fully scoped guards below it does; and no value is accepted
    by the fully scoped guards of two different pairs. *)
Theorem guards_partition names variations thing :
  (is_any names variations thing = Ret true <->
   exists n v, n ∈ names /\ v ∈ variations /\
               is_name_variation n v thing = Ret true) /\
  (forall n, is_name variations n thing = Ret true <->
             exists v, v ∈ variations /\ is_name_variation n v thing = Ret true) /\
  (forall v, is_variation names v thing = Ret true <->
             exists n, n ∈ names /\ is_name_variation n v thing = Ret true) /\
  (forall n v n' v',
      is_name_variation n v thing = Ret true ->
      is_name_variation n' v' thing = Ret true ->
      n = n' /\ v = v').
Proof.
  split; [|split; [|split]].
  - rewrite is_any_true. split.
    + intros (fields & n & v & -> & Hm & Hk & Hv & Hn & Hin).
      exists n, v. split; [exact Hn|]. split; [exact Hin|].
      apply is_name_variation_true. eauto 10.
    + intros (n & v & Hn & Hin & H).
      apply is_name_variation_true in H as (fields & -> & Hm & Hk & Hv).
      eauto 10.
  - intros n. rewrite is_name_true. split.
    + intros (fields & v & -> & Hm & Hk & Hv & Hin).
      exists v. split; [exact Hin|]. apply is_name_variation_true. eauto 10.
    + intros (v & Hin & H).
      apply is_name_variation_true in H as (fields & -> & Hm & Hk & Hv).
      eauto 10.
  - intros v. rewrite is_variation_true. split.
    + intros (fields & n & -> & Hm & Hk & Hv & Hin).
      exists n. split; [exact Hin|]. apply is_name_variation_true. eauto 10.
    + intros (n & Hin & H).
      apply is_name_variation_true in H as (fields & -> & Hm & Hk & Hv).
      eauto 10.
  - intros n v n' v' H H'.
    apply is_name_variation_true in H as (fields & -> & _ & Hk & Hv).
    apply is_name_variation_true in H' as (fields' & [= <-] & _ & Hk' & Hv').
    split; congruence.
Qed.

(** X5: the scoped guards share the first two tests of the global one, and
    with them its behaviour on [null]: the guard of a Name, of a Variation
    and of a Name and a Variation throw a [TypeError] on [null], and
    return a boolean on every other value. *)
Theorem scoped_guards_throw_on_null names variations n v :
  is_name variations n VNull = Throw TypeError /\
  is_variation names v VNull = Throw TypeError /\
  is_name_variation n v VNull = Throw TypeError /\
  forall thing, thing <> VNull ->
    returns (is_name variations n thing) /\
    returns (is_variation names v thing) /\
    returns (is_name_variation n v thing).
Proof.
  split; [reflexivity|]. split; [reflexivity|]. split; [reflexivity|].
  intros thing Hnull.
  destruct (opaque_shaped_returns thing Hnull) as [ok Hok].
  unfold is_name, is_variation, is_name_variation. rewrite Hok, !bind_Ret_l.
  destruct ok; cbn [negb]; [|repeat split; apply returns_Ret].
  apply opaque_shaped_object in Hok.
  repeat split; returns_steps Hok Hnull.
Qed.

(** X6: membership is decided by the tags alone, whichever bundle built
    the entity: the global guard of a bundle accepts [of(n, v, p)] of any
    bundle, its own included, exactly when [n] is one of its Names and [v]
    one of its Variations.  The constructor [of] itself checks nothing. *)
Theorem membership_is_decided_by_tags
    names1 variations1 g1 names2 variations2 g2 (n v : string) p :
  constants names1 variations1 = Ret g1 ->
  constants names2 variations2 = Ret g2 ->
  fcall (c_isAll g2) (fcall (c_ofAll g1) [VStr n; VStr v; p])
  = Ret (bool_decide (n ∈ names2) && bool_decide (v ∈ variations2)).
Proof.
  intros Hg1 Hg2. rewrite (of_call _ _ _ Hg1), (is_call _ _ _ Hg2).
  cbn [arg nth]. apply is_any_opaque.
Qed.

Lemma membership_is_decided_by_tags_witness :
  exists g1 g2,
    closure [("One", [("var1", VUndefined); ("var2", VUndefined)])] = Ret g1 /\
    closure [("One", [("var1", VUndefined)])] = Ret g2 /\
    fcall (c_isAll g2) (fcall (c_ofAll g1) [VStr "One"; VStr "var2"; VNum 1])
    = Ret false /\
    fcall (c_isAll g2) (fcall (c_ofAll g1) [VStr "One"; VStr "var1"; VNum 1])
    = Ret true.
Proof.
  destruct (constants_total ["One"] ["var1"; "var2"]) as [g1 E1];
    [by_computation..|].
  destruct (constants_total ["One"] ["var1"]) as [g2 E2]; [by_computation..|].
  exists g1, g2. split; [rewrite closure_cons; exact E1|].
  split; [rewrite closure_cons; exact E2|].
  rewrite !(membership_is_decided_by_tags _ _ g1 _ _ g2 _ _ _ E1 E2).
  split; reflexivity.
Defined.

(** ** When generation returns *)

Lemma forEach_throws {K S : Type} (f : K -> S -> outcome S) l s e :
  (forall k s0 e0, f k s0 = Throw e0 -> e0 = TypeError) ->
  forEach f l s = Throw e -> e = TypeError.
Proof.
  intros Hf. revert s. induction l as [|k l IH]; intros s H; [discriminate|].
  rewrite forEach_cons in H. destruct (f k s) as [s1|e1] eqn:Hk.
  - rewrite bind_Ret_l in H. exact (IH _ H).
  - injection H as <-. exact (Hf _ _ _ Hk).
Qed.

Lemma bind_throws {A B : Type} (c : outcome A) (k : A -> outcome B) e :
  (forall e0, c = Throw e0 -> e0 = TypeError) ->
  (forall a e0, k a = Throw e0 -> e0 = TypeError) ->
  (c ≫= k) = Throw e -> e = TypeError.
Proof.
  intros Hc Hk. destruct c as [a|e1].
  - rewrite bind_Ret_l. apply Hk.
  - intros [= <-]. apply Hc. reflexivity.
Qed.

Lemma fobj_assign_throws {C P : Type} k (x : option P) (f : fobj C P) e :
  fobj_assign k x f = Throw e -> e = TypeError.
Proof.
  unfold fobj_assign. destruct (bool_decide (k ∈ function_readonly)); [|discriminate].
  intros [= <-]. reflexivity.
Qed.

Ltac throws_steps :=
  repeat first
    [ discriminate
    | eapply fobj_assign_throws; eassumption
    | match goal with
      | H : forEach _ _ _ = Throw _ |- _ =>
          revert H; apply forEach_throws; intros
      | H : (_ ≫= _) = Throw _ |- _ =>
          revert H; apply bind_throws; intros
      | H : match ?o with Some _ => _ | None => _ end = Throw _ |- _ =>
          destruct o; [discriminate | injection H as <-; reflexivity]
      end ].

(** A generation that does not return throws a [TypeError]. *)
Lemma constants_throws names variations e :
  constants names variations = Throw e -> e = TypeError.
Proof.
  unfold constants, ofsTypes, ofsVariations, ofAll, isTypes, isVariations, isAll,
    forTypes, forVariations.
  intros H. throws_steps.
Qed.

(** X1: [ofVariations] throws a [TypeError] on the empty schema, where
    [names[0]] is [undefined].  On a schema that has a first entry it
    returns exactly when no Name and no Variation of the first table is
    one of [name], [length], [caller] and [arguments], the keys that
    cannot be assigned on the functions it decorates; otherwise it throws
    a [TypeError] as well. *)
Theorem ofVariations_returns_exactly :
  ofVariations [] = Throw TypeError /\
  forall n0 t0 rest,
    (returns (ofVariations ((n0, t0) :: rest)) <->
     assignable (n0 :: object_keys rest) /\ assignable (object_keys t0)) /\
    (forall e, ofVariations ((n0, t0) :: rest) = Throw e -> e = TypeError).
Proof.
  split; [reflexivity|]. intros n0 t0 rest. split.
  - apply ofVariations_returns_iff.
  - intros e. rewrite ofVariations_closure, closure_cons.
    apply bind_throws; [apply constants_throws|discriminate].
Qed.

Lemma realTypes_keys types :
  object_keys (realTypes types)
  = filter (fun k => k <> "__proto__") (object_keys types).
Proof.
  unfold realTypes, object_keys. induction types as [|[name t] types IH];
    [reflexivity|].
  rewrite fmap_cons. cbn [fst].
  destruct (decide (name <> "__proto__")) as [Hname|Hname].
  - rewrite (filter_cons_True (fun nt : string * value => nt.1 <> "__proto__"))
      by exact Hname.
    rewrite (filter_cons_True (fun k : string => k <> "__proto__")) by exact Hname.
    rewrite !fmap_cons. cbn [fst]. f_equal. exact IH.
  - rewrite (filter_cons_False (fun nt : string * value => nt.1 <> "__proto__"))
      by exact Hname.
    rewrite (filter_cons_False (fun k : string => k <> "__proto__")) by exact Hname.
    exact IH.
Qed.

Lemma realTypes_tables types :
  Forall (fun nt : string * table => object_keys nt.2 = ["default"])
         (realTypes types).
Proof.
  unfold realTypes. induction types as [|[name t] types IH]; [constructor|].
  destruct (decide (name <> "__proto__")) as [Hname|Hname].
  - rewrite (filter_cons_True (fun nt : string * value => nt.1 <> "__proto__"))
      by exact Hname.
    rewrite fmap_cons. constructor; [reflexivity|exact IH].
  - rewrite (filter_cons_False (fun nt : string * value => nt.1 <> "__proto__"))
      by exact Hname.
    exact IH.
Qed.

Lemma closure_realTypes types :
  realTypes types <> [] ->
  closure (realTypes types) = constants (object_keys (realTypes types)) ["default"].
Proof.
  pose proof (realTypes_tables types) as Htables.
  destruct (realTypes types) as [|[n0 t0] rest]; [contradiction|]. intros _.
  apply Forall_cons in Htables as (Hfirst & _). cbn [snd] in Hfirst.
  rewrite closure_cons, Hfirst. reflexivity.
Qed.

Lemma of_returns_iff types :
  returns (of_ types) <->
  realTypes types <> [] /\ assignable (object_keys (realTypes types)).
Proof.
  unfold of_. pose proof (realTypes_tables types) as Htables.
  destruct (realTypes types) as [|[n0 t0] rest].
  - split; [intros [api [=]]|intros [H _]; contradiction].
  - apply Forall_cons in Htables as (Hfirst & _). cbn [snd] in Hfirst.
    rewrite ofVariations_returns_iff, Hfirst. split.
    + intros [Hn _]. split; [discriminate|exact Hn].
    + intros [_ Hn]. split; [exact Hn|].
      intros k [->|Hk]%elem_of_cons; [by_computation|inversion Hk].
Qed.

(** X2: [of] gives every Name the single Variation [default], whatever
    the schema holds; a Name called [__proto__] is dropped, its
    assignment adds no property.  [of] returns exactly when a Name is
    left and none is a key a function refuses.  Then, for a Name [n]
    other than [default], [of[n]] called with a payload alone builds the
    entity of [n] and [default], which [is] and [is[n]] accept.  The
    guard [is[n2]] of every other Name [n2] rejects it, but for a Name
    called [default]: the key [default] of [is] holds the guard of the
    Variation [default], which accepts it. *)
Theorem of_builds_default_variation (types : list (string * value)) :
  object_keys (realTypes types)
  = filter (fun k => k <> "__proto__") (object_keys types) /\
  (returns (of_ types) <->
   realTypes types <> [] /\ assignable (object_keys (realTypes types))) /\
  forall g n p,
    closure (realTypes types) = Ret g ->
    n ∈ object_keys (realTypes types) -> n <> "default" ->
    exists ctor isName,
      fprops (c_ofAll g) !! n = Some ctor /\
      fprops (c_isAll g) !! n = Some isName /\
      fcall ctor [p]
      = VObj (<["__OPAQUE__" := VStr "__OPAQUE__"]>
             (<["__OPAQUE_KEY__" := VStr n]>
             (<["__OPAQUE_VARIATION__" := VStr "default"]>
             (<["value" := p]> ∅)))) /\
      fcall (c_isAll g) (fcall ctor [p]) = Ret true /\
      fcall isName (fcall ctor [p]) = Ret true /\
      (forall n2,
          n2 ∈ object_keys (realTypes types) -> n2 <> n -> n2 <> "default" ->
          exists isOther,
            fprops (c_isAll g) !! n2 = Some isOther /\
            fcall isOther (fcall ctor [p]) = Ret false) /\
      ("default" ∈ object_keys (realTypes types) ->
       exists isDefault,
         fprops (c_isAll g) !! "default" = Some isDefault /\
         fcall isDefault (fcall ctor [p]) = Ret true).
Proof.
  split; [apply realTypes_keys|]. split; [apply of_returns_iff|].
  intros g n p Hg Hn Hdefault.
  rewrite closure_realTypes in Hg by (intros E; rewrite E in Hn; inversion Hn).
  assert (Hnv : n ∉ ["default"])
    by (intros [->|H]%elem_of_cons; [contradiction|inversion H]).
  destruct (name_scoped_constructor _ _ _ Hg n Hn)
    as (ctor & _ & Hof & Hcall & _).
  destruct (name_scoped_guard _ _ _ Hg n Hn) as (isName & _ & His & HcallN & _).
  exists ctor, isName. split; [exact (Hof Hnv)|]. split; [exact (His Hnv)|].
  rewrite Hcall. cbn [length Nat.leb arg nth]. split; [reflexivity|].
  rewrite (is_call _ _ _ Hg), HcallN, is_any_opaque, is_name_opaque.
  rewrite !bool_decide_eq_true_2 by (assumption || reflexivity || left).
  split; [reflexivity|]. split; [reflexivity|]. split.
  - intros n2 Hn2 Hne Hdefault2.
    assert (Hnv2 : n2 ∉ ["default"])
      by (intros [->|H]%elem_of_cons; [contradiction|inversion H]).
    destruct (name_scoped_guard _ _ _ Hg n2 Hn2)
      as (isOther & _ & His2 & Hcall2 & _).
    exists isOther. split; [exact (His2 Hnv2)|].
    rewrite Hcall2, is_name_opaque.
    rewrite (bool_decide_eq_false_2 (n = n2)) by congruence. reflexivity.
  - intros _.
    destruct (variation_scoped_guard _ _ _ Hg "default")
      as (isDefault & _ & HisD & HcallD & _); [left|].
    exists isDefault. split; [exact HisD|].
    rewrite HcallD, is_variation_opaque.
    rewrite !bool_decide_eq_true_2 by (assumption || reflexivity).
    reflexivity.
Qed.

(** X17: the generated tables are rectangular over the Variations of the
    first table, whatever the other tables hold.  For every Name [n] that
    is not also a Variation key, [of[n]] and [is[n]] carry a fully scoped
    constructor [of[n][v]] and a fully scoped guard [is[n][v]] exactly
    for the keys [v] of the first table.  For such a key the constructor
    builds the entity of [n] and [v], which the guard accepts, even when
    the schema does not list the pair.  A Variation listed under a later
    Name only gets no constructor, and calling [of[n][v]] for it throws,
    unless [v] names a member every function inherits. *)
Theorem generated_tables_are_rectangular n0 t0 (rest : schema) g n v :
  closure ((n0, t0) :: rest) = Ret g ->
  n ∈ n0 :: object_keys rest ->
  n ∉ object_keys t0 ->
  exists ctor chk,
    fprops (c_ofAll g) !! n = Some ctor /\
    fprops (c_isAll g) !! n = Some chk /\
    (is_Some (fprops ctor !! v) <-> v ∈ object_keys t0) /\
    (is_Some (fprops chk !! v) <-> v ∈ object_keys t0) /\
    (v ∈ object_keys t0 ->
     exists scoped,
       fprops chk !! v = Some scoped /\
       forall p,
         call1 (fprops ctor !! v) p
         = Ret (VObj (<["__OPAQUE__" := VStr "__OPAQUE__"]>
                     (<["__OPAQUE_KEY__" := VStr n]>
                     (<["__OPAQUE_VARIATION__" := VStr v]>
                     (<["value" := p]> ∅))))) /\
         (e ← call1 (fprops ctor !! v) p; scoped e) = Ret true) /\
    (v ∉ object_keys t0 -> v ∉ function_inherited ->
     forall p, call1 (fprops ctor !! v) p = Throw TypeError).
Proof.
  rewrite closure_cons. intros Hg Hn Hnv.
  destruct (constants_Ret _ _ _ Hg) as (HT & _ & _ & HiT & _).
  destruct (name_scoped_constructor _ _ _ Hg n Hn) as (ctor & Hctor & Hof & _).
  destruct (name_scoped_guard _ _ _ Hg n Hn) as (chk & Hchk & His & _).
  destruct (ofsTypes_lookup _ _ _ n HT Hn) as (ctor' & Hctor' & _ & Hprops).
  destruct (isTypes_lookup _ _ _ n HiT Hn) as (chk' & Hchk' & _ & Hprops').
  unfold constructor, checker, jsfun, guard in *.
  assert (ctor' = ctor) as -> by congruence.
  assert (chk' = chk) as -> by congruence.
  exists ctor, chk. split; [exact (Hof Hnv)|]. split; [exact (His Hnv)|].
  rewrite Hprops, Hprops'. case_bool_decide as Hv.
  - split; [|split; [|split]]; [split; eauto..| |contradiction].
    intros _. exists (is_name_variation n v). split; [reflexivity|].
    intros p. split; [reflexivity|].
    cbn [call1 arg nth]. rewrite bind_Ret_l, is_name_variation_opaque.
    rewrite !bool_decide_eq_true_2 by reflexivity. reflexivity.
  - split; [|split; [|split]];
      [split; [intros [? [=]]|contradiction]..|contradiction|].
    intros _ _ p. reflexivity.
Qed.

Lemma generated_tables_are_rectangular_witness :
  exists g,
    closure [("One", [("var1", VUndefined)]);
             ("Two", [("other", VUndefined)])] = Ret g /\
    exists ctor,
      fprops (c_ofAll g) !! "Two" = Some ctor /\
      (forall p, call1 (fprops ctor !! "var1") p
                 = Ret (VObj (<["__OPAQUE__" := VStr "__OPAQUE__"]>
                             (<["__OPAQUE_KEY__" := VStr "Two"]>
                             (<["__OPAQUE_VARIATION__" := VStr "var1"]>
                             (<["value" := p]> ∅)))))) /\
      (forall p, call1 (fprops ctor !! "other") p = Throw TypeError).
Proof.
  destruct (constants_total ["One"; "Two"] ["var1"]) as [g E]; [by_computation..|].
  exists g. split; [rewrite closure_cons; exact E|].
  assert (Hg : closure [("One", [("var1", VUndefined)]);
                        ("Two", [("other", VUndefined)])] = Ret g)
    by (rewrite closure_cons; exact E).
  destruct (generated_tables_are_rectangular "One" [("var1", VUndefined)]
              [("Two", [("other", VUndefined)])] g "Two" "var1" Hg)
    as (ctor & chk & Hctor & _ & _ & _ & Hin & _); [by_computation..|].
  destruct (generated_tables_are_rectangular "One" [("var1", VUndefined)]
              [("Two", [("other", VUndefined)])] g "Two" "other" Hg)
    as (ctor' & chk' & Hctor' & _ & _ & _ & _ & Hout); [by_computation..|].
  pose proof (eq_trans (eq_sym Hctor') Hctor) as [= ->].
  exists ctor. split; [exact Hctor|]. split.
  - destruct Hin as (scoped & _ & Hbuild); [by_computation|].
    intros p. exact (proj1 (Hbuild p)).
  - apply Hout; by_computation.
Defined.

Lemma of_builds_default_variation_witness :
  exists g,
    closure (realTypes [("__proto__", VUndefined); ("One", VUndefined);
                        ("default", VUndefined)]) = Ret g /\
    exists ctor isName,
      fprops (c_ofAll g) !! "One" = Some ctor /\
      fprops (c_isAll g) !! "One" = Some isName /\
      fcall (c_isAll g) (fcall ctor [VNum 1]) = Ret true /\
      fcall isName (fcall ctor [VNum 1]) = Ret true /\
      exists isDefault,
        fprops (c_isAll g) !! "default" = Some isDefault /\
        fcall isDefault (fcall ctor [VNum 1]) = Ret true.
Proof.
  destruct (constants_total ["One"; "default"] ["default"]) as [g E];
    [by_computation..|].
  exists g.
  assert (Hg : closure (realTypes [("__proto__", VUndefined); ("One", VUndefined);
                                   ("default", VUndefined)]) = Ret g)
    by (rewrite closure_realTypes by discriminate; exact E).
  split; [exact Hg|].
  destruct (proj2 (proj2 (of_builds_default_variation
                            [("__proto__", VUndefined); ("One", VUndefined);
                             ("default", VUndefined)]))
              g "One" (VNum 1) Hg)
    as (ctor & isName & Hof & His & _ & Hall & Hname & _ & Hdefault);
    [by_computation|discriminate|].
  exists ctor, isName. split; [exact Hof|]. split; [exact His|].
  split; [exact Hall|]. split; [exact Hname|].
  apply Hdefault. by_computation.
Defined.

(** ** The sub-objects of the bundle *)

(** The sub-object [forTypes] stores under a name: three members of its
    own, then one slice per variation, a later key replacing an earlier
    one. *)
Lemma forTypes_scope names variations (ofsT : gmap string constructor) forT n :
  forTypes names variations ofsT = Ret forT ->
  n ∈ names ->
  exists ctor sc,
    ofsT !! n = Some ctor /\
    forT !! n = Some sc /\
    forall k,
      sc !! k =
      if bool_decide (k ∈ variations)
      then Some (MLenses (lenses (MkIso (fun o => get_prop o "value")
                                        (call1 (fprops ctor !! k)))))
      else (<["iso" := MOptic (OIso
               (MkIso (fun o => get_prop o "value")
                      (call1 (fprops ctor !! "default"))))]>
            (<["lensFromProp" := MOptic (OLensFromProp
               (MkIso (fun o => get_prop o "value")
                      (call1 (fprops ctor !! "default"))))]>
            (<["fold" := MOptic OFold]> (∅ : scope)))) !! k.
Proof.
  intros H Hn. unfold forTypes in H.
  rewrite (forEach_ext _
    (fun name acc =>
       sc ← (defaultOf ← match ofsT !! name with
                         | Some f => Ret f
                         | None => Throw TypeError
                         end;
             Ret (fold_left
                    (fun sc v =>
                       <[v := MLenses (lenses
                                (MkIso (fun o => get_prop o "value")
                                       (call1 (fprops defaultOf !! v))))]> sc)
                    variations
                    (<["iso" := MOptic (OIso
                         (MkIso (fun o => get_prop o "value")
                                (call1 (fprops defaultOf !! "default"))))]>
                     (<["lensFromProp" := MOptic (OLensFromProp
                         (MkIso (fun o => get_prop o "value")
                                (call1 (fprops defaultOf !! "default"))))]>
                     (<["fold" := MOptic OFold]> ∅)))));
       Ret (<[name := sc]> acc))) in H.
  - eapply forEach_insert with (k := n) in H.
    rewrite bool_decide_eq_true_2 in H by assumption.
    destruct H as (sc & Hbuild & Hlook).
    destruct (ofsT !! n) as [ctor|] eqn:Hctor; [|discriminate].
    rewrite bind_Ret_l in Hbuild. injection Hbuild as <-.
    exists ctor. eexists. split; [reflexivity|]. split; [exact Hlook|].
    intros k.
    exact (fold_insert_lookup
             (fun v => MLenses (lenses
                         (MkIso (fun o => get_prop o "value")
                                (call1 (fprops ctor !! v))))) variations _ k).
  - intros name acc. cbv beta zeta.
    destruct (ofsT !! name) as [ctor|]; [|reflexivity].
    rewrite !bind_Ret_l.
    apply (forEach_attach_scope
             (fun v => MLenses (lenses
                         (MkIso (fun o => get_prop o "value")
                                (call1 (fprops ctor !! v)))))).
Qed.

(** The inner loop of [forVariations]: it reads [ofsVariations[variation]]
    at every name. *)
Lemma forEach_attach_names (ofsV : gmap string constructor) (variation : string)
    ctor names (sc0 : scope) (m : gmap string scope) :
  ofsV !! variation = Some ctor ->
  forEach (fun name newForVariations =>
      defaultOf ← match ofsV !! variation with
                  | Some f => Ret f
                  | None => Throw TypeError
                  end;
      Ret (alter (insert name (MLenses (lenses
                    (MkIso (fun opaque => get_prop opaque "value")
                           (call1 (fprops defaultOf !! name))))))
             variation newForVariations))
    names (<[variation := sc0]> m)
  = Ret (<[variation :=
            fold_left (fun sc name =>
                <[name := MLenses (lenses
                            (MkIso (fun opaque => get_prop opaque "value")
                                   (call1 (fprops ctor !! name))))]> sc)
              names sc0]> m).
Proof.
  intros Hctor.
  rewrite (forEach_ext _
    (fun k d => Ret (alter (insert k (MLenses (lenses
                       (MkIso (fun opaque => get_prop opaque "value")
                              (call1 (fprops ctor !! k)))))) variation d))).
  - apply (forEach_attach_scope
             (fun k => MLenses (lenses
                         (MkIso (fun opaque => get_prop opaque "value")
                                (call1 (fprops ctor !! k)))))).
  - intros k d. unfold constructor, jsfun in *. rewrite Hctor. reflexivity.
Qed.

Lemma forEach_ext_in {K S : Type} (f g : K -> S -> outcome S) (l : list K) (s : S) :
  (forall k s', k ∈ l -> f k s' = g k s') -> forEach f l s = forEach g l s.
Proof.
  revert s. induction l as [|k l IH]; intros s Hfg; [reflexivity|].
  rewrite !forEach_cons, (Hfg k s) by left.
  destruct (g k s) as [s1|e]; [|reflexivity].
  rewrite !bind_Ret_l. apply IH. intros k' s' Hk'. apply Hfg. right. exact Hk'.
Qed.

(** The sub-object [forVariations] stores under a variation. *)
Lemma forVariations_scope names variations (ofsV : gmap string constructor)
    forV v :
  (forall x, x ∈ variations -> is_Some (ofsV !! x)) ->
  forVariations names variations ofsV = Ret forV ->
  v ∈ variations ->
  exists ctor sc,
    ofsV !! v = Some ctor /\
    forV !! v = Some sc /\
    forall k,
      sc !! k =
      if bool_decide (k ∈ names)
      then Some (MLenses (lenses (slice_iso (fprops ctor !! k))))
      else scope_members (variation_iso v) !! k.
Proof.
  intros Hall H Hv. unfold forVariations in H.
  rewrite (forEach_ext_in _
    (fun variation acc =>
       sc ← match ofsV !! variation with
            | Some ctor =>
                Ret (fold_left
                       (fun sc name =>
                          <[name := MLenses (lenses
                                      (slice_iso (fprops ctor !! name)))]> sc)
                       names (scope_members (variation_iso variation)))
            | None => Throw TypeError
            end;
       Ret (<[variation := sc]> acc))) in H.
  - eapply forEach_insert with (k := v) in H.
    rewrite bool_decide_eq_true_2 in H by assumption.
    destruct H as (sc & Hbuild & Hlook).
    destruct (ofsV !! v) as [ctor|] eqn:Hctor; [|discriminate].
    injection Hbuild as <-.
    exists ctor. eexists. split; [reflexivity|]. split; [exact Hlook|].
    intros k.
    exact (fold_insert_lookup
             (fun name => MLenses (lenses (slice_iso (fprops ctor !! name))))
             names _ k).
  - intros x acc Hx. cbv beta zeta.
    destruct (Hall x Hx) as [ctor Hctor].
    rewrite (forEach_attach_names ofsV x ctor names _ acc Hctor).
    unfold constructor, jsfun in *. rewrite Hctor, bind_Ret_l. reflexivity.
Qed.

Lemma forTypes_scope_members names variations (ofsT : gmap string constructor)
    forT n :
  forTypes names variations ofsT = Ret forT ->
  n ∈ names ->
  exists ctor sc,
    ofsT !! n = Some ctor /\
    forT !! n = Some sc /\
    forall k,
      sc !! k =
      if bool_decide (k ∈ variations)
      then Some (MLenses (lenses (slice_iso (fprops ctor !! k))))
      else scope_members (slice_iso (fprops ctor !! "default")) !! k.
Proof. exact (forTypes_scope names variations ofsT forT n). Qed.

Lemma closure_scopes names variations g :
  constants names variations = Ret g ->
  (forall n, n ∈ names ->
     exists ctor sc,
       c_ofsTypes g !! n = Some ctor /\
       c_forTypes g !! n = Some sc /\
       forall k,
         sc !! k =
         if bool_decide (k ∈ variations)
         then Some (MLenses (lenses (slice_iso (fprops ctor !! k))))
         else scope_members (slice_iso (fprops ctor !! "default")) !! k) /\
  (forall v, v ∈ variations ->
     exists ctor sc,
       c_ofsVariations g !! v = Some ctor /\
       c_forVariations g !! v = Some sc /\
       forall k,
         sc !! k =
         if bool_decide (k ∈ names)
         then Some (MLenses (lenses (slice_iso (fprops ctor !! k))))
         else scope_members (variation_iso v) !! k).
Proof.
  intros Hgen.
  destruct (constants_Ret _ _ _ Hgen) as (_ & HV & _ & _ & _ & _ & HfT & HfV).
  split.
  - intros n Hn. exact (forTypes_scope_members _ _ _ _ n HfT Hn).
  - intros v Hv. apply (forVariations_scope names variations); [|exact HfV|exact Hv].
    intros x Hx. destruct (ofsVariations_lookup _ _ _ x HV Hx) as (c & Hc & _).
    exists c. exact Hc.
Qed.

(** X7: the isomorphism of a Variation [v], [forVariations[v].iso], pins
    the variation in both directions: its [get] tags every entity with
    [_variation: v], whatever variation the entity has, and its
    [reverseGet] builds an entity of variation [v], whatever [_variation]
    the tagged value carries.  So a round trip moves an entity of any
    variation to the variation [v]; the sub-object holds this isomorphism
    under [iso] unless a Name is called [iso]. *)
Theorem variation_iso_pins_variation names variations g v :
  constants names variations = Ret g ->
  v ∈ variations -> "iso" ∉ names ->
  exists sc,
    c_forVariations g !! v = Some sc /\
    sc !! "iso" = Some (MOptic (OIso (variation_iso v))) /\
    (forall n v' p,
        get (variation_iso v) (opaque n v' p) = Ret (tag n (VStr v) p)) /\
    (forall n v' (fields : gmap string value),
        fields !! "_tag" = None -> fields !! "_variation" = None ->
        reverseGet (variation_iso v) (tag n v' (VObj fields))
        = Ret (opaque n (VStr v) (VObj fields))) /\
    (forall n v' (fields : gmap string value),
        fields !! "_tag" = None -> fields !! "_variation" = None ->
        (a ← get (variation_iso v) (opaque n v' (VObj fields));
         reverseGet (variation_iso v) a)
        = Ret (opaque n (VStr v) (VObj fields))).
Proof.
  intros Hgen Hv Hiso.
  destruct (proj2 (closure_scopes _ _ _ Hgen) v Hv) as (ctor & sc & _ & Hsc & Hk).
  assert (Hget : forall n v' p,
             get (variation_iso v) (opaque n v' p) = Ret (tag n (VStr v) p)).
  { intros n v' p. unfold variation_iso, get.
    rewrite get_prop_opaque_key, bind_Ret_l, get_prop_opaque_value, bind_Ret_l.
    reflexivity. }
  assert (Hrev : forall n v' (fields : gmap string value),
             fields !! "_tag" = None -> fields !! "_variation" = None ->
             reverseGet (variation_iso v) (tag n v' (VObj fields))
             = Ret (opaque n (VStr v) (VObj fields))).
  { intros n v' fields Htag Hvar. unfold variation_iso, reverseGet.
    rewrite untag_tag, bind_Ret_l, own_enumerable_obj, Htag.
    rewrite (delete_id _ "_tag"), (delete_id _ "_variation") by assumption.
    reflexivity. }
  exists sc. split; [exact Hsc|]. split.
  { rewrite Hk, bool_decide_eq_false_2 by exact Hiso. apply lookup_insert_eq. }
  split; [exact Hget|]. split; [exact Hrev|].
  intros n v' fields Htag Hvar. rewrite Hget, bind_Ret_l. apply Hrev; assumption.
Qed.

Lemma variation_iso_pins_variation_witness :
  exists g,
    closure [("One", [("var1", VUndefined); ("var2", VUndefined)])] = Ret g /\
    exists sc,
      c_forVariations g !! "var2" = Some sc /\
      sc !! "iso" = Some (MOptic (OIso (variation_iso "var2"))) /\
      (a ← get (variation_iso "var2")
             (opaque (VStr "One") (VStr "var1") (VObj ∅));
       reverseGet (variation_iso "var2") a)
      = Ret (opaque (VStr "One") (VStr "var2") (VObj ∅)).
Proof.
  destruct (constants_total ["One"] ["var1"; "var2"]) as [g E];
    [by_computation..|].
  exists g. split; [rewrite closure_cons; exact E|].
  destruct (variation_iso_pins_variation _ _ g "var2" E)
    as (sc & Hsc & Hiso & _ & _ & Hround); [by_computation..|].
  exists sc. split; [exact Hsc|]. split; [exact Hiso|].
  apply Hround; apply lookup_empty.
Defined.

(** X8: the isomorphism of a Name [n], [forTypes[n].iso], takes its
    [reverseGet] from [ofsTypes[n].default].  Its [get] returns the bare
    payload of any entity.  When [default] is a Variation its
    [reverseGet] builds the entity of [n] and [default]; when [default]
    is not a Variation that property is [undefined] and every call of
    [reverseGet] throws a [TypeError].  The sub-object holds this
    isomorphism under [iso] unless a Variation is called [iso]. *)
Theorem name_iso_needs_default names variations g n :
  constants names variations = Ret g ->
  n ∈ names -> "iso" ∉ variations ->
  exists sc i,
    c_forTypes g !! n = Some sc /\
    sc !! "iso" = Some (MOptic (OIso i)) /\
    (forall n' v' p, get i (opaque n' v' p) = Ret p) /\
    ("default" ∈ variations ->
     forall p, reverseGet i p = Ret (opaque (VStr n) (VStr "default") p)) /\
    ("default" ∉ variations ->
     forall p, reverseGet i p = Throw TypeError).
Proof.
  intros Hgen Hn Hiso.
  destruct (proj1 (closure_scopes _ _ _ Hgen) n Hn) as (ctor & sc & Hctor & Hsc & Hk).
  destruct (constants_Ret _ _ _ Hgen) as (HT & _).
  destruct (ofsTypes_lookup _ _ _ n HT Hn) as (ctor' & Hctor' & _ & Hprops).
  pose proof (eq_trans (eq_sym Hctor') Hctor) as Heq. injection Heq as ->.
  exists sc, (slice_iso (fprops ctor !! "default")).
  split; [exact Hsc|]. split.
  { rewrite Hk, bool_decide_eq_false_2 by exact Hiso. apply lookup_insert_eq. }
  split; [intros n' v' p; apply get_prop_opaque_value|].
  unfold slice_iso, reverseGet. unfold constructor, jsfun in *.
  rewrite (Hprops "default"). split.
  - intros Hd p. rewrite bool_decide_eq_true_2 by exact Hd. reflexivity.
  - intros Hd p. rewrite bool_decide_eq_false_2 by exact Hd. reflexivity.
Qed.

Lemma name_iso_needs_default_witness :
  exists g,
    closure [("One", [("var1", VUndefined); ("var2", VUndefined)])] = Ret g /\
    exists sc i,
      c_forTypes g !! "One" = Some sc /\
      sc !! "iso" = Some (MOptic (OIso i)) /\
      (forall n' v' p, get i (opaque n' v' p) = Ret p) /\
      (forall p, reverseGet i p = Throw TypeError).
Proof.
  destruct (constants_total ["One"] ["var1"; "var2"]) as [g E];
    [by_computation..|].
  exists g. split; [rewrite closure_cons; exact E|].
  destruct (name_iso_needs_default _ _ g "One" E)
    as (sc & i & Hsc & Hiso & Hget & _ & Hthrow); [by_computation..|].
  exists sc, i. split; [exact Hsc|]. split; [exact Hiso|]. split; [exact Hget|].
  apply Hthrow. by_computation.
Defined.

Lemma scoped_slice names variations g n v :
  constants names variations = Ret g ->
  n ∈ names -> v ∈ variations ->
  exists scT scV,
    c_forTypes g !! n = Some scT /\
    c_forVariations g !! v = Some scV /\
    scT !! v
    = Some (MLenses (lenses (slice_iso
              (Some (fun args => opaque (VStr n) (VStr v) (arg 0 args)))))) /\
    scV !! n
    = Some (MLenses (lenses (slice_iso
              (Some (fun args => opaque (VStr n) (VStr v) (arg 0 args)))))).
Proof.
  intros Hgen Hn Hv.
  destruct (closure_scopes _ _ _ Hgen) as (HT & HV).
  destruct (HT n Hn) as (ctorT & scT & HctorT & HscT & HkT).
  destruct (HV v Hv) as (ctorV & scV & HctorV & HscV & HkV).
  destruct (constants_Ret _ _ _ Hgen) as (HofsT & HofsV & _).
  destruct (ofsTypes_lookup _ _ _ n HofsT Hn) as (c1 & Hc1 & _ & Hp1).
  destruct (ofsVariations_lookup _ _ _ v HofsV Hv) as (c2 & Hc2 & _ & Hp2).
  pose proof (eq_trans (eq_sym Hc1) HctorT) as E1. injection E1 as ->.
  pose proof (eq_trans (eq_sym Hc2) HctorV) as E2. injection E2 as ->.
  exists scT, scV. split; [exact HscT|]. split; [exact HscV|].
  unfold constructor, jsfun in *. split.
  - rewrite HkT, bool_decide_eq_true_2 by exact Hv.
    rewrite (Hp1 v), bool_decide_eq_true_2 by exact Hv. reflexivity.
  - rewrite HkV, bool_decide_eq_true_2 by exact Hn.
    rewrite (Hp2 n), bool_decide_eq_true_2 by exact Hn. reflexivity.
Qed.

(** X9: for a Name [n] and a Variation [v], the object reached as
    [forTypes[n][v]] and the one reached as [forVariations[v][n]] hold
    the same two members: under [iso] one isomorphism, under
    [lensFromProp] the lens maker of that isomorphism.  Its [get] strips
    any entity to its payload, its [reverseGet] wraps any payload as the
    entity of [n] and [v]: [get] after [reverseGet] is the identity, and
    [reverseGet] after [get] re-tags an entity of another Name or
    Variation to [n] and [v]. *)
Theorem scoped_slices_coincide names variations g n v :
  constants names variations = Ret g ->
  n ∈ names -> v ∈ variations ->
  exists scT scV sliceT sliceV i,
    c_forTypes g !! n = Some scT /\
    c_forVariations g !! v = Some scV /\
    scT !! v = Some (MLenses sliceT) /\
    scV !! n = Some (MLenses sliceV) /\
    sliceT !! "iso" = Some (OIso i) /\
    sliceV !! "iso" = Some (OIso i) /\
    sliceT !! "lensFromProp" = Some (OLensFromProp i) /\
    sliceV !! "lensFromProp" = Some (OLensFromProp i) /\
    (forall n' v' p, get i (opaque n' v' p) = Ret p) /\
    (forall p,
        reverseGet i p
        = Ret (VObj (<["__OPAQUE__" := VStr "__OPAQUE__"]>
                    (<["__OPAQUE_KEY__" := VStr n]>
                    (<["__OPAQUE_VARIATION__" := VStr v]>
                    (<["value" := p]> ∅)))))) /\
    (forall p, (e ← reverseGet i p; get i e) = Ret p) /\
    (forall n' v' p,
        (a ← get i (opaque n' v' p); reverseGet i a) = reverseGet i p).
Proof.
  intros Hgen Hn Hv.
  destruct (scoped_slice _ _ _ n v Hgen Hn Hv) as (scT & scV & HT & HV & HsT & HsV).
  set (i := slice_iso (Some (fun args => opaque (VStr n) (VStr v) (arg 0 args))))
    in *.
  exists scT, scV, (lenses i), (lenses i), i.
  split; [exact HT|]. split; [exact HV|]. split; [exact HsT|].
  split; [exact HsV|]. split; [apply lenses_iso|]. split; [apply lenses_iso|].
  split; [apply lenses_lensFromProp|]. split; [apply lenses_lensFromProp|].
  split; [intros n' v' p; apply get_prop_opaque_value|].
  split; [reflexivity|]. split.
  - intros p. unfold i, slice_iso, reverseGet, get, call1.
    rewrite bind_Ret_l. apply get_prop_opaque_value.
  - intros n' v' p. unfold i, slice_iso, reverseGet, get, call1.
    rewrite get_prop_opaque_value, bind_Ret_l. reflexivity.
Qed.

Lemma scoped_slices_coincide_witness :
  exists g,
    closure [("One", [("var1", VUndefined); ("var2", VUndefined)]);
             ("Two", [("var1", VUndefined); ("var2", VUndefined)])] = Ret g /\
    exists scT scV sliceT sliceV i,
      c_forTypes g !! "Two" = Some scT /\
      c_forVariations g !! "var2" = Some scV /\
      scT !! "var2" = Some (MLenses sliceT) /\
      scV !! "Two" = Some (MLenses sliceV) /\
      sliceT !! "iso" = Some (OIso i) /\
      sliceV !! "iso" = Some (OIso i) /\
      (a ← get i (opaque (VStr "One") (VStr "var1") (VNum 1)); reverseGet i a)
      = Ret (VObj (<["__OPAQUE__" := VStr "__OPAQUE__"]>
                  (<["__OPAQUE_KEY__" := VStr "Two"]>
                  (<["__OPAQUE_VARIATION__" := VStr "var2"]>
                  (<["value" := VNum 1]> ∅))))).
Proof.
  destruct (constants_total ["One"; "Two"] ["var1"; "var2"]) as [g E];
    [by_computation..|].
  exists g. split; [rewrite closure_cons; exact E|].
  destruct (scoped_slices_coincide _ _ g "Two" "var2" E)
    as (scT & scV & sliceT & sliceV & i & HT & HV & HsT & HsV & HiT & HiV
        & _ & _ & _ & Hrev & _ & Hround);
    [by_computation..|].
  exists scT, scV, sliceT, sliceV, i. split; [exact HT|]. split; [exact HV|].
  split; [exact HsT|]. split; [exact HsV|]. split; [exact HiT|].
  split; [exact HiV|]. rewrite Hround. apply Hrev.
Defined.

(** X10: the lens that the member [lensFromProp] of [forTypes[n][v]]
    makes for a property [k], on an entity whose payload is a plain
    object with the property [k] and no property [__proto__], which
    [Object.assign] would not copy: it reads the property of the payload,
    and its setter returns the entity of [n] and [v] whose payload is the
    old one with [k] replaced, whatever other properties the payload has.
    What it returns obeys the lens laws: reading after writing gives what
    was written, and a second write wins. *)
Theorem scoped_lens_laws names variations g n v :
  constants names variations = Ret g ->
  n ∈ names -> v ∈ variations ->
  exists scT slice i,
    c_forTypes g !! n = Some scT /\
    scT !! v = Some (MLenses slice) /\
    slice !! "lensFromProp" = Some (OLensFromProp i) /\
    forall k x y n' v' (fields : gmap string value),
      fields !! k = Some x ->
      fields !! "__proto__" = None ->
      lget (lensFromProp i k) (opaque n' v' (VObj fields)) = Ret x /\
      lset (lensFromProp i k) y (opaque n' v' (VObj fields))
      = Ret (VObj (<["__OPAQUE__" := VStr "__OPAQUE__"]>
                  (<["__OPAQUE_KEY__" := VStr n]>
                  (<["__OPAQUE_VARIATION__" := VStr v]>
                  (<["value" := VObj (<[k := y]> fields)]> ∅))))) /\
      (e ← lset (lensFromProp i k) y (opaque n' v' (VObj fields));
       lget (lensFromProp i k) e) = Ret y /\
      (forall z,
          (e ← lset (lensFromProp i k) y (opaque n' v' (VObj fields));
           lset (lensFromProp i k) z e)
          = lset (lensFromProp i k) z (opaque n' v' (VObj fields))).
Proof.
  intros Hgen Hn Hv.
  destruct (scoped_slice _ _ _ n v Hgen Hn Hv) as (scT & scV & HT & _ & HsT & _).
  set (i := slice_iso (Some (fun args => opaque (VStr n) (VStr v) (arg 0 args))))
    in *.
  exists scT, (lenses i), i.
  split; [exact HT|]. split; [exact HsT|]. split; [apply lenses_lensFromProp|].
  assert (Hget : forall k x n' v' (fields : gmap string value),
             fields !! k = Some x ->
             lget (lensFromProp i k) (opaque n' v' (VObj fields)) = Ret x).
  { intros k x n' v' fields Hk.
    unfold lensFromProp, composeLens, lget, fromProp, i, slice_iso, get.
    rewrite get_prop_opaque_value, bind_Ret_l. cbn [get_prop]. rewrite Hk.
    reflexivity. }
  assert (Hset : forall k x y n' v' (fields : gmap string value),
             fields !! k = Some x ->
             lset (lensFromProp i k) y (opaque n' v' (VObj fields))
             = Ret (opaque (VStr n) (VStr v) (VObj (<[k := y]> fields)))).
  { intros k x y n' v' fields Hk.
    unfold lensFromProp, composeLens. cbn [lset].
    rewrite (get_prop_opaque_value n' v' (VObj fields) : get i _ = _), bind_Ret_l.
    rewrite (fromProp_set_present _ k x y Hk), bind_Ret_l. reflexivity. }
  intros k x y n' v' fields Hk _.
  split; [exact (Hget k x n' v' fields Hk)|].
  split; [exact (Hset k x y n' v' fields Hk)|]. split.
  - rewrite (Hset k x y _ _ _ Hk), bind_Ret_l. apply Hget, lookup_insert_eq.
  - intros z. rewrite (Hset k x y _ _ _ Hk), bind_Ret_l.
    rewrite (Hset k y z _ _ _ (lookup_insert_eq _ _ _)).
    rewrite (Hset k x z _ _ _ Hk), insert_insert_eq. reflexivity.
Qed.

Lemma scoped_lens_laws_witness :
  exists g,
    closure [("One", [("var1", VUndefined); ("var2", VUndefined)])] = Ret g /\
    exists scT slice i,
      c_forTypes g !! "One" = Some scT /\
      scT !! "var2" = Some (MLenses slice) /\
      slice !! "lensFromProp" = Some (OLensFromProp i) /\
      lset (lensFromProp i "a") (VNum 2)
        (opaque (VStr "One") (VStr "var1")
           (VObj (<["a" := VNum 1]> (<["_tag" := VStr "x"]> ∅))))
      = Ret (VObj (<["__OPAQUE__" := VStr "__OPAQUE__"]>
                  (<["__OPAQUE_KEY__" := VStr "One"]>
                  (<["__OPAQUE_VARIATION__" := VStr "var2"]>
                  (<["value" := VObj (<["a" := VNum 2]>
                                       (<["a" := VNum 1]>
                                          (<["_tag" := VStr "x"]> ∅)))]> ∅))))).
Proof.
  destruct (constants_total ["One"] ["var1"; "var2"]) as [g E];
    [by_computation..|].
  exists g. split; [rewrite closure_cons; exact E|].
  destruct (scoped_lens_laws _ _ g "One" "var2" E)
    as (scT & slice & i & HT & HsT & Hmaker & Hlaws); [by_computation..|].
  exists scT, slice, i. split; [exact HT|]. split; [exact HsT|].
  split; [exact Hmaker|].
  apply (Hlaws "a" (VNum 1) (VNum 2)); [apply lookup_insert_eq|].
  rewrite !lookup_insert_ne by discriminate. apply lookup_empty.
Defined.

(** X11: which member of the returned object a key holds.  The two
    spreads come last in the object literal, [forVariations] after
    [forTypes]: a key that is a Variation holds the sub-object of that
    Variation; a key that is a Name and no Variation holds the sub-object
    of that Name; only a key that is neither holds the member the literal
    lists for it.  So a Name or a Variation called [of], [is], [types],
    [fold], [iso] or [lensFromProp] hides that member. *)
Theorem bundle_key_resolution {T : Type} (types : T) names variations g k :
  constants names variations = Ret g ->
  (k ∈ variations ->
   exists sc, c_forVariations g !! k = Some sc /\
              bundle types g !! k = Some (AScope sc)) /\
  (k ∉ variations -> k ∈ names ->
   exists sc, c_forTypes g !! k = Some sc /\
              bundle types g !! k = Some (AScope sc)) /\
  (k ∉ variations -> k ∉ names ->
   bundle types g !! k = fixed_members types g !! k).
Proof.
  intros Hgen.
  destruct (closure_scopes _ _ _ Hgen) as (HT & HV).
  destruct (constants_Ret _ _ _ Hgen) as (_ & _ & _ & _ & _ & _ & HfT & HfV).
  change (bundle types g)
    with (((AScope (T := T) <$> c_forVariations g) ∪ (AScope <$> c_forTypes g))
            ∪ fixed_members types g).
  split; [|split].
  - intros Hk. destruct (HV k Hk) as (_ & sc & _ & Hsc & _).
    exists sc. split; [exact Hsc|].
    apply (lookup_union_Some_l (M := gmap string)).
    apply (lookup_union_Some_l (M := gmap string)).
    rewrite lookup_fmap, Hsc. reflexivity.
  - intros Hv Hk. destruct (HT k Hk) as (_ & sc & _ & Hsc & _).
    exists sc. split; [exact Hsc|].
    apply (lookup_union_Some_l (M := gmap string)).
    rewrite (lookup_union_r (M := gmap string)).
    + rewrite lookup_fmap, Hsc. reflexivity.
    + rewrite lookup_fmap, (forVariations_lookup_None _ _ _ _ _ HfV Hv).
      reflexivity.
  - intros Hv Hk. apply (lookup_union_r (M := gmap string)).
    apply (lookup_union_None_2 (M := gmap string)); rewrite lookup_fmap.
    + rewrite (forVariations_lookup_None _ _ _ _ _ HfV Hv). reflexivity.
    + rewrite (forTypes_lookup_None _ _ _ _ _ HfT Hk). reflexivity.
Qed.

Lemma bundle_key_resolution_witness :
  exists g,
    closure [("of", [("is", VUndefined)])] = Ret g /\
    (exists sc, c_forVariations g !! "is" = Some sc /\
                bundle (T := schema) [("of", [("is", VUndefined)])] g !! "is"
                = Some (AScope sc)) /\
    (exists sc, c_forTypes g !! "of" = Some sc /\
                bundle (T := schema) [("of", [("is", VUndefined)])] g !! "of"
                = Some (AScope sc)).
Proof.
  destruct (constants_total ["of"] ["is"]) as [g E]; [by_computation..|].
  exists g. split; [rewrite closure_cons; exact E|].
  split.
  - apply (proj1 (bundle_key_resolution _ _ _ g "is" E)). by_computation.
  - apply (proj1 (proj2 (bundle_key_resolution _ _ _ g "of" E))); by_computation.
Defined.

(** ** What the schema algebra computes *)

Lemma set_field_fresh {A : Type} (o : list (string * A)) k a :
  k ∉ object_keys o -> set_field o k a = (o ++ [(k, a)])%list.
Proof.
  induction o as [|[k' a'] o IH]; intros Hk; [reflexivity|].
  cbn [set_field]. rewrite bool_decide_eq_false_2.
  - rewrite IH; [reflexivity|]. intros Hin. apply Hk. right. exact Hin.
  - intros ->. apply Hk. left.
Qed.

Lemma field_elem_of {A : Type} (o : list (string * A)) k a :
  NoDup (object_keys o) -> (k, a) ∈ o -> field o k = Some a.
Proof.
  induction o as [|[k' a'] o IH]; intros Hnd Hin.
  - apply elem_of_nil in Hin as [].
  - apply NoDup_cons in Hnd as (Hk' & Hnd). cbn [field].
    apply elem_of_cons in Hin as [[= <- <-]|Hin].
    + rewrite bool_decide_eq_true_2 by reflexivity. reflexivity.
    + rewrite bool_decide_eq_false_2; [apply IH; assumption|].
      intros ->. apply Hk'. exact (list_elem_of_fmap_2 fst _ _ Hin).
Qed.

Lemma field_Some_elem_of {A : Type} (o : list (string * A)) k a :
  field o k = Some a -> (k, a) ∈ o.
Proof.
  induction o as [|[k' a'] o IH]; [discriminate|]. cbn [field].
  destruct (bool_decide_reflect (k' = k)) as [->|_].
  - intros [= ->]. left.
  - intros H. right. apply IH, H.
Qed.

Lemma field_None {A : Type} (o : list (string * A)) k :
  field o k = None <-> k ∉ object_keys o.
Proof.
  induction o as [|[k' a'] o IH]; cbn [field].
  - split; [intros _ Hin; apply elem_of_nil in Hin as []|reflexivity].
  - unfold object_keys in *. rewrite fmap_cons, not_elem_of_cons. cbn [fst].
    destruct (bool_decide_reflect (k' = k)) as [->|Hne].
    + split; [discriminate|intros [Hk _]; destruct Hk; reflexivity].
    + rewrite IH. split; [intros H; split; [congruence|exact H]|intros [_ H]; exact H].
Qed.

(** The loop of [omit] and of [pick], over the keys of [fs]: what it has
    kept so far is [acc]. *)
Lemma filter_loop (skip : string -> bool) (fields : list (string * loc)) :
  forall (fs acc : list (string * loc)) (l : loc) (h : heap),
    h !! l = Some (CTypes acc) ->
    (forall k t, (k, t) ∈ fs -> field fields k = Some t) ->
    NoDup (object_keys acc ++ object_keys fs)%list ->
    exists l' h',
      reduce (fun localTypes key =>
                if skip key then retM localTypes
                else bindM (read_types localTypes) (fun local =>
                     bindM (table_of fields key) (fun t =>
                     new (CTypes (set_field local key t)))))
             (object_keys fs) l h = Ret (l', h') /\
      h `prefix_of` h' /\
      h' !! l' = Some (CTypes (acc ++ filter (fun kt => skip kt.1 = false) fs)%list).
Proof.
  induction fs as [|[k t] fs IH]; intros acc l h Hl Hfield Hnd.
  - exists l, h. split; [reflexivity|]. split; [reflexivity|].
    rewrite filter_nil, app_nil_r. exact Hl.
  - change (object_keys ((k, t) :: fs)) with (k :: object_keys fs) in *.
    match goal with |- context [reduce ?f _ _ _] => set (step := f) in * end.
    cbn [reduce].
    assert (Hfs : forall k' t', (k', t') ∈ fs -> field fields k' = Some t').
    { intros k' t' Hin. apply Hfield. right. exact Hin. }
    destruct (skip k) eqn:Hskip.
    + destruct (IH acc l h Hl Hfs) as (l' & h' & Hred & Hpre & Hl').
      { apply NoDup_app in Hnd as (Ha & Hd & Hf). apply NoDup_cons in Hf as (_ & Hf).
        apply NoDup_app. split; [exact Ha|]. split; [|exact Hf].
        intros x Hx Hin. apply (Hd x Hx). right. exact Hin. }
      exists l', h'. split; [|split; [exact Hpre|]].
      * assert (Hstep : step l k h = Ret (l, h)).
        { unfold step. rewrite Hskip. reflexivity. }
        rewrite (bindM_eq _ _ _ _ _ Hstep). exact Hred.
      * rewrite filter_cons_False; [exact Hl'|]. cbn [fst]. rewrite Hskip. discriminate.
    + assert (Hk : k ∉ object_keys acc).
      { apply NoDup_app in Hnd as (_ & Hd & _). intros Hin.
        apply (Hd k Hin). left. }
      destruct (IH (acc ++ [(k, t)])%list (length h)
                  (h ++ [CTypes (acc ++ [(k, t)])])%list)
        as (l' & h' & Hred & Hpre & Hl').
      { apply list_lookup_middle. reflexivity. }
      { exact Hfs. }
      { unfold object_keys in *. rewrite fmap_app, <- app_assoc. exact Hnd. }
      exists l', h'. split; [|split].
      * assert (Hstep : step l k h
                          = Ret (length h, (h ++ [CTypes (acc ++ [(k, t)])])%list)).
        { unfold step. rewrite Hskip.
          rewrite (bindM_eq _ _ _ _ _ (read_types_eval _ _ _ Hl)).
          unfold table_of. rewrite (Hfield k t) by left.
          unfold bindM, retM, new. rewrite (set_field_fresh _ _ _ Hk).
          reflexivity. }
        rewrite (bindM_eq _ _ _ _ _ Hstep). exact Hred.
      * etrans; [apply snoc_fresh|exact Hpre].
      * rewrite filter_cons_True by exact Hskip.
        rewrite <- app_assoc in Hl'. exact Hl'.
Qed.

Lemma filter_names (skip : string -> bool) union h api types fields
    (P : string * loc -> Prop) `{!forall kt, Decision (P kt)} :
  h !! union = Some (CBundle api) ->
  api !! "types" = Some (ATypes types) ->
  h !! types = Some (CTypes fields) ->
  NoDup (object_keys fields) ->
  (forall kt, P kt <-> skip kt.1 = false) ->
  exists types' h',
    h `prefix_of` h' /\
    h' !! types' = Some (CTypes (filter P fields)) /\
    bindM (types_of union) (fun types =>
    bindM (read_types types) (fun fields =>
    bindM (new (CTypes [])) (fun empty =>
    bindM (reduce (fun localTypes key =>
                     if skip key then retM localTypes
                     else bindM (read_types localTypes) (fun local =>
                          bindM (table_of fields key) (fun t =>
                          new (CTypes (set_field local key t)))))
                  (object_keys fields) empty)
          ofVariations_at))) h
    = ofVariations_at types' h'.
Proof.
  intros Hu Ht Hf Hnd HP.
  destruct (filter_loop skip fields fields [] (length h) (h ++ [CTypes []])%list)
    as (l' & h' & Hred & Hpre & Hl').
  { apply list_lookup_middle. reflexivity. }
  { intros k t Hin. apply field_elem_of; assumption. }
  { exact Hnd. }
  exists l', h'. split; [etrans; [apply snoc_fresh|exact Hpre]|]. split.
  - rewrite (list_filter_iff _ _ _ HP). exact Hl'.
  - rewrite (bindM_eq _ _ _ _ _ (types_of_eval _ _ _ _ Hu Ht)).
    rewrite (bindM_eq _ _ _ _ _ (read_types_eval _ _ _ Hf)).
    unfold bindM at 1, new at 1.
    unfold bindM at 1. rewrite Hred. reflexivity.
Qed.

(** X12: [omit] and [pick] run [ofVariations] on a new schema object that
    holds, in their order, the Names of [union.types] that are not among
    the omitted keys, respectively that are among the picked keys, each
    with the table object the old schema has for it: the tables are
    shared with the input, not copied.  Every object of the store the
    call started from is unchanged. *)
Theorem omit_pick_filter_names union h api types fields :
  h !! union = Some (CBundle api) ->
  api !! "types" = Some (ATypes types) ->
  h !! types = Some (CTypes fields) ->
  NoDup (object_keys fields) ->
  (forall omittedKeys, exists types' h',
      h `prefix_of` h' /\
      h' !! types' = Some (CTypes (filter (fun kt => kt.1 ∉ omittedKeys) fields)) /\
      omit union omittedKeys h = ofVariations_at types' h') /\
  (forall onlyKeys, exists types' h',
      h `prefix_of` h' /\
      h' !! types' = Some (CTypes (filter (fun kt => kt.1 ∈ onlyKeys) fields)) /\
      pick union onlyKeys h = ofVariations_at types' h').
Proof.
  intros Hu Ht Hf Hnd. split.
  - intros omittedKeys.
    apply (filter_names (fun key => bool_decide (key ∈ omittedKeys))
             union h api types fields _ Hu Ht Hf Hnd).
    intros kt. rewrite bool_decide_eq_false. reflexivity.
  - intros onlyKeys.
    apply (filter_names (fun key => negb (bool_decide (key ∈ onlyKeys)))
             union h api types fields _ Hu Ht Hf Hnd).
    intros kt. rewrite negb_false_iff, bool_decide_eq_true. reflexivity.
Qed.

Lemma omit_pick_filter_names_witness :
  exists g,
    closure [("One", [("var1", VUndefined)]); ("Two", [("var1", VUndefined)])]
    = Ret g /\
    let t := [("var1", VUndefined)] in
    let h0 := [CTable t; CTable t; CTypes [("One", 0); ("Two", 1)];
               CBundle (bundle 2 g)] in
    (exists types' h',
        h0 `prefix_of` h' /\
        h' !! types' = Some (CTypes [("Two", 1)]) /\
        omit 3 ["One"] h0 = ofVariations_at types' h') /\
    (exists types' h',
        h0 `prefix_of` h' /\
        h' !! types' = Some (CTypes [("One", 0)]) /\
        pick 3 ["One"] h0 = ofVariations_at types' h').
Proof.
  destruct (constants_total ["One"; "Two"] ["var1"]) as [g E];
    [by_computation..|].
  exists g. split; [rewrite closure_cons; exact E|].
  intros t h0.
  destruct (omit_pick_filter_names 3 h0 (bundle 2 g) 2 [("One", 0); ("Two", 1)])
    as (Homit & Hpick).
  - reflexivity.
  - apply (bundle_lookup_types 2 _ _ g E); by_computation.
  - reflexivity.
  - by_computation.
  - split; [exact (Homit ["One"])|exact (Hpick ["One"])].
Defined.

Lemma ofVariations_at_nil types h :
  h !! types = Some (CTypes []) -> ofVariations_at types h = Throw TypeError.
Proof.
  intros Ht. unfold ofVariations_at.
  rewrite (bindM_eq _ _ _ _ _ (read_types_eval _ _ _ Ht)). reflexivity.
Qed.

Lemma ofVariations_at_inv types h union h' :
  ofVariations_at types h = Ret (union, h') ->
  exists n0 t0 rest tbl g,
    h !! types = Some (CTypes ((n0, t0) :: rest)) /\
    h !! t0 = Some (CTable tbl) /\
    constants (n0 :: object_keys rest) (object_keys tbl) = Ret g /\
    union = length h /\
    h' = (h ++ [CBundle (bundle types g)])%list.
Proof.
  unfold ofVariations_at, generate. intros H.
  apply bindM_Ret in H as (fields & h1 & Hfields & H).
  apply read_types_Ret in Hfields as (Hfields & ->).
  apply bindM_Ret in H as (first & h1 & Hfirst & H).
  destruct fields as [|[n0 t0] rest].
  { apply lift_Ret in Hfirst as ([=] & _). }
  rewrite first_field in Hfirst.
  apply read_table_Ret in Hfirst as (Hfirst & ->).
  apply bindM_Ret in H as (api & h1 & Hapi & H).
  apply lift_Ret in Hapi as (Hapi & ->).
  apply new_Ret in H as (-> & ->).
  apply bind_Ret in Hapi as (g & Hg & [= <-]).
  exists n0, t0, rest, first, g. repeat split; assumption.
Qed.

Lemma filter_none {A : Type} (P : A -> Prop) `{!forall x, Decision (P x)}
    (l : list A) :
  (forall x, x ∈ l -> ~ P x) -> filter P l = [].
Proof.
  induction l as [|x l IH]; intros Hl; [reflexivity|].
  rewrite filter_cons_False by (apply Hl; left).
  apply IH. intros y Hy. apply Hl. right. exact Hy.
Qed.

Lemma object_keys_filter {A : Type} (P : string -> Prop)
    `{!forall k, Decision (P k)} (o : list (string * A)) :
  object_keys (filter (fun kt => P kt.1) o) = filter P (object_keys o).
Proof.
  unfold object_keys. induction o as [|[k a] o IH]; [reflexivity|].
  rewrite fmap_cons. cbn [fst]. destruct (decide (P k)) as [Hk|Hk].
  - rewrite !filter_cons_True by exact Hk. rewrite fmap_cons, IH. reflexivity.
  - rewrite !filter_cons_False by exact Hk. exact IH.
Qed.

(** The guard of a bundle generated at [types'], in a store where
    [types'] holds the names [kept]. *)
Lemma generated_at_guard types' h' union'' h'' (kept : list (string * loc)) :
  h' !! types' = Some (CTypes kept) ->
  ofVariations_at types' h' = Ret (union'', h'') ->
  exists g n0 t0 tbl,
    h'' !! union'' = Some (CBundle (bundle types' g)) /\
    head kept = Some (n0, t0) /\
    h' !! t0 = Some (CTable tbl) /\
    constants (object_keys kept) (object_keys tbl) = Ret g /\
    forall n v p,
      fcall (c_isAll g) (opaque (VStr n) (VStr v) p)
      = Ret (bool_decide (n ∈ object_keys kept) &&
             bool_decide (v ∈ object_keys tbl)).
Proof.
  intros Hkept H.
  apply ofVariations_at_inv in H
    as (n0 & t0 & rest & tbl & g & Ht & Htbl & Hg & -> & ->).
  pose proof (eq_trans (eq_sym Hkept) Ht) as [= ->].
  exists g, n0, t0, tbl. split; [apply list_lookup_middle; reflexivity|].
  split; [reflexivity|]. split; [exact Htbl|]. split; [exact Hg|].
  intros n v p. rewrite (is_call _ _ g Hg). apply is_any_opaque.
Qed.

(** X13: the union [omit] returns.  When every Name of the input is
    omitted the call throws a [TypeError].  When it returns, the new
    bundle is generated for the Names that are kept and for the
    Variations of the table of the first Name kept, and its guard [is]
    accepts an entity exactly when its Name is a Name of the input that
    was not omitted and its Variation is one of those Variations. *)
Theorem omit_result union h api types fields omittedKeys :
  h !! union = Some (CBundle api) ->
  api !! "types" = Some (ATypes types) ->
  h !! types = Some (CTypes fields) ->
  NoDup (object_keys fields) ->
  ((forall n, n ∈ object_keys fields -> n ∈ omittedKeys) ->
   omit union omittedKeys h = Throw TypeError) /\
  (forall union' h',
      omit union omittedKeys h = Ret (union', h') ->
      exists types' g n0 t0 tbl,
        h' !! union' = Some (CBundle (bundle types' g)) /\
        head (filter (fun kt => kt.1 ∉ omittedKeys) fields) = Some (n0, t0) /\
        h' !! t0 = Some (CTable tbl) /\
        constants (filter (fun k => k ∉ omittedKeys) (object_keys fields))
                  (object_keys tbl) = Ret g /\
        forall n v p,
          fcall (c_isAll g) (opaque (VStr n) (VStr v) p)
          = Ret (bool_decide (n ∈ object_keys fields) &&
                 negb (bool_decide (n ∈ omittedKeys)) &&
                 bool_decide (v ∈ object_keys tbl))).
Proof.
  intros Hu Ht Hf Hnd.
  destruct (filter_names (fun key => bool_decide (key ∈ omittedKeys))
              union h api types fields (fun kt => kt.1 ∉ omittedKeys)
              Hu Ht Hf Hnd)
    as (types' & h1 & Hpre & Htypes' & Homit).
  { intros kt. rewrite bool_decide_eq_false. reflexivity. }
  change (omit union omittedKeys h = ofVariations_at types' h1) in Homit.
  split.
  - intros Hall. rewrite Homit.
    assert (Hnil : filter (fun kt : string * loc => kt.1 ∉ omittedKeys) fields = []).
    { apply filter_none.
      intros [k t] Hin Hk. apply Hk, Hall. exact (list_elem_of_fmap_2 fst _ _ Hin). }
    rewrite Hnil in Htypes'. exact (ofVariations_at_nil _ _ Htypes').
  - intros union' h' Hret. rewrite Homit in Hret.
    destruct (generated_at_guard _ _ _ _ _ Htypes' Hret)
      as (g & n0 & t0 & tbl & Hb & Hhead & Htbl & Hg & Hguard).
    exists types', g, n0, t0, tbl. split; [exact Hb|]. split; [exact Hhead|].
    split.
    { apply ofVariations_at_Ret in Hret as (g' & _ & Hh'). rewrite Hh'.
      apply lookup_app_l_Some. exact Htbl. }
    pose proof (object_keys_filter (A := loc) (fun k => k ∉ omittedKeys) fields)
      as Hkeys.
    cbv beta in Hkeys. rewrite Hkeys in Hg, Hguard.
    split; [exact Hg|].
    intros n v p. rewrite Hguard. do 2 f_equal.
    apply eq_bool_prop_intro.
    rewrite andb_True, negb_True, !bool_decide_spec, list_elem_of_filter. tauto.
Qed.

Lemma omit_result_witness :
  exists g,
    closure [("One", [("var1", VUndefined)]); ("Two", [("var2", VUndefined)])]
    = Ret g /\
    let h0 := [CTable [("var1", VUndefined)]; CTable [("var2", VUndefined)];
               CTypes [("One", 0); ("Two", 1)]; CBundle (bundle 2 g)] in
    omit 3 ["One"; "Two"] h0 = Throw TypeError /\
    exists union' h' g',
      omit 3 ["One"] h0 = Ret (union', h') /\
      forall n v p,
        fcall (c_isAll g') (opaque (VStr n) (VStr v) p)
        = Ret (bool_decide (n ∈ ["One"; "Two"]) &&
               negb (bool_decide (n ∈ ["One"])) &&
               bool_decide (v ∈ ["var2"])).
Proof.
  destruct (constants_total ["One"; "Two"] ["var1"]) as [g E];
    [by_computation..|].
  exists g. split; [rewrite closure_cons; exact E|].
  intros h0.
  assert (Htypes : bundle 2 g !! "types" = Some (ATypes 2)).
  { apply (bundle_lookup_types 2 _ _ g E); by_computation. }
  split.
  - apply (proj1 (omit_result 3 h0 (bundle 2 g) 2 [("One", 0); ("Two", 1)]
                    ["One"; "Two"] eq_refl Htypes eq_refl ltac:(by_computation))).
    intros n Hn. exact Hn.
  - assert (Romit : exists r, omit 3 ["One"] h0 = Ret r).
    { unfold omit.
      rewrite (bindM_eq _ _ _ _ _ (types_of_eval 3 h0 _ 2 eq_refl Htypes)).
      run_store. }
    destruct Romit as [[union' h'] R].
    destruct (proj2 (omit_result 3 h0 (bundle 2 g) 2 [("One", 0); ("Two", 1)]
                       ["One"] eq_refl Htypes eq_refl ltac:(by_computation))
                union' h' R)
      as (types' & g' & n0 & t0 & tbl & _ & Hhead & Htbl & _ & Hguard).
    exists union', h', g'. split; [exact R|].
    injection Hhead as <- <-.
    pose proof (proj1 (omit_pure _ _ _ _ R) 1 _ eq_refl) as Htwo.
    cbn [snd] in Htwo.
    pose proof (eq_trans (eq_sym Htbl) Htwo) as [= ->]. exact Hguard.
Defined.

Lemma field_set_field {A : Type} (o : list (string * A)) k a k' :
  field (set_field o k a) k' = if bool_decide (k = k') then Some a else field o k'.
Proof.
  induction o as [|[k0 a0] o IH]; cbn [set_field field].
  - reflexivity.
  - destruct (bool_decide_reflect (k0 = k)) as [->|Hne]; cbn [field].
    + destruct (bool_decide_reflect (k = k')); reflexivity.
    + rewrite IH. destruct (bool_decide_reflect (k0 = k')) as [->|_]; [|reflexivity].
      rewrite (bool_decide_eq_false_2 (k = k')); [reflexivity|].
      intros ->. apply Hne. reflexivity.
Qed.

Lemma object_keys_set_field {A : Type} (o : list (string * A)) k a :
  object_keys (set_field o k a)
  = if bool_decide (k ∈ object_keys o) then object_keys o
    else (object_keys o ++ [k])%list.
Proof.
  destruct (bool_decide_reflect (k ∈ object_keys o)) as [Hin|Hin].
  - induction o as [|[k0 a0] o IH]; [apply elem_of_nil in Hin as []|].
    cbn [set_field]. destruct (bool_decide_reflect (k0 = k)) as [->|Hne].
    + reflexivity.
    + unfold object_keys in *. rewrite !fmap_cons. f_equal. apply IH.
      rewrite fmap_cons in Hin. apply elem_of_cons in Hin as [Heq|Hin]; [|exact Hin].
      destruct Hne. symmetry. exact Heq.
  - rewrite (set_field_fresh _ _ _ Hin). unfold object_keys. rewrite fmap_app.
    reflexivity.
Qed.

(** [{...o1, ...o2}]: a key of [o2] holds what [o2] has for it. *)
Lemma field_spread {A : Type} (o2 o1 : list (string * A)) k :
  NoDup (object_keys o2) ->
  field (spread o1 o2) k
  = match field o2 k with
    | Some a => Some a
    | None => field o1 k
    end.
Proof.
  unfold spread. revert o1. induction o2 as [|[k0 a0] o2 IH]; intros o1 Hnd.
  - reflexivity.
  - change (object_keys ((k0, a0) :: o2)) with (k0 :: object_keys o2) in Hnd.
    apply NoDup_cons in Hnd as (Hk0 & Hnd).
    cbn [fold_left field]. rewrite (IH _ Hnd), field_set_field.
    destruct (bool_decide_reflect (k0 = k)) as [<-|_]; [|reflexivity].
    rewrite (proj2 (field_None o2 k0) Hk0). reflexivity.
Qed.

Lemma filter_all {A : Type} (P : A -> Prop) `{!forall x, Decision (P x)}
    (l : list A) :
  (forall x, x ∈ l -> P x) -> filter P l = l.
Proof.
  induction l as [|x l IH]; intros Hl; [reflexivity|].
  rewrite filter_cons_True by (apply Hl; left).
  f_equal. apply IH. intros y Hy. apply Hl. right. exact Hy.
Qed.

Lemma filter_ext_in {A : Type} (P Q : A -> Prop)
    `{!forall x, Decision (P x)} `{!forall x, Decision (Q x)} (l : list A) :
  (forall x, x ∈ l -> P x <-> Q x) -> filter P l = filter Q l.
Proof.
  induction l as [|x l IH]; intros Hl; [reflexivity|].
  assert (Htl : filter P l = filter Q l).
  { apply IH. intros y Hy. apply Hl. right. exact Hy. }
  destruct (decide (P x)) as [Hx|Hx].
  - rewrite (filter_cons_True P) by exact Hx.
    rewrite (filter_cons_True Q) by (apply Hl; [left|exact Hx]).
    rewrite Htl. reflexivity.
  - rewrite (filter_cons_False P) by exact Hx.
    rewrite (filter_cons_False Q); [exact Htl|].
    intros HQ. apply Hx, Hl; [left|exact HQ].
Qed.

(** The keys of [{...o1, ...o2}]: those of [o1], then the new ones of
    [o2]. *)
Lemma object_keys_spread {A : Type} (o2 o1 : list (string * A)) :
  NoDup (object_keys o2) ->
  object_keys (spread o1 o2)
  = (object_keys o1 ++ filter (fun k => k ∉ object_keys o1) (object_keys o2))%list.
Proof.
  unfold spread. revert o1. induction o2 as [|[k0 a0] o2 IH]; intros o1 Hnd.
  - cbn [fold_left]. change (object_keys []) with (@nil string).
    rewrite filter_nil, app_nil_r. reflexivity.
  - change (object_keys ((k0, a0) :: o2)) with (k0 :: object_keys o2) in *.
    apply NoDup_cons in Hnd as (Hk0 & Hnd).
    cbn [fold_left]. rewrite (IH _ Hnd), object_keys_set_field.
    destruct (bool_decide_reflect (k0 ∈ object_keys o1)) as [Hin|Hin].
    + rewrite filter_cons_False by (intros Hn; exact (Hn Hin)). reflexivity.
    + rewrite filter_cons_True by exact Hin. rewrite <- app_assoc. cbn [app].
      do 2 f_equal. apply filter_ext_in.
      intros x Hx. rewrite not_elem_of_app, list_elem_of_singleton.
      split; [intros [Hx1 _]; exact Hx1|].
      intros Hx1. split; [exact Hx1|]. intros ->. exact (Hk0 Hx).
Qed.

(** X14: [merge] runs [ofVariations] on a new schema object
    [{...union1.types, ...union2.types}]: its Names are those of
    [union1] in their order, then the Names only [union2] has; a Name
    both have holds the table of [union2].  When the call returns, the
    Variations of the merged bundle are the keys of one table only, that
    of the first Name, and its guard [is] accepts an entity exactly when
    its Name is a Name of either input and its Variation is a key of that
    table. *)
Theorem merge_result union1 union2 h api1 api2 types1 types2 fields1 fields2 :
  h !! union1 = Some (CBundle api1) ->
  api1 !! "types" = Some (ATypes types1) ->
  h !! types1 = Some (CTypes fields1) ->
  h !! union2 = Some (CBundle api2) ->
  api2 !! "types" = Some (ATypes types2) ->
  h !! types2 = Some (CTypes fields2) ->
  NoDup (object_keys fields2) ->
  merge union1 union2 h
  = ofVariations_at (length h) (h ++ [CTypes (spread fields1 fields2)])%list /\
  object_keys (spread fields1 fields2)
  = (object_keys fields1
     ++ filter (fun k => k ∉ object_keys fields1) (object_keys fields2))%list /\
  (forall k,
      field (spread fields1 fields2) k
      = match field fields2 k with
        | Some t => Some t
        | None => field fields1 k
        end) /\
  (forall union' h',
      merge union1 union2 h = Ret (union', h') ->
      exists g n0 t0 tbl,
        h' !! union' = Some (CBundle (bundle (length h) g)) /\
        head (object_keys fields1 ++ object_keys fields2)%list = Some n0 /\
        field (spread fields1 fields2) n0 = Some t0 /\
        h !! t0 = Some (CTable tbl) /\
        constants (object_keys (spread fields1 fields2)) (object_keys tbl) = Ret g /\
        forall n v p,
          fcall (c_isAll g) (opaque (VStr n) (VStr v) p)
          = Ret ((bool_decide (n ∈ object_keys fields1) ||
                  bool_decide (n ∈ object_keys fields2)) &&
                 bool_decide (v ∈ object_keys tbl))).
Proof.
  intros Hu1 Ha1 Hf1 Hu2 Ha2 Hf2 Hnd.
  assert (Hmerge : merge union1 union2 h
                   = ofVariations_at (length h)
                       (h ++ [CTypes (spread fields1 fields2)])%list).
  { unfold merge.
    rewrite (bindM_eq _ _ _ _ _ (types_of_eval _ _ _ _ Hu1 Ha1)).
    rewrite (bindM_eq _ _ _ _ _ (read_types_eval _ _ _ Hf1)).
    rewrite (bindM_eq _ _ _ _ _ (types_of_eval _ _ _ _ Hu2 Ha2)).
    rewrite (bindM_eq _ _ _ _ _ (read_types_eval _ _ _ Hf2)).
    reflexivity. }
  pose proof (object_keys_spread fields2 fields1 Hnd) as Hkeys.
  split; [exact Hmerge|]. split; [exact Hkeys|].
  split; [intros k; apply field_spread, Hnd|].
  intros union' h' Hret. rewrite Hmerge in Hret.
  destruct (generated_at_guard (length h) _ _ _ (spread fields1 fields2)
              (list_lookup_middle _ _ _ _ eq_refl) Hret)
    as (g & n0 & t0 & tbl & Hb & Hhead & Htbl & Hg & Hguard).
  exists g, n0, t0, tbl. split; [exact Hb|].
  assert (Hn0 : head (object_keys (spread fields1 fields2)) = Some n0).
  { unfold object_keys. destruct (spread fields1 fields2) as [|[k t] o];
      [discriminate|]. injection Hhead as -> _. reflexivity. }
  clear Hmerge Hret.
  split.
  { rewrite Hkeys in Hn0. destruct (object_keys fields1) as [|k ks]; [|exact Hn0].
    cbn [app] in *. rewrite filter_all in Hn0; [exact Hn0|].
    intros x _. apply not_elem_of_nil. }
  split.
  { destruct (spread fields1 fields2) as [|[k t] o]; [discriminate|].
    injection Hhead as -> ->. cbn [field].
    rewrite bool_decide_eq_true_2 by reflexivity. reflexivity. }
  split.
  { apply lookup_snoc_Some in Htbl as [[_ Htbl]|[_ [=]]]. exact Htbl. }
  split; [exact Hg|].
  intros n v p. rewrite Hguard. do 2 f_equal. apply eq_bool_prop_intro.
  rewrite orb_True, !bool_decide_spec, Hkeys, elem_of_app, list_elem_of_filter.
  destruct (decide (n ∈ object_keys fields1)); tauto.
Qed.

Lemma merge_result_witness :
  exists g1 g2,
    closure [("One", [("var1", VUndefined)])] = Ret g1 /\
    closure [("Two", [("var2", VUndefined)])] = Ret g2 /\
    let h0 := [CTable [("var1", VUndefined)]; CTypes [("One", 0)];
               CBundle (bundle 1 g1);
               CTable [("var2", VUndefined)]; CTypes [("Two", 3)];
               CBundle (bundle 4 g2)] in
    exists union' h' g,
      merge 2 5 h0 = Ret (union', h') /\
      h' !! union' = Some (CBundle (bundle 6 g)) /\
      fcall (c_isAll g) (opaque (VStr "Two") (VStr "var2") VNull) = Ret false.
Proof.
  destruct (constants_total ["One"] ["var1"]) as [g1 E1]; [by_computation..|].
  destruct (constants_total ["Two"] ["var2"]) as [g2 E2]; [by_computation..|].
  exists g1, g2. split; [rewrite closure_cons; exact E1|].
  split; [rewrite closure_cons; exact E2|].
  intros h0.
  assert (Ht1 : bundle 1 g1 !! "types" = Some (ATypes 1)).
  { apply (bundle_lookup_types 1 _ _ g1 E1); by_computation. }
  assert (Ht2 : bundle 4 g2 !! "types" = Some (ATypes 4)).
  { apply (bundle_lookup_types 4 _ _ g2 E2); by_computation. }
  destruct (merge_result 2 5 h0 (bundle 1 g1) (bundle 4 g2) 1 4
              [("One", 0)] [("Two", 3)] eq_refl Ht1 eq_refl eq_refl Ht2 eq_refl
              ltac:(by_computation))
    as (Hmerge & _ & _ & Hres).
  assert (Rmerge : exists r, merge 2 5 h0 = Ret r).
  { rewrite Hmerge. run_store. }
  destruct Rmerge as [[union' h'] R].
  destruct (Hres union' h' R)
    as (g & n0 & t0 & tbl & Hb & Hhead & Hfield & Htbl & _ & Hguard).
  exists union', h', g. split; [exact R|]. split; [exact Hb|].
  injection Hhead as <-. injection Hfield as <-. injection Htbl as <-.
  rewrite Hguard. reflexivity.
Defined.

(** The inner loop of [omitVariations], over the variations [vs]: the
    table built so far is [acc]. *)
Lemma variation_loop (skip : string -> bool) (localType : table) :
  forall (vs : list string) (acc : table) (l : loc) (h : heap),
    h !! l = Some (CTable acc) ->
    NoDup (object_keys acc ++ vs)%list ->
    exists l' h',
      reduce (fun localVariations variation =>
                if skip variation then retM localVariations
                else bindM (read_table localVariations) (fun local =>
                     new (CTable (set_field local variation
                                    (table_get localType variation)))))
             vs l h = Ret (l', h') /\
      h `prefix_of` h' /\
      l <= l' /\
      h' !! l'
      = Some (CTable (acc ++ ((fun v => (v, table_get localType v))
                                <$> filter (fun v => skip v = false) vs))%list).
Proof.
  induction vs as [|v vs IH]; intros acc l h Hl Hnd.
  - exists l, h. split; [reflexivity|]. split; [reflexivity|].
    split; [reflexivity|].
    rewrite filter_nil, fmap_nil, app_nil_r. exact Hl.
  - match goal with |- context [reduce ?f _ _ _] => set (step := f) in * end.
    cbn [reduce].
    destruct (skip v) eqn:Hskip.
    + destruct (IH acc l h Hl) as (l' & h' & Hred & Hpre & Hle & Hl').
      { apply NoDup_app in Hnd as (Ha & Hd & Hf). apply NoDup_cons in Hf as (_ & Hf).
        apply NoDup_app. split; [exact Ha|]. split; [|exact Hf].
        intros x Hx Hin. apply (Hd x Hx). right. exact Hin. }
      exists l', h'. split; [|split; [exact Hpre|split; [exact Hle|]]].
      * assert (Hstep : step l v h = Ret (l, h)).
        { unfold step. rewrite Hskip. reflexivity. }
        rewrite (bindM_eq _ _ _ _ _ Hstep). exact Hred.
      * rewrite filter_cons_False; [exact Hl'|]. rewrite Hskip. discriminate.
    + assert (Hv : v ∉ object_keys acc).
      { apply NoDup_app in Hnd as (_ & Hd & _). intros Hin.
        apply (Hd v Hin). left. }
      set (x := table_get localType v).
      destruct (IH (acc ++ [(v, x)])%list (length h)
                  (h ++ [CTable (acc ++ [(v, x)])])%list)
        as (l' & h' & Hred & Hpre & Hle & Hl').
      { apply list_lookup_middle. reflexivity. }
      { unfold object_keys in *. rewrite fmap_app, <- app_assoc. exact Hnd. }
      exists l', h'. split; [|split; [|split]].
      * assert (Hstep : step l v h
                          = Ret (length h, (h ++ [CTable (acc ++ [(v, x)])])%list)).
        { unfold step. rewrite Hskip.
          rewrite (bindM_eq _ _ _ _ _ (read_table_eval _ _ _ Hl)).
          unfold new. rewrite (set_field_fresh _ _ _ Hv). reflexivity. }
        rewrite (bindM_eq _ _ _ _ _ Hstep). exact Hred.
      * etrans; [apply snoc_fresh|exact Hpre].
      * apply lookup_lt_Some in Hl. lia.
      * rewrite filter_cons_True by exact Hskip.
        rewrite fmap_cons. rewrite <- app_assoc in Hl'. exact Hl'.
Qed.

(** The outer loop of [omitVariations], over the names of [fs]: the
    schema built so far is [acc]. *)
Lemma name_loop (skip : string -> bool) (fields : list (string * loc))
    (variations : list string) :
  NoDup variations ->
  forall (fs acc : list (string * loc)) (l : loc) (h : heap),
    h !! l = Some (CTypes acc) ->
    (forall k t, (k, t) ∈ fs ->
       field fields k = Some t /\ exists tbl, h !! t = Some (CTable tbl)) ->
    NoDup (object_keys acc ++ object_keys fs)%list ->
    exists l' h' made,
      reduce (fun localTypes name =>
          bindM (bindM (table_of fields name) read_table) (fun localType =>
          bindM (new (CTable [])) (fun emptyType =>
          bindM (reduce (fun localVariations variation =>
                   if skip variation then retM localVariations
                   else bindM (read_table localVariations) (fun local =>
                        new (CTable (set_field local variation
                               (table_get localType variation)))))
                   variations emptyType) (fun filteredType =>
          bindM (read_types localTypes) (fun local =>
          new (CTypes (set_field local name filteredType)))))))
        (object_keys fs) l h = Ret (l', h') /\
      h `prefix_of` h' /\
      h' !! l' = Some (CTypes (acc ++ made)%list) /\
      Forall2 (fun kt kt' : string * loc =>
                 kt'.1 = kt.1 /\ length h <= kt'.2 /\
                 forall tbl, h !! kt.2 = Some (CTable tbl) ->
                   h' !! kt'.2
                   = Some (CTable ((fun v => (v, table_get tbl v))
                                     <$> filter (fun v => skip v = false) variations)))
              fs made.
Proof.
  intros Hvs. induction fs as [|[k t] fs IH]; intros acc l h Hl Hfs Hnd.
  - exists l, h, []. split; [reflexivity|]. split; [reflexivity|].
    split; [rewrite app_nil_r; exact Hl|constructor].
  - match goal with |- context [reduce ?f _ _ _] => set (step := f) in * end.
    change (object_keys ((k, t) :: fs)) with (k :: object_keys fs) in *.
    cbn [reduce].
    destruct (Hfs k t) as (Hk & tbl & Ht); [left|].
    assert (Hacc : k ∉ object_keys acc).
    { apply NoDup_app in Hnd as (_ & Hd & _). intros Hin.
      apply (Hd k Hin). left. }
    destruct (variation_loop skip tbl variations [] (length h)
                (h ++ [CTable []])%list)
      as (l2 & h2 & Hinner & Hpre2 & Hle2 & Hl2).
    { apply list_lookup_middle. reflexivity. }
    { exact Hvs. }
    cbn [app] in Hl2.
    assert (Hpre02 : h `prefix_of` h2) by (etrans; [apply snoc_fresh|exact Hpre2]).
    assert (Hstep : step l k h
                    = Ret (length h2, (h2 ++ [CTypes (acc ++ [(k, l2)])])%list)).
    { unfold step.
      assert (Hread : bindM (table_of fields k) read_table h = Ret (tbl, h)).
      { unfold table_of. rewrite Hk. unfold bindM, retM.
        exact (read_table_eval _ _ _ Ht). }
      rewrite (bindM_eq _ _ _ _ _ Hread).
      unfold bindM at 1, new at 1.
      rewrite (bindM_eq _ _ _ _ _ Hinner).
      rewrite (bindM_eq _ _ _ _ _
                 (read_types_eval _ _ _ (prefix_lookup_Some _ _ _ _ Hl Hpre02))).
      unfold new. rewrite (set_field_fresh _ _ _ Hacc). reflexivity. }
    assert (Hpre03 : h `prefix_of` (h2 ++ [CTypes (acc ++ [(k, l2)])])%list).
    { etrans; [exact Hpre02|apply snoc_fresh]. }
    destruct (IH (acc ++ [(k, l2)])%list (length h2)
                (h2 ++ [CTypes (acc ++ [(k, l2)])])%list)
      as (l' & h' & made & Hred & Hpre & Hl' & Hall).
    { apply list_lookup_middle. reflexivity. }
    { intros k' t' Hin. destruct (Hfs k' t') as (Hk' & tbl' & Ht'); [right; exact Hin|].
      split; [exact Hk'|]. exists tbl'.
      exact (prefix_lookup_Some _ _ _ _ Ht' Hpre03). }
    { unfold object_keys in *. rewrite fmap_app, <- app_assoc. exact Hnd. }
    exists l', h', ((k, l2) :: made).
    split; [rewrite (bindM_eq _ _ _ _ _ Hstep); exact Hred|].
    split; [etrans; [exact Hpre03|exact Hpre]|].
    split; [rewrite <- app_assoc in Hl'; exact Hl'|].
    constructor.
    + cbn [fst snd]. split; [reflexivity|]. split; [exact Hle2|].
      intros tbl0 Ht0. pose proof (eq_trans (eq_sym Ht) Ht0) as [= <-].
      apply (prefix_lookup_Some h2); [exact Hl2|].
      etrans; [apply snoc_fresh|exact Hpre].
    + eapply Forall2_impl; [exact Hall|]. cbv beta.
      intros kt kt' (Hname & Hfresh & Htable). split; [exact Hname|]. split.
      * apply prefix_length in Hpre03. lia.
      * intros tbl0 Ht0. apply Htable.
        exact (prefix_lookup_Some _ _ _ _ Ht0 Hpre03).
Qed.

Lemma omitVariations_eval union h api types n0 t0 rest first
    omittedVariations :
  h !! union = Some (CBundle api) ->
  api !! "types" = Some (ATypes types) ->
  h !! types = Some (CTypes ((n0, t0) :: rest)) ->
  NoDup (object_keys ((n0, t0) :: rest)) ->
  h !! t0 = Some (CTable first) ->
  NoDup (object_keys first) ->
  (forall n t, (n, t) ∈ rest -> exists tbl, h !! t = Some (CTable tbl)) ->
  exists types' h' fields',
    h `prefix_of` h' /\
    h' !! types' = Some (CTypes fields') /\
    omitVariations union omittedVariations h = ofVariations_at types' h' /\
    Forall2 (fun kt kt' : string * loc =>
               kt'.1 = kt.1 /\ h !! kt'.2 = None /\
               forall tbl, h !! kt.2 = Some (CTable tbl) ->
                 h' !! kt'.2
                 = Some (CTable ((fun v => (v, table_get tbl v))
                                   <$> filter (fun v => v ∉ omittedVariations)
                                         (object_keys first))))
            ((n0, t0) :: rest) fields'.
Proof.
  intros Hu Ha Hf Hnd Ht0 Hvs Hrest.
  destruct (name_loop (fun v => bool_decide (v ∈ omittedVariations))
              ((n0, t0) :: rest) (object_keys first) Hvs
              ((n0, t0) :: rest) [] (length h) (h ++ [CTypes []])%list)
    as (l' & h' & made & Hred & Hpre & Hl' & Hall).
  { apply list_lookup_middle. reflexivity. }
  { intros k t Hin. split; [apply field_elem_of; assumption|].
    apply elem_of_cons in Hin as [[= -> ->]|Hin].
    - exists first. apply lookup_app_l_Some. exact Ht0.
    - destruct (Hrest k t Hin) as [tbl Ht]. exists tbl.
      apply lookup_app_l_Some. exact Ht. }
  { exact Hnd. }
  assert (Hpre0 : h `prefix_of` h') by (etrans; [apply snoc_fresh|exact Hpre]).
  exists l', h', made. split; [exact Hpre0|]. split; [exact Hl'|]. split.
  - unfold omitVariations.
    rewrite (bindM_eq _ _ _ _ _ (types_of_eval _ _ _ _ Hu Ha)).
    rewrite (bindM_eq _ _ _ _ _ (read_types_eval _ _ _ Hf)).
    rewrite first_field.
    rewrite (bindM_eq _ _ _ _ _ (read_table_eval _ _ _ Ht0)).
    unfold bindM at 1, new at 1.
    unfold bindM at 1. rewrite Hred. reflexivity.
  - eapply Forall2_impl; [exact Hall|]. cbv beta.
    intros kt kt' (Hname & Hfresh & Htable). split; [exact Hname|]. split.
    + apply lookup_ge_None. rewrite length_app in Hfresh. cbn [length] in Hfresh. lia.
    + intros tbl Ht.
      etrans; [exact (Htable tbl (lookup_app_l_Some _ _ _ _ Ht))|].
      do 3 f_equal. apply list_filter_iff. intros v.
      rewrite bool_decide_eq_false. reflexivity.
Qed.

(** X15: [omitVariations] runs [ofVariations] on a new schema object that
    has the Names of the input, in their order, each with a new table.
    The keys of every new table are the same: the Variations of the
    first table of the input that are not omitted, in their order.  The
    value of a key is what reading the Name's own table under it gives:
    the table's own property, else a member the table inherits from
    [Object.prototype] ([toString], [constructor], ...), else
    [undefined].  Keys that only a later table has are dropped.  Every
    object of the store the call started from is unchanged. *)
Theorem omitVariations_rebuilds_tables union h api types n0 t0 rest first
    omittedVariations :
  h !! union = Some (CBundle api) ->
  api !! "types" = Some (ATypes types) ->
  h !! types = Some (CTypes ((n0, t0) :: rest)) ->
  NoDup (object_keys ((n0, t0) :: rest)) ->
  h !! t0 = Some (CTable first) ->
  NoDup (object_keys first) ->
  (forall n t, (n, t) ∈ rest -> exists tbl, h !! t = Some (CTable tbl)) ->
  exists types' h' fields',
    h `prefix_of` h' /\
    h' !! types' = Some (CTypes fields') /\
    omitVariations union omittedVariations h = ofVariations_at types' h' /\
    Forall2 (fun kt kt' : string * loc =>
               kt'.1 = kt.1 /\ h !! kt'.2 = None /\
               forall tbl, h !! kt.2 = Some (CTable tbl) ->
                 h' !! kt'.2
                 = Some (CTable ((fun v => (v, table_get tbl v))
                                   <$> filter (fun v => v ∉ omittedVariations)
                                         (object_keys first))))
            ((n0, t0) :: rest) fields'.
Proof.
  intros Hu Ha Hf Hnd Ht0 Hvs Hrest.
  exact (omitVariations_eval union h api types n0 t0 rest first omittedVariations
           Hu Ha Hf Hnd Ht0 Hvs Hrest).
Qed.

Lemma omitVariations_rebuilds_tables_witness :
  exists g,
    closure [("One", [("a", VNum 1); ("toString", VNum 2)]);
             ("Two", [("a", VNum 3); ("c", VNum 4)])] = Ret g /\
    let h0 := [CTable [("a", VNum 1); ("toString", VNum 2)];
               CTable [("a", VNum 3); ("c", VNum 4)];
               CTypes [("One", 0); ("Two", 1)]; CBundle (bundle 2 g)] in
    exists types' h' t1 t2,
      h0 `prefix_of` h' /\
      omitVariations 3 ["a"] h0 = ofVariations_at types' h' /\
      h' !! types' = Some (CTypes [("One", t1); ("Two", t2)]) /\
      h' !! t1 = Some (CTable [("toString", VNum 2)]) /\
      h' !! t2 = Some (CTable [("toString", VFun "toString" 0)]).
Proof.
  destruct (constants_total ["One"; "Two"] ["a"; "toString"]) as [g E];
    [by_computation..|].
  exists g. split; [rewrite closure_cons; exact E|].
  intros h0.
  destruct (omitVariations_rebuilds_tables 3 h0 (bundle 2 g) 2 "One" 0
              [("Two", 1)] [("a", VNum 1); ("toString", VNum 2)] ["a"])
    as (types' & h' & fields' & Hpre & Htypes' & Heval & Hall).
  - reflexivity.
  - apply (bundle_lookup_types 2 _ _ g E); by_computation.
  - reflexivity.
  - by_computation.
  - reflexivity.
  - by_computation.
  - intros n t Hin. apply list_elem_of_singleton in Hin as [= -> ->].
    eexists. reflexivity.
  - inversion Hall as [|kt1 [k1 t1] fs1 made1 (Hk1 & _ & Hrow1) Htail E1 E2].
    subst. cbn [fst snd] in Hk1, Hrow1. subst k1.
    inversion Htail as [|kt2 [k2 t2] fs2 made2 (Hk2 & _ & Hrow2) Hnil E1 E2].
    subst. cbn [fst snd] in Hk2, Hrow2. subst k2.
    inversion Hnil. subst.
    exists types', h', t1, t2. split; [exact Hpre|]. split; [exact Heval|].
    split; [exact Htypes'|]. split.
    + exact (Hrow1 _ eq_refl).
    + exact (Hrow2 _ eq_refl).
Defined.

Lemma object_keys_row {B : Type} (f : string -> B) (vs : list string) :
  object_keys ((fun v => (v, f v)) <$> vs) = vs.
Proof.
  unfold object_keys. rewrite <- list_fmap_compose.
  induction vs as [|v vs IH]; [reflexivity|].
  rewrite fmap_cons, IH. reflexivity.
Qed.

Lemma Forall2_object_keys (R : string * loc -> string * loc -> Prop)
    (fs made : list (string * loc)) :
  Forall2 (fun kt kt' => kt'.1 = kt.1 /\ R kt kt') fs made ->
  object_keys made = object_keys fs.
Proof.
  unfold object_keys. induction 1 as [|kt kt' fs made [Hk _] _ IH]; [reflexivity|].
  rewrite !fmap_cons, Hk, IH. reflexivity.
Qed.

(** X16: the union [omitVariations] returns.  The call returns exactly
    when the Names and the Variations that are kept can be assigned as
    properties of a function; omitting every Variation is no error.  The
    bundle it returns is generated for the Names of the input and the
    Variations of the first table that are not omitted, and its guard
    [is] accepts an entity exactly when its Name is a Name of the input
    and its Variation is one of those. *)
Theorem omitVariations_result union h api types n0 t0 rest first
    omittedVariations :
  h !! union = Some (CBundle api) ->
  api !! "types" = Some (ATypes types) ->
  h !! types = Some (CTypes ((n0, t0) :: rest)) ->
  NoDup (object_keys ((n0, t0) :: rest)) ->
  h !! t0 = Some (CTable first) ->
  NoDup (object_keys first) ->
  (forall n t, (n, t) ∈ rest -> exists tbl, h !! t = Some (CTable tbl)) ->
  ((exists r, omitVariations union omittedVariations h = Ret r) <->
   assignable (n0 :: object_keys rest) /\
   assignable (filter (fun v => v ∉ omittedVariations) (object_keys first))) /\
  (forall union' h',
      omitVariations union omittedVariations h = Ret (union', h') ->
      exists types' g,
        h' !! union' = Some (CBundle (bundle types' g)) /\
        constants (n0 :: object_keys rest)
                  (filter (fun v => v ∉ omittedVariations) (object_keys first))
        = Ret g /\
        forall n v p,
          fcall (c_isAll g) (opaque (VStr n) (VStr v) p)
          = Ret (bool_decide (n ∈ n0 :: object_keys rest) &&
                 (bool_decide (v ∈ object_keys first) &&
                  negb (bool_decide (v ∈ omittedVariations))))).
Proof.
  intros Hu Ha Hf Hnd Ht0 Hvs Hrest.
  destruct (omitVariations_eval union h api types n0 t0 rest first
              omittedVariations Hu Ha Hf Hnd Ht0 Hvs Hrest)
    as (types' & h1 & fields' & Hpre & Htypes' & Heval & Hall).
  set (kept := filter (fun v => v ∉ omittedVariations) (object_keys first)) in *.
  pose proof (Forall2_object_keys _ _ _ Hall) as Hkeys.
  change (object_keys ((n0, t0) :: rest)) with (n0 :: object_keys rest) in Hkeys.
  inversion Hall as [|kt [k0 t0'] fs made (Hk0 & _ & Hrow) Htail Ekt Emade].
  subst kt fs fields'. cbn [fst snd] in Hk0, Hrow. subst k0.
  specialize (Hrow first Ht0). clear Htail Hall.
  assert (Hinv : forall union' h',
             ofVariations_at types' h1 = Ret (union', h') ->
             exists g,
               h' !! union' = Some (CBundle (bundle types' g)) /\
               constants (n0 :: object_keys rest) kept = Ret g).
  { intros union' h' Hret.
    apply ofVariations_at_inv in Hret
      as (n1 & t1 & rest1 & tbl & g & Ht & Htbl & Hg & -> & ->).
    pose proof (eq_trans (eq_sym Htypes') Ht) as [= <- <- <-].
    pose proof (eq_trans (eq_sym Hrow) Htbl) as [= <-].
    rewrite object_keys_row in Hg.
    change (n0 :: object_keys made) with (object_keys ((n0, t0') :: made)) in Hg.
    rewrite Hkeys in Hg.
    exists g. split; [apply list_lookup_middle; reflexivity|exact Hg]. }
  split; [split|].
  - intros [[union' h'] Hret]. rewrite Heval in Hret.
    destruct (Hinv _ _ Hret) as (g & _ & Hg).
    exact (constants_assignable _ _ _ Hg).
  - intros [Hn Hv]. rewrite Heval.
    destruct (ofVariations_at_total types' h1 n0 t0' made _ Htypes' Hrow)
      as (g & _ & Hret).
    + change (n0 :: object_keys made) with (object_keys ((n0, t0') :: made)).
      rewrite Hkeys. exact Hn.
    + rewrite object_keys_row. exact Hv.
    + eexists. exact Hret.
  - intros union' h' Hret. rewrite Heval in Hret.
    destruct (Hinv _ _ Hret) as (g & Hb & Hg).
    exists types', g. split; [exact Hb|]. split; [exact Hg|].
    intros n v p. rewrite (is_call _ _ g Hg), is_any_opaque. do 2 f_equal.
    apply eq_bool_prop_intro.
    rewrite andb_True, negb_True, !bool_decide_spec. unfold kept.
    rewrite list_elem_of_filter. tauto.
Qed.

Lemma omitVariations_result_witness :
  exists g,
    closure [("One", [("a", VNum 1)]); ("Two", [("a", VNum 2)])] = Ret g /\
    let h0 := [CTable [("a", VNum 1)]; CTable [("a", VNum 2)];
               CTypes [("One", 0); ("Two", 1)]; CBundle (bundle 2 g)] in
    exists union' h' g',
      omitVariations 3 ["a"] h0 = Ret (union', h') /\
      forall n v p,
        fcall (c_isAll g') (opaque (VStr n) (VStr v) p)
        = Ret (bool_decide (n ∈ ["One"; "Two"]) &&
               (bool_decide (v ∈ ["a"]) && negb (bool_decide (v ∈ ["a"])))).
Proof.
  destruct (constants_total ["One"; "Two"] ["a"]) as [g E]; [by_computation..|].
  exists g. split; [rewrite closure_cons; exact E|].
  intros h0.
  destruct (omitVariations_result 3 h0 (bundle 2 g) 2 "One" 0 [("Two", 1)]
              [("a", VNum 1)] ["a"]) as (Hreturns & Hresult).
  - reflexivity.
  - apply (bundle_lookup_types 2 _ _ g E); by_computation.
  - reflexivity.
  - by_computation.
  - reflexivity.
  - by_computation.
  - intros n t Hin. apply list_elem_of_singleton in Hin as [= -> ->].
    eexists. reflexivity.
  - destruct (proj2 Hreturns) as [[union' h'] R].
    { split; by_computation. }
    destruct (Hresult union' h' R) as (types' & g' & _ & _ & Hguard).
    exists union', h', g'. split; [exact R|exact Hguard].
Defined.

(** X18: the union [pick] returns.  When no Name of the input is among
    the picked keys the call throws a [TypeError]; a picked key that is
    no Name of the input is ignored.  When the call returns, the Names of
    the new bundle are the Names of the input that were picked, in the
    order of the input, its Variations are the keys of the table of the
    first of them, and its guard [is] accepts an entity exactly when its
    Name is a picked Name of the input and its Variation is one of those
    Variations. *)
Theorem pick_result union h api types fields onlyKeys :
  h !! union = Some (CBundle api) ->
  api !! "types" = Some (ATypes types) ->
  h !! types = Some (CTypes fields) ->
  NoDup (object_keys fields) ->
  ((forall n, n ∈ object_keys fields -> n ∉ onlyKeys) ->
   pick union onlyKeys h = Throw TypeError) /\
  (forall union' h',
      pick union onlyKeys h = Ret (union', h') ->
      exists types' g n0 t0 tbl,
        h' !! union' = Some (CBundle (bundle types' g)) /\
        head (filter (fun kt => kt.1 ∈ onlyKeys) fields) = Some (n0, t0) /\
        h' !! t0 = Some (CTable tbl) /\
        constants (filter (fun k => k ∈ onlyKeys) (object_keys fields))
                  (object_keys tbl) = Ret g /\
        forall n v p,
          fcall (c_isAll g) (opaque (VStr n) (VStr v) p)
          = Ret (bool_decide (n ∈ object_keys fields) &&
                 bool_decide (n ∈ onlyKeys) &&
                 bool_decide (v ∈ object_keys tbl))).
Proof.
  intros Hu Ht Hf Hnd.
  destruct (filter_names (fun key => negb (bool_decide (key ∈ onlyKeys)))
              union h api types fields (fun kt => kt.1 ∈ onlyKeys)
              Hu Ht Hf Hnd)
    as (types' & h1 & Hpre & Htypes' & Hpick).
  { intros kt. rewrite negb_false_iff, bool_decide_eq_true. reflexivity. }
  change (pick union onlyKeys h = ofVariations_at types' h1) in Hpick.
  split.
  - intros Hnone. rewrite Hpick.
    assert (Hnil : filter (fun kt : string * loc => kt.1 ∈ onlyKeys) fields = []).
    { apply filter_none.
      intros [k t] Hin Hk. apply (Hnone k); [|exact Hk].
      exact (list_elem_of_fmap_2 fst _ _ Hin). }
    rewrite Hnil in Htypes'. exact (ofVariations_at_nil _ _ Htypes').
  - intros union' h' Hret. rewrite Hpick in Hret.
    destruct (generated_at_guard _ _ _ _ _ Htypes' Hret)
      as (g & n0 & t0 & tbl & Hb & Hhead & Htbl & Hg & Hguard).
    exists types', g, n0, t0, tbl. split; [exact Hb|]. split; [exact Hhead|].
    split.
    { apply ofVariations_at_Ret in Hret as (g' & _ & Hh'). rewrite Hh'.
      apply lookup_app_l_Some. exact Htbl. }
    pose proof (object_keys_filter (A := loc) (fun k => k ∈ onlyKeys) fields)
      as Hkeys.
    cbv beta in Hkeys. rewrite Hkeys in Hg, Hguard.
    split; [exact Hg|].
    intros n v p. rewrite Hguard. do 2 f_equal.
    apply eq_bool_prop_intro.
    rewrite andb_True, !bool_decide_spec, list_elem_of_filter. tauto.
Qed.

Lemma pick_result_witness :
  exists g,
    closure [("One", [("var1", VUndefined)]); ("Two", [("var2", VUndefined)])]
    = Ret g /\
    let h0 := [CTable [("var1", VUndefined)]; CTable [("var2", VUndefined)];
               CTypes [("One", 0); ("Two", 1)]; CBundle (bundle 2 g)] in
    pick 3 ["Three"] h0 = Throw TypeError /\
    exists union' h' g',
      pick 3 ["Three"; "Two"] h0 = Ret (union', h') /\
      forall n v p,
        fcall (c_isAll g') (opaque (VStr n) (VStr v) p)
        = Ret (bool_decide (n ∈ ["One"; "Two"]) &&
               bool_decide (n ∈ ["Three"; "Two"]) &&
               bool_decide (v ∈ ["var2"])).
Proof.
  destruct (constants_total ["One"; "Two"] ["var1"]) as [g E];
    [by_computation..|].
  exists g. split; [rewrite closure_cons; exact E|].
  intros h0.
  assert (Htypes : bundle 2 g !! "types" = Some (ATypes 2)).
  { apply (bundle_lookup_types 2 _ _ g E); by_computation. }
  split.
  - apply (proj1 (pick_result 3 h0 (bundle 2 g) 2 [("One", 0); ("Two", 1)]
                    ["Three"] eq_refl Htypes eq_refl ltac:(by_computation))).
    apply (proj1 (Forall_forall _ _)). by_computation.
  - assert (Rpick : exists r, pick 3 ["Three"; "Two"] h0 = Ret r).
    { unfold pick.
      rewrite (bindM_eq _ _ _ _ _ (types_of_eval 3 h0 _ 2 eq_refl Htypes)).
      run_store. }
    destruct Rpick as [[union' h'] R].
    destruct (proj2 (pick_result 3 h0 (bundle 2 g) 2 [("One", 0); ("Two", 1)]
                       ["Three"; "Two"] eq_refl Htypes eq_refl
                       ltac:(by_computation))
                union' h' R)
      as (types' & g' & n0 & t0 & tbl & _ & Hhead & Htbl & _ & Hguard).
    exists union', h', g'. split; [exact R|].
    injection Hhead as <- <-.
    pose proof (proj1 (pick_pure _ _ _ _ R) 1 _ eq_refl) as Htwo.
    cbn [snd] in Htwo.
    pose proof (eq_trans (eq_sym Htbl) Htwo) as [= ->]. exact Hguard.
Defined.
